(** * OptiResume: enhancement engine, generation orchestration and MCP adapter

    A shallow embedding of
    - [BuildCVPage.tsx] ([enhanceResume], [handleFileChange], [handleGenerate],
      [handlePrintHtml], the skills field and the template of the draft),
    - [lib/api.ts] ([getBackendBaseUrl], [generateResume], [listTemplates],
      [exportPdf]),
    - [mcp-server/index.js] (the [ListToolsRequestSchema] and
      [CallToolRequestSchema] handlers),
    followed by the properties proved about them. *)

From Stdlib Require Import NArith ZArith Lia List Ascii String Bool DecimalString.
From stdpp Require Import base option list gmap strings.

Local Open Scope N_scope.

(** ** JavaScript strings

    A JavaScript string is a sequence of UTF-16 code units; [length],
    [slice], [charAt] and the regular expressions of the source (none
    carries the [u] flag) all count code units.  The source contains
    code units above 255 (bullet glyphs, dashes), so a string is a list
    of code units held in [N]. *)

Module Js.

Abbreviation jsstring := (list N).

(** An ASCII literal of the source. *)
Definition lit (s : string) : jsstring :=
  List.map N_of_ascii (list_ascii_of_string s).

(** [WhiteSpace] and [LineTerminator] of ECMAScript: what [trim]
    removes and what [\s] matches. *)
Definition isWhiteSpace (c : N) : bool :=
  ((9 <=? c) && (c <=? 13))
  || (c =? 32) || (c =? 160) || (c =? 0x1680)
  || ((0x2000 <=? c) && (c <=? 0x200A))
  || (c =? 0x2028) || (c =? 0x2029) || (c =? 0x202F)
  || (c =? 0x205F) || (c =? 0x3000) || (c =? 0xFEFF).

(** [\w] without the [u] flag: [A-Za-z0-9_]. *)
Definition isWordChar (c : N) : bool :=
  ((65 <=? c) && (c <=? 90)) || ((97 <=? c) && (c <=? 122))
  || ((48 <=? c) && (c <=? 57)) || (c =? 95).

Definition asciiUpper (c : N) : N :=
  if (97 <=? c) && (c <=? 122) then c - 32 else c.

Definition asciiLower (c : N) : N :=
  if (65 <=? c) && (c <=? 90) then c + 32 else c.

Fixpoint dropWhile (p : N → bool) (s : jsstring) : jsstring :=
  match s with
  | [] => []
  | c :: r => if p c then dropWhile p r else s
  end.

(** Removes the longest suffix made of characters satisfying [p]:
    [s.replace(/[p]+$/, "")]. *)
Fixpoint dropWhileEnd (p : N → bool) (s : jsstring) : jsstring :=
  match s with
  | [] => []
  | c :: r =>
      match dropWhileEnd p r with
      | [] => if p c then [] else [c]
      | r' => c :: r'
      end
  end.

(** [String.prototype.trim]. *)
Definition trim (s : jsstring) : jsstring :=
  dropWhileEnd isWhiteSpace (dropWhile isWhiteSpace s).

(** [s.slice(0, n)]. *)
Definition slice0 (n : nat) (s : jsstring) : jsstring := take n s.

(** [xs.join(sep)] on an array of strings. *)
Fixpoint join (sep : jsstring) (xs : list jsstring) : jsstring :=
  match xs with
  | [] => []
  | [x] => x
  | x :: r => x ++ sep ++ join sep r
  end.

(** [s.replace(/\s+/g, " ")]: every maximal run of white space becomes
    one space.  [inRun] tells that the previous character belonged to
    the run being replaced. *)
Fixpoint compactFrom (inRun : bool) (s : jsstring) : jsstring :=
  match s with
  | [] => []
  | c :: r =>
      if isWhiteSpace c
      then (if inRun then compactFrom true r else 32 :: compactFrom true r)
      else c :: compactFrom false r
  end.

Definition compactWhitespace (s : jsstring) : jsstring := compactFrom false s.

(** Case-insensitive match of an ASCII pattern at the head of [t]
    (the [i] flag without [u]: a code unit above 127 never
    canonicalizes to an ASCII letter).  Returns what follows the
    match. *)
Fixpoint matchPrefixCI (pat t : jsstring) : option jsstring :=
  match pat with
  | [] => Some t
  | p :: pat' =>
      match t with
      | [] => None
      | c :: t' =>
          if asciiUpper c =? asciiUpper p then matchPrefixCI pat' t' else None
      end
  end.

(** [`${n}`] for a non-negative integer. *)
Definition decimal (n : N) : jsstring :=
  lit (NilEmpty.string_of_uint (N.to_uint n)).

(** The case mappings of the host ([String.prototype.toUpperCase] and
    [toLowerCase]) follow the Unicode tables, which are not part of
    the repository.  They are a parameter; all that is used of them
    is their behaviour on ASCII. *)
Class CaseMapping := {
  toUpperCase : jsstring → jsstring;
  toLowerCase : jsstring → jsstring;
  toUpperCase_ascii :
    ∀ c, c < 128 → toUpperCase [c] = [asciiUpper c];
  toLowerCase_ascii :
    ∀ s, Forall (λ c, c < 128) s → toLowerCase s = List.map asciiLower s;
}.

End Js.

Import Js.

(** ** The resume data model ([types/resume.ts])

    Fields that the engine reads through a guard ([s?.name || s],
    [w?.description || ""], [clone.summary || ...], [Array.isArray])
    are optional here: [None] is the absent property. *)

Record PersonalInfo := {
  pi_name : jsstring;
  pi_email : jsstring;
  pi_phone : jsstring;
  pi_location : jsstring;
  pi_linkedin : option jsstring;
  pi_github : option jsstring;
  pi_website : option jsstring;
}.

Record Education := {
  edu_id : jsstring;
  edu_degree : jsstring;
  edu_institution : jsstring;
  edu_location : jsstring;
  edu_startDate : jsstring;
  edu_endDate : jsstring;
  edu_gpa : option jsstring;
  edu_description : option jsstring;
}.

Record WorkExperience := {
  work_id : jsstring;
  work_title : option jsstring;
  work_company : jsstring;
  work_location : jsstring;
  work_startDate : jsstring;
  work_endDate : jsstring;
  work_current : bool;
  work_description : option jsstring;
  work_achievements : option (list jsstring);
}.

Record Project := {
  prj_id : jsstring;
  prj_name : jsstring;
  prj_description : jsstring;
  prj_technologies : list jsstring;
  prj_startDate : jsstring;
  prj_endDate : jsstring;
  prj_url : option jsstring;
  prj_github : option jsstring;
}.

Inductive SkillCategory := technical | soft | language | other.
Inductive Proficiency := beginner | intermediate | advanced | expert.

Record Skill := {
  skill_id : jsstring;
  skill_name : option jsstring;
  skill_category : SkillCategory;
  skill_proficiency : Proficiency;
}.

(** An element of the [skills] array: a [Skill] object, or a bare
    string, which [s?.name || s] also accepts. *)
Inductive SkillEntry :=
| SkillObj (o : Skill)
| SkillStr (x : jsstring).

Record Certification := {
  cert_id : jsstring;
  cert_name : jsstring;
  cert_issuer : jsstring;
  cert_date : jsstring;
  cert_expiryDate : option jsstring;
  cert_credentialId : option jsstring;
  cert_url : option jsstring;
}.

Record ResumeData := {
  personalInfo : PersonalInfo;
  summary : option jsstring;
  education : list Education;
  workExperience : option (list WorkExperience);
  projects : list Project;
  skills : option (list SkillEntry);
  certifications : list Certification;
  template : option jsstring;
  aiEnhancement : bool;
}.

(** JavaScript truthiness of a possibly absent string. *)
Definition truthyStr (o : option jsstring) : bool :=
  match o with
  | Some (_ :: _) => true
  | _ => false
  end.

(** [a || b] on possibly absent strings. *)
Definition orElse (a : option jsstring) (b : option jsstring) : option jsstring :=
  if truthyStr a then a else b.

(** [a || b] where [b] is a string literal. *)
Definition orLit (a : option jsstring) (b : jsstring) : jsstring :=
  match a with
  | Some (c :: r) => c :: r
  | _ => b
  end.

(** ** The enhancement engine ([enhanceResume] in [BuildCVPage.tsx]) *)

(** The value of [s?.name || s]: the name when it is a non-empty
    string, otherwise the array element itself. *)
Inductive NameOrSelf :=
| AsString (x : jsstring)
| AsObject (o : Skill).

Definition nameOrSelf (s : SkillEntry) : NameOrSelf :=
  match s with
  | SkillObj o =>
      match skill_name o with
      | Some (c :: r) => AsString (c :: r)
      | _ => AsObject o
      end
  | SkillStr x => AsString x
  end.

(** [v.toString()] and the conversion [join] applies: a plain object
    prints as [[object Object]]. *)
Definition toString (v : NameOrSelf) : jsstring :=
  match v with
  | AsString x => x
  | AsObject _ => lit "[object Object]"
  end.

(** [Boolean(v)]. *)
Definition truthy (v : NameOrSelf) : bool :=
  match v with
  | AsString [] => false
  | _ => true
  end.

(** [arr.filter(f)] where [f] consults and extends the [Set] [seen]:
    an element is kept when its key is non-empty and new. *)
Fixpoint filterUnseen {A : Type} (key : A → jsstring) (seen : gset jsstring)
    (l : list A) : list A :=
  match l with
  | [] => []
  | s :: r =>
      let n := key s in
      if bool_decide (n = []) || bool_decide (n ∈ seen)
      then filterUnseen key seen r
      else s :: filterUnseen key ({[ n ]} ∪ seen) r
  end.

Definition strongVerbs : list jsstring :=
  List.map lit
    ["Led"; "Built"; "Implemented"; "Optimized"; "Designed"; "Automated";
     "Improved"; "Delivered"; "Migrated"; "Refactored"; "Deployed";
     "Mentored"; "Analyzed"; "Architected"; "Reduced"]%string.

Definition impactPhrases : list jsstring :=
  List.map lit
    ["deliver measurable outcomes"; "ship reliable features";
     "optimize performance"; "automate workflows";
     "improve user experience"; "scale systems"]%string.

(** Reading [arr[i]] inside a template literal: a hole prints as
    [undefined]. *)
Definition at_index (arr : list jsstring) (i : nat) : jsstring :=
  default (lit "undefined") (arr !! i).

(** The one-character alternatives: [\n], [\r], [\u2022], [\-],
    [\u2013], [\u2014]. *)
Definition isSeparator (c : N) : bool :=
  (c =? 10) || (c =? 13) || (c =? 0x2022) || (c =? 45)
  || (c =? 0x2013) || (c =? 0x2014).

(** [text.split(/\n|\r|...|\u2022|\-|\u2013|\u2014/)]; [cur] holds
    the piece being read, reversed.  The third alternative of the
    pattern is, as the file on disk has it, the three code units
    U+201A U+00C4 U+00A2. *)
Fixpoint splitFrom (cur : jsstring) (s : jsstring) : list jsstring :=
  match s with
  | [] => [rev cur]
  | c :: r =>
      if isSeparator c then rev cur :: splitFrom [] r
      else
        match s with
        | 0x201A :: 0xC4 :: 0xA2 :: r3 => rev cur :: splitFrom [] r3
        | _ => splitFrom (c :: cur) r
        end
  end.

Definition splitLines (text : jsstring) : list jsstring := splitFrom [] text.

(** [.map((x) => x.trim()).filter(Boolean)]. *)
Definition isNonEmpty (x : jsstring) : bool :=
  match x with
  | [] => false
  | _ => true
  end.

Definition candidateLines (text : jsstring) : list jsstring :=
  List.filter isNonEmpty (List.map trim (splitLines text)).

(** [/[.;:,\s]/]. *)
Definition isTrailingJunk (c : N) : bool :=
  (c =? 46) || (c =? 59) || (c =? 58) || (c =? 44) || isWhiteSpace c.

(** What follows a matched verb satisfies [\b]: the verb ends in a
    letter, so the boundary holds at the end of the string or before a
    character that is not a word character. *)
Definition atWordBoundary (rest : jsstring) : bool :=
  match rest with
  | [] => true
  | c :: _ => negb (isWordChar c)
  end.

(** [/^(Led|Built|...|Reduced)\b/i.test(t)]. *)
Definition hasVerb (t : jsstring) : bool :=
  existsb
    (λ v, match matchPrefixCI v t with
          | Some rest => atWordBoundary rest
          | None => false
          end)
    strongVerbs.

(** The marker appended to a truncated line, as the file on disk has
    it: the three code units U+201A U+00C4 U+00B6. *)
Definition truncationMarker : jsstring := [0x201A; 0xC4; 0xB6].

(** [t.length > 220 ? t.slice(0, 220) + marker : t]. *)
Definition clip (t : jsstring) : jsstring :=
  if (220 <? length t)%nat then slice0 220 t ++ truncationMarker else t.

(** Number of line breaks in a string: one less than the number of
    lines of a non-empty text. *)
Definition lineBreaks (s : jsstring) : nat := length (List.filter (N.eqb 10) s).

(** [[A-Za-z]]: what the verbs of [strongVerbs] are made of. *)
Definition isAsciiLetter (c : N) : bool :=
  ((65 <=? c) && (c <=? 90)) || ((97 <=? c) && (c <=? 122)).

Section Enhancement.
Context `{CaseMapping}.

(** The key of the dedup filter:
    [(s?.name || s)?.toString().trim().toLowerCase()]. *)
Definition skillKey (s : SkillEntry) : jsstring :=
  toLowerCase (trim (toString (nameOrSelf s))).

(** [clone.skills.filter(...)] with a fresh [seen]. *)
Definition dedupeSkills (l : list SkillEntry) : list SkillEntry :=
  filterUnseen skillKey ∅ l.

(** [x.charAt(0).toUpperCase() + x.slice(1)]. *)
Definition capitalize (x : jsstring) : jsstring :=
  toUpperCase (take 1 x) ++ drop 1 x.

(** [t.replace(/[.;:,\s]+$/g, "")]. *)
Definition stripTrailing (t : jsstring) : jsstring :=
  dropWhileEnd isTrailingJunk t.

(** The callback of [lines.map((x, i) => ...)]. *)
Definition bullet (i : nat) (x : jsstring) : jsstring :=
  let t := capitalize x in
  let t := stripTrailing t in
  let t :=
    if hasVerb t then t
    else at_index strongVerbs (i mod length strongVerbs) ++ lit " " ++ t in
  let t := compactWhitespace t in
  clip t.

Definition bullets (text : jsstring) : list jsstring :=
  imap bullet (candidateLines text).

(** [normalizeBullets]: [bullets.slice(0, 6).join("\n")]. *)
Definition normalizeBullets (text : jsstring) : jsstring :=
  join [10] (take 6 (bullets text)).

(** [{...w, description: normalizeBullets(w?.description || "")}]. *)
Definition bulletize (w : WorkExperience) : WorkExperience :=
  {| work_id := work_id w;
     work_title := work_title w;
     work_company := work_company w;
     work_location := work_location w;
     work_startDate := work_startDate w;
     work_endDate := work_endDate w;
     work_current := work_current w;
     work_description := Some (normalizeBullets (orLit (work_description w) []));
     work_achievements := work_achievements w |}.

(** [(clone.skills || []).map((s) => s?.name || s).filter(Boolean).slice(0, 6)]. *)
Definition topSkillsOf (sk : option (list SkillEntry)) : list NameOrSelf :=
  take 6 (List.filter truthy (List.map nameOrSelf (default [] sk))).

(** [(clone.workExperience?.[0]?.title || "Engineer").toString()]. *)
Definition roleGuessOf (ws : option (list WorkExperience)) : jsstring :=
  match ws with
  | Some (w :: _) => orLit (work_title w) (lit "Engineer")
  | _ => lit "Engineer"
  end.

Definition impactOf (roleGuess : jsstring) (topSkills : list NameOrSelf) : jsstring :=
  at_index impactPhrases
    ((length roleGuess + length topSkills) mod length impactPhrases).

(** The template literal
    [`Results-driven ${roleGuess} with strengths in ${topSkills.join(", ")}. Proven ability to ${impact}.`]. *)
Definition synthesizedOf (roleGuess : jsstring) (topSkills : list NameOrSelf) : jsstring :=
  lit "Results-driven " ++ roleGuess ++ lit " with strengths in "
  ++ join (lit ", ") (List.map toString topSkills)
  ++ lit ". Proven ability to " ++ impactOf roleGuess topSkills ++ lit ".".

(** [String(x).replace(/\s+/g, " ").trim().slice(0, 350)]. *)
Definition tidySummary (x : jsstring) : jsstring :=
  slice0 350 (trim (compactWhitespace x)).

(** [enhanceResume], as a function on values: what the returned clone
    holds, given what the argument holds.  (The clone itself, as an
    object distinct from the argument, is modelled in [Store].) *)
Definition enhanceResume (data : ResumeData) : ResumeData :=
  let skills' := dedupeSkills <$> skills data in
  let work' := List.map bulletize <$> workExperience data in
  let topSkills := topSkillsOf skills' in
  let roleGuess := roleGuessOf work' in
  let synthesized := synthesizedOf roleGuess topSkills in
  {| personalInfo := personalInfo data;
     summary := Some (tidySummary (orLit (summary data) synthesized));
     education := education data;
     workExperience := work';
     projects := projects data;
     skills := skills';
     certifications := certifications data;
     template := template data;
     aiEnhancement := aiEnhancement data |}.

End Enhancement.

(** ** Vocabulary of the properties *)

(** What [seen] holds once the filter of [filterUnseen] has gone
    through [l]. *)
Fixpoint seenAfter {A : Type} (key : A → jsstring) (seen : gset jsstring)
    (l : list A) : gset jsstring :=
  match l with
  | [] => seen
  | s :: r =>
      let n := key s in
      if bool_decide (n = []) || bool_decide (n ∈ seen)
      then seenAfter key seen r
      else seenAfter key ({[ n ]} ∪ seen) r
  end.

(** The name of a skill entry: the [name] property of an object (the
    empty string when it is absent), a bare string itself. *)
Definition entryName (s : SkillEntry) : jsstring :=
  match s with
  | SkillObj o => default [] (skill_name o)
  | SkillStr x => x
  end.

(** An entry with a name to go by: an object whose [name] is a
    non-empty string, or a bare string. *)
Definition named (s : SkillEntry) : bool :=
  match s with
  | SkillObj o => truthyStr (skill_name o)
  | SkillStr _ => true
  end.

Section SpecSide.
Context `{CaseMapping}.

(** The normalization key in the words of the specification: trim and
    lowercase of the skill's name. *)
Definition specKey (s : SkillEntry) : jsstring :=
  toLowerCase (trim (entryName s)).




End SpecSide.

(** First non-empty wins, in the words of the specification: the
    first candidate that is a non-empty string. *)
Fixpoint firstNonEmpty (candidates : list (option jsstring)) : option jsstring :=
  match candidates with
  | [] => None
  | c :: rest => if truthyStr c then c else firstNonEmpty rest
  end.

(** ** The HTTP collaborators, and calls that may fail

    [fetch] reaches the Rendering and Extraction services.  A call is a
    function of the world it runs in: what the network answers to a
    request, and which paths exist on the file system.  A call ends
    with a value or with a thrown error (its message), and logs the
    requests it sent, in order. *)

Inductive Method := GET | POST.

(** The body of a request: none, the JSON object
    [{template, data, format}], or a multipart form holding the file
    read from a path. *)
Inductive RequestBody (D : Type) :=
| NoBody
| GenerateBody (template : jsstring) (data : D) (format : jsstring)
| FileBody (path : jsstring).
Arguments NoBody {D}.
Arguments GenerateBody {D}.
Arguments FileBody {D}.

Record HttpRequest (D : Type) := {
  req_url : jsstring;
  req_method : Method;
  req_body : RequestBody D;
}.
Arguments req_url {D}.
Arguments req_method {D}.
Arguments req_body {D}.

(** A response: [body] is [None] when reading the body fails. *)
Record Response := {
  status : N;
  statusText : jsstring;
  body : option (list Byte.byte);
}.

(** [res.ok]. *)
Definition ok (res : Response) : bool := (200 <=? status res) && (status res <=? 299).

Record World (D : Type) := {
  net : HttpRequest D → jsstring + Response;
  existsSync : jsstring → bool;
}.
Arguments net {D}.
Arguments existsSync {D}.

Definition IO (D A : Type) : Type :=
  World D → list (HttpRequest D) → (jsstring + A) * list (HttpRequest D).

Definition io_ret {D A} (a : A) : IO D A := λ _ log, (inr a, log).

Definition io_bind {D A B} (m : IO D A) (k : A → IO D B) : IO D B :=
  λ w log,
    match m w log with
    | (inr a, log') => k a w log'
    | (inl e, log') => (inl e, log')
    end.

(** [throw new Error(message)]. *)
Definition throw {D A} (message : jsstring) : IO D A := λ _ log, (inl message, log).

(** [try { m } catch (error) { handler(error.message) }]. *)
Definition tryCatch {D A} (m : IO D A) (handler : jsstring → IO D A) : IO D A :=
  λ w log,
    match m w log with
    | (inr a, log') => (inr a, log')
    | (inl e, log') => handler e w log'
    end.

(** [await fetch(url, init)]. *)
Definition fetch {D} (req : HttpRequest D) : IO D Response :=
  λ w log, (net w req, log ++ [req]).

(** [fs.existsSync(path)]. *)
Definition fileExists {D} (path : jsstring) : IO D bool :=
  λ w log, (inr (existsSync w path), log).

#[global] Instance io_mret {D} : MRet (IO D) := λ A a, io_ret a.
#[global] Instance io_mbind {D} : MBind (IO D) := λ A B k m, io_bind m k.

(** What the host provides to read a body: the UTF-8 decoder of
    [res.text()], the parser of [res.json()] (a value, or the message
    of the error it throws), and [JSON.stringify(data, null, 2)]. *)
Class Host (J : Type) := {
  utf8Decode : list Byte.byte → jsstring;
  jsonParse : list Byte.byte → jsstring + J;
  jsonPretty : J → jsstring;
}.

(** The message of the error thrown when the body cannot be read. *)
Definition bodyUnreadable : jsstring := lit "body stream unreadable".

Section Bodies.
Context {D J : Type} `{Host J}.

(** [await res.text()]. *)
Definition resText (res : Response) : IO D jsstring :=
  match body res with
  | Some bs => io_ret (utf8Decode bs)
  | None => throw bodyUnreadable
  end.

(** [await res.arrayBuffer()] and [await res.blob()]. *)
Definition resBytes (res : Response) : IO D (list Byte.byte) :=
  match body res with
  | Some bs => io_ret bs
  | None => throw bodyUnreadable
  end.

(** [await res.json()]. *)
Definition resJson (res : Response) : IO D J :=
  match body res with
  | Some bs =>
      match jsonParse bs with
      | inr v => io_ret v
      | inl e => throw e
      end
  | None => throw bodyUnreadable
  end.

End Bodies.

(** ** The generation orchestrator ([lib/api.ts], [handleGenerate]) *)

Inductive Format := html | pdf.

Definition formatName (f : Format) : jsstring :=
  match f with
  | html => lit "html"
  | pdf => lit "pdf"
  end.

Record GenerateResumeRequest (D : Type) := {
  gen_template : jsstring;
  gen_data : D;
  gen_format : Format;
}.
Arguments gen_template {D}.
Arguments gen_data {D}.
Arguments gen_format {D}.

(** What [generateResume] resolves to: a [Blob] or a string. *)
Inductive Generated :=
| GeneratedBlob (bytes : list Byte.byte)
| GeneratedText (text : jsstring).

Section Api.
Context {D J : Type} `{Host J}.

(** [base ? `${base}/generate_resume` : "/generate_resume"]. *)
Definition endpoint (base : jsstring) (path : string) : jsstring :=
  match base with
  | [] => lit path
  | _ => base ++ lit path
  end.

(** [generateResume] of [lib/api.ts]; [base] is [getBackendBaseUrl()]. *)
Definition generateResume (base : jsstring) (data : GenerateResumeRequest D)
    : IO D Generated :=
  res ← fetch {| req_url := endpoint base "/generate_resume";
                  req_method := POST;
                  req_body := GenerateBody (gen_template data) (gen_data data)
                                (formatName (gen_format data)) |};
  if negb (ok res) then
    text ← tryCatch (resText res) (λ _, io_ret []);
    throw (lit "Generation failed (" ++ decimal (status res) ++ lit "): "
           ++ match text with [] => statusText res | _ => text end)
  else
    match gen_format data with
    | pdf => bs ← resBytes res; io_ret (GeneratedBlob bs)
    | html => t ← resText res; io_ret (GeneratedText t)
    end.

(** The text that [generateResume] reports for a failed response:
    the body, or the status text when the body is empty or cannot be
    read. *)
Definition failureText (res : Response) : jsstring :=
  match body res with
  | Some bs => match utf8Decode bs with [] => statusText res | t => t end
  | None => statusText res
  end.

End Api.

(** [resumeData.template || lastUsedTemplate || templates[0] || "modern.tex"]. *)
Definition resolveTemplate (draftTemplate lastUsedTemplate : option jsstring)
    (templates : list jsstring) : jsstring :=
  orLit (orElse (orElse draftTemplate lastUsedTemplate) (head templates))
    (lit "modern.tex").

(** What the user is shown when [handleGenerate] ends. *)
Inductive Shown :=
| PdfDownloaded (bytes : list Byte.byte)
| PreviewReady (html : jsstring)
| GenerationFailed (description : jsstring).

Section HandleGenerate.
Context {J : Type} `{Host J} `{CaseMapping}.

(** The [payload] of [handleGenerate]. *)
Definition payloadOf (resumeData : ResumeData) (lastUsedTemplate : option jsstring)
    (templates : list jsstring) (format : Format) : GenerateResumeRequest ResumeData :=
  {| gen_template := resolveTemplate (template resumeData) lastUsedTemplate templates;
     gen_data := if aiEnhancement resumeData then enhanceResume resumeData else resumeData;
     gen_format := format |}.

(** [handleGenerate]: one call of [generateResume], whose outcome is
    shown; a thrown error ends in the [Generation failed] toast with
    the message of the error. *)
Definition handleGenerate (base : jsstring) (resumeData : ResumeData)
    (lastUsedTemplate : option jsstring) (templates : list jsstring)
    (format : Format) : IO ResumeData Shown :=
  tryCatch
    (res ← generateResume base (payloadOf resumeData lastUsedTemplate templates format);
     match res with
     | GeneratedBlob bs => io_ret (PdfDownloaded bs)
     | GeneratedText t => io_ret (PreviewReady t)
     end)
    (λ message, io_ret (GenerationFailed message)).

End HandleGenerate.

(** ** The upload orchestrator ([handleFileChange])

    An object is a finite map from property names to values; the
    values are taken as they are, whatever they hold. *)

(** What [uploadResume(file)] comes to: a thrown error, or the parsed
    response with its [parsed] property, possibly absent. *)
Inductive Uploaded (V : Type) :=
| UploadThrew (message : jsstring)
| UploadReturned (parsed : option (gmap string V)).
Arguments UploadThrew {V}.
Arguments UploadReturned {V}.

(** [{...resumeData, ...res.parsed}]: the properties of [resumeData],
    then those of [parsed] over them. *)
Definition mergeDraft {V} (resumeData parsed : gmap string V) : gmap string V :=
  parsed ∪ resumeData.

(** The draft after [handleFileChange]: [setResumeData(merged)] when
    a file was chosen and [res.parsed] is there, no change otherwise. *)
Definition handleFileChange {V} (resumeData : gmap string V) (fileChosen : bool)
    (outcome : Uploaded V) : gmap string V :=
  if fileChosen then
    match outcome with
    | UploadReturned (Some parsed) => mergeDraft resumeData parsed
    | UploadReturned None => resumeData
    | UploadThrew _ => resumeData
    end
  else resumeData.

(** ** Base64 ([buf.toString('base64')]) *)

Module Base64.

(** The character of a 6-bit value in the standard alphabet. *)
Definition alphabet (v : N) : N :=
  if v <? 26 then 65 + v
  else if v <? 52 then 97 + (v - 26)
  else if v <? 62 then 48 + (v - 52)
  else if v =? 62 then 43
  else 47.

(** The 6-bit value of a character of the alphabet. *)
Definition value (c : N) : option N :=
  if (65 <=? c) && (c <=? 90) then Some (c - 65)
  else if (97 <=? c) && (c <=? 122) then Some (c - 97 + 26)
  else if (48 <=? c) && (c <=? 57) then Some (c - 48 + 52)
  else if c =? 43 then Some 62
  else if c =? 47 then Some 63
  else None.

(** The padding character [=]. *)
Definition pad : N := 61.

Fixpoint encode (bs : list Byte.byte) : jsstring :=
  match bs with
  | [] => []
  | [a] =>
      let a := Byte.to_N a in
      [alphabet (a / 4); alphabet ((a mod 4) * 16); pad; pad]
  | [a; b] =>
      let a := Byte.to_N a in
      let b := Byte.to_N b in
      [alphabet (a / 4); alphabet ((a mod 4) * 16 + b / 16);
       alphabet ((b mod 16) * 4); pad]
  | a :: b :: c :: rest =>
      let a := Byte.to_N a in
      let b := Byte.to_N b in
      let c := Byte.to_N c in
      alphabet (a / 4) :: alphabet ((a mod 4) * 16 + b / 16)
      :: alphabet ((b mod 16) * 4 + c / 64) :: alphabet (c mod 64)
      :: encode rest
  end.

Definition isNil {A} (l : list A) : bool :=
  match l with
  | [] => true
  | _ => false
  end.

(** The decoder: groups of four characters, the last of which may end
    in one or two padding characters. *)
Fixpoint decode (s : jsstring) : option (list Byte.byte) :=
  match s with
  | [] => Some []
  | c0 :: c1 :: c2 :: c3 :: rest =>
      if (c2 =? pad) && (c3 =? pad) && isNil rest then
        v0 ← value c0; v1 ← value c1;
        x ← Byte.of_N (v0 * 4 + v1 / 16);
        Some [x]
      else if (c3 =? pad) && isNil rest then
        v0 ← value c0; v1 ← value c1; v2 ← value c2;
        x ← Byte.of_N (v0 * 4 + v1 / 16);
        y ← Byte.of_N ((v1 mod 16) * 16 + v2 / 4);
        Some [x; y]
      else
        v0 ← value c0; v1 ← value c1; v2 ← value c2; v3 ← value c3;
        x ← Byte.of_N (v0 * 4 + v1 / 16);
        y ← Byte.of_N ((v1 mod 16) * 16 + v2 / 4);
        z ← Byte.of_N ((v2 mod 4) * 64 + v3);
        tail ← decode rest;
        Some (x :: y :: z :: tail)
  | _ => None
  end.

End Base64.

(** ** The protocol adapter ([mcp-server/index.js]) *)

(** The [arguments] of a tool call. *)
Record ToolArgs (D : Type) := {
  file_path : option jsstring;
  arg_template : option jsstring;
  resume_data : option D;
  arg_format : option jsstring;
}.
Arguments file_path {D}.
Arguments arg_template {D}.
Arguments resume_data {D}.
Arguments arg_format {D}.

(** [request.params]: the tool name and the arguments, which the
    protocol lets a client leave out. *)
Record CallToolRequest (D : Type) := {
  name : jsstring;
  arguments : option (ToolArgs D);
}.
Arguments name {D}.
Arguments arguments {D}.

(** The result [{content: [{type: 'text', text}], isError}]; an absent
    [isError] is [false]. *)
Record ToolResult := {
  text : jsstring;
  isError : bool;
}.

Definition textResult (t : jsstring) : ToolResult := {| text := t; isError := false |}.

(** The marker put before an encoded PDF. *)
Definition pdfMarker : jsstring := lit "PDF_BASE64:".

Section Adapter.
Context {D J : Type} `{Host J} `{CaseMapping}.

(** [args.prop] where [args] may be [undefined]: reading a property of
    [undefined] throws a [TypeError]. *)
Definition argsOf (args : option (ToolArgs D)) (prop : string) : IO D (ToolArgs D) :=
  match args with
  | Some a => io_ret a
  | None =>
      throw (lit "Cannot read properties of undefined (reading '" ++ lit prop ++ lit "')")
  end.

Definition post (base : jsstring) (path : string) (b : RequestBody D) : HttpRequest D :=
  {| req_url := base ++ lit path; req_method := POST; req_body := b |}.

(** The [switch] inside the [try] of the [CallToolRequestSchema]
    handler; [base] is [FASTAPI_BASE_URL]. *)
Definition toolSwitch (base : jsstring) (request : CallToolRequest D) : IO D ToolResult :=
  let args := arguments request in
  if bool_decide (name request = lit "list_templates") then
    res ← fetch {| req_url := base ++ lit "/templates"; req_method := GET;
                   req_body := NoBody |};
    data ← resJson res;
    io_ret (textResult (jsonPretty data))
  else if bool_decide (name request = lit "extract_resume_data") then
    a ← argsOf args "file_path";
    match file_path a with
    | Some (c :: r) =>
        let filePath := c :: r in
        present ← fileExists filePath;
        if negb present then throw (lit "file not found: " ++ filePath)
        else
          res ← fetch (post base "/upload_resume" (FileBody filePath));
          data ← resJson res;
          io_ret (textResult (jsonPretty data))
    | _ => throw (lit "file_path is required")
    end
  else if bool_decide (name request = lit "generate_resume_html") then
    a ← argsOf args "template";
    let template := orLit (arg_template a) (lit "billryan_basic.tex") in
    match resume_data a with
    | None => throw (lit "resume_data is required")
    | Some resumeData =>
        res ← fetch (post base "/generate_resume"
                       (GenerateBody template resumeData (lit "html")));
        html ← resText res;
        io_ret (textResult html)
    end
  else if bool_decide (name request = lit "generate_resume") then
    a ← argsOf args "template";
    let template := orLit (arg_template a) (lit "billryan_basic.tex") in
    let format := toLowerCase (orLit (arg_format a) (lit "html")) in
    match resume_data a with
    | None => throw (lit "resume_data is required")
    | Some resumeData =>
        res ← fetch (post base "/generate_resume"
                       (GenerateBody template resumeData format));
        if bool_decide (format = lit "pdf") then
          buf ← resBytes res;
          io_ret (textResult (pdfMarker ++ Base64.encode buf))
        else
          html ← resText res;
          io_ret (textResult html)
    end
  else throw (lit "Unknown tool: " ++ name request).

(** The handler: the [switch] inside [try], and the [catch] that
    turns the error into a result. *)
Definition callTool (base : jsstring) (request : CallToolRequest D) : IO D ToolResult :=
  tryCatch (toolSwitch base request)
    (λ message, io_ret {| text := lit "Error: " ++ message; isError := true |}).

End Adapter.

(** ** The backend address and the catalog calls ([lib/api.ts]) *)

(** What [import.meta.env] holds for the client: the configured
    address, possibly absent, and the development flag. *)
Record Env := {
  VITE_BACKEND_URL : option jsstring;
  DEV : bool;
}.

Definition developmentUrl : jsstring := lit "http://localhost:8000".

Definition productionUrl : jsstring :=
  lit "https://optiresume-aidrivenresumeoptimizationandcare-production.up.railway.app".

(** [getBackendUrl]. *)
Definition getBackendUrl (env : Env) : jsstring :=
  match VITE_BACKEND_URL env with
  | Some (c :: r) => c :: r
  | _ => if DEV env then developmentUrl else productionUrl
  end.

(** [s.replace(/\/$/, "")]: the pattern has no [m] flag, so [$] is the
    end of the string, and a slash found there is removed. *)
Fixpoint dropFinalSlash (s : jsstring) : jsstring :=
  match s with
  | [] => []
  | c :: r =>
      match r with
      | [] => if c =? 47 then [] else [c]
      | _ => c :: dropFinalSlash r
      end
  end.

(** [getBackendBaseUrl]; [DEFAULT_BASE_URL] is [getBackendUrl()]. *)
Definition getBackendBaseUrl (env : Env) : jsstring :=
  dropFinalSlash (getBackendUrl env).

Section Catalog.
Context {D J : Type} `{Host J}.

(** [listTemplates]; [base] is [getBackendBaseUrl()]. *)
Definition listTemplates (base : jsstring) : IO D J :=
  res ← fetch {| req_url := endpoint base "/templates"; req_method := GET;
                  req_body := NoBody |};
  if negb (ok res) then
    text ← tryCatch (resText res) (λ _, io_ret []);
    throw (lit "Templates fetch failed (" ++ decimal (status res) ++ lit "): "
           ++ match text with [] => statusText res | _ => text end)
  else resJson res.

(** [exportPdf]. *)
Definition exportPdf (base : jsstring) : IO D (list Byte.byte) :=
  res ← fetch {| req_url := endpoint base "/export-pdf"; req_method := GET;
                  req_body := NoBody |};
  if negb (ok res) then
    text ← tryCatch (resText res) (λ _, io_ret []);
    throw (lit "Export failed (" ++ decimal (status res) ++ lit "): "
           ++ match text with [] => statusText res | _ => text end)
  else resBytes res.

End Catalog.

(** ** The editor of the page ([BuildCVPage.tsx]) *)

(** *** The skills field *)

(** [s.split(sep)] for a separator of one character; [cur] holds the
    piece being read, reversed. *)
Fixpoint splitOnFrom (sep : N) (cur : jsstring) (s : jsstring) : list jsstring :=
  match s with
  | [] => [rev cur]
  | c :: r =>
      if c =? sep then rev cur :: splitOnFrom sep [] r
      else splitOnFrom sep (c :: cur) r
  end.

Definition splitOn (sep : N) (s : jsstring) : list jsstring := splitOnFrom sep [] s.

(** The [names] of the [onChange] handler of the skills field:
    [e.target.value.split(",").map((s) => s.trim()).filter(Boolean)]. *)
Definition skillNames (value : jsstring) : list jsstring :=
  List.filter isNonEmpty (List.map trim (splitOn 44 value)).

(** [names.map((name) => ({ name, category: "technical", proficiency: "intermediate" }))].
    The objects are created without an [id]; the field of the record
    is a parameter here. *)
Definition typedSkills (id : jsstring) (names : list jsstring) : list SkillEntry :=
  List.map
    (λ name, SkillObj {| skill_id := id; skill_name := Some name;
                         skill_category := technical;
                         skill_proficiency := intermediate |})
    names.

(** The draft after [onChange]: [{...resumeData, skills: ...}]. *)
Definition typeSkills (id : jsstring) (resumeData : ResumeData) (value : jsstring)
    : ResumeData :=
  {| personalInfo := personalInfo resumeData;
     summary := summary resumeData;
     education := education resumeData;
     workExperience := workExperience resumeData;
     projects := projects resumeData;
     skills := Some (typedSkills id (skillNames value));
     certifications := certifications resumeData;
     template := template resumeData;
     aiEnhancement := aiEnhancement resumeData |}.

(** [s.name] as [join] prints it: an absent name, and the [name] of a
    bare string, print as the empty string. *)
Definition shownName (s : SkillEntry) : jsstring :=
  match s with
  | SkillObj o => default [] (skill_name o)
  | SkillStr _ => []
  end.

(** The [value] of the skills field:
    [(resumeData.skills || []).map((s) => s.name).join(", ")]. *)
Definition skillsValue (resumeData : ResumeData) : jsstring :=
  join (lit ", ") (List.map shownName (default [] (skills resumeData))).

(** *** The template of the draft *)

Definition withTemplate (resumeData : ResumeData) (t : option jsstring) : ResumeData :=
  {| personalInfo := personalInfo resumeData;
     summary := summary resumeData;
     education := education resumeData;
     workExperience := workExperience resumeData;
     projects := projects resumeData;
     skills := skills resumeData;
     certifications := certifications resumeData;
     template := t;
     aiEnhancement := aiEnhancement resumeData |}.

(** The effect that runs when [lastUsedTemplate] changes:
    [if (lastUsedTemplate && (!resumeData.template || resumeData.template === ""))
       setResumeData({ ...resumeData, template: lastUsedTemplate })]. *)
Definition restoreTemplate (resumeData : ResumeData) (lastUsedTemplate : option jsstring)
    : ResumeData :=
  if truthyStr lastUsedTemplate
     && (negb (truthyStr (template resumeData))
         || bool_decide (template resumeData = Some []))
  then withTemplate resumeData lastUsedTemplate
  else resumeData.

(** [onValueChange] of the template selector:
    [setLastUsedTemplate(val); setResumeData({ ...resumeData, template: val })].
    The result is the draft and the last-used template. *)
Definition selectTemplate (resumeData : ResumeData) (val : jsstring)
    : ResumeData * option jsstring :=
  (withTemplate resumeData (Some val), Some val).

(** *** Printing ([handlePrintHtml]) *)

(** What [handlePrintHtml] ends with: the print page written around
    [content] into a new window, nothing when no window was opened, or
    the [Print failed] toast. *)
Inductive Printed :=
| PrintPageWritten (content : jsstring)
| NoWindow
| PrintFailed (description : jsstring).

(** [String(res)] on what [generateResume] resolves to. *)
Definition stringOfGenerated (res : Generated) : jsstring :=
  match res with
  | GeneratedText t => t
  | GeneratedBlob _ => lit "[object Blob]"
  end.

Section HandlePrintHtml.
Context {J : Type} `{Host J}.

(** [handlePrintHtml]: [htmlPreview] is the preview held by the page,
    [windowOpens] tells whether [window.open] gives a window.  The
    result is what happened and the preview held afterwards. *)
Definition handlePrintHtml (base : jsstring) (resumeData : ResumeData)
    (lastUsedTemplate : option jsstring) (templates : list jsstring)
    (htmlPreview : jsstring) (windowOpens : bool)
    : IO ResumeData (Printed * jsstring) :=
  tryCatch
    (content ←
       match htmlPreview with
       | [] =>
           res ← generateResume base
                   {| gen_template :=
                        resolveTemplate (template resumeData) lastUsedTemplate templates;
                      gen_data := resumeData;
                      gen_format := html |};
           io_ret (stringOfGenerated res)
       | _ => io_ret htmlPreview
       end;
     if windowOpens then io_ret (PrintPageWritten content, content)
     else io_ret (NoWindow, content))
    (λ message, io_ret (PrintFailed message, htmlPreview)).

End HandlePrintHtml.

(** ** The tools the adapter advertises ([ListToolsRequestSchema] handler) *)






(** ** [enhanceResume] on the heap

    The draft handed to [enhanceResume] is an object that the caller
    holds; its [skills] and [workExperience] arrays and their elements
    are objects too.  The heap maps locations to these objects.  The
    other properties of a draft are never written, by nobody, and are
    kept by value. *)

Module Store.

Abbreviation loc := nat.

(** An element of a skills array: a reference to a skill object, or a
    string. *)
Inductive Slot :=
| SlotRef (l : loc)
| SlotStr (x : jsstring).

(** A [ResumeData] object. *)
Record Doc := {
  doc_personalInfo : PersonalInfo;
  doc_summary : option jsstring;
  doc_education : list Education;
  doc_workExperience : option loc;
  doc_projects : list Project;
  doc_skills : option loc;
  doc_certifications : list Certification;
  doc_template : option jsstring;
  doc_aiEnhancement : bool;
}.

Inductive Cell :=
| CDoc (d : Doc)
| CSkills (slots : list Slot)
| CSkill (o : Skill)
| CWorks (refs : list loc)
| CWork (w : WorkExperience).

Abbreviation Heap := (list Cell).

(** [clone.skills = v], [clone.workExperience = v], [clone.summary = v]. *)
Definition setSkills (v : option loc) (d : Doc) : Doc :=
  {| doc_personalInfo := doc_personalInfo d; doc_summary := doc_summary d;
     doc_education := doc_education d; doc_workExperience := doc_workExperience d;
     doc_projects := doc_projects d; doc_skills := v;
     doc_certifications := doc_certifications d; doc_template := doc_template d;
     doc_aiEnhancement := doc_aiEnhancement d |}.

Definition setWorkExperience (v : option loc) (d : Doc) : Doc :=
  {| doc_personalInfo := doc_personalInfo d; doc_summary := doc_summary d;
     doc_education := doc_education d; doc_workExperience := v;
     doc_projects := doc_projects d; doc_skills := doc_skills d;
     doc_certifications := doc_certifications d; doc_template := doc_template d;
     doc_aiEnhancement := doc_aiEnhancement d |}.

Definition setSummary (v : option jsstring) (d : Doc) : Doc :=
  {| doc_personalInfo := doc_personalInfo d; doc_summary := v;
     doc_education := doc_education d; doc_workExperience := doc_workExperience d;
     doc_projects := doc_projects d; doc_skills := doc_skills d;
     doc_certifications := doc_certifications d; doc_template := doc_template d;
     doc_aiEnhancement := doc_aiEnhancement d |}.

(** *** Reading *)

Definition lookupDoc (l : loc) (σ : Heap) : option Doc :=
  match σ !! l with
  | Some (CDoc d) => Some d
  | _ => None
  end.

Definition lookupSlots (l : loc) (σ : Heap) : option (list Slot) :=
  match σ !! l with
  | Some (CSkills slots) => Some slots
  | _ => None
  end.

Definition lookupRefs (l : loc) (σ : Heap) : option (list loc) :=
  match σ !! l with
  | Some (CWorks refs) => Some refs
  | _ => None
  end.

Definition lookupWork (σ : Heap) (l : loc) : option WorkExperience :=
  match σ !! l with
  | Some (CWork w) => Some w
  | _ => None
  end.

Definition lookupSkill (σ : Heap) (s : Slot) : option SkillEntry :=
  match s with
  | SlotStr x => Some (SkillStr x)
  | SlotRef l =>
      match σ !! l with
      | Some (CSkill o) => Some (SkillObj o)
      | _ => None
      end
  end.

Definition lookupSkills (l : loc) (σ : Heap) : option (list SkillEntry) :=
  slots ← lookupSlots l σ; mapM (lookupSkill σ) slots.

Definition lookupWorks (l : loc) (σ : Heap) : option (list WorkExperience) :=
  refs ← lookupRefs l σ; mapM (lookupWork σ) refs.

(** Reading an optional array property. *)
Definition lookupOpt {A} (read : loc → Heap → option A) (o : option loc) (σ : Heap)
    : option (option A) :=
  match o with
  | None => Some None
  | Some l => Some <$> read l σ
  end.

(** The value that the object at [l] holds, arrays and their elements
    included: what [JSON.stringify] writes down.  [None] when [l] is
    not a draft. *)
Definition snapshot (l : loc) (σ : Heap) : option ResumeData :=
  d ← lookupDoc l σ;
  sk ← lookupOpt lookupSkills (doc_skills d) σ;
  ws ← lookupOpt lookupWorks (doc_workExperience d) σ;
  Some {| personalInfo := doc_personalInfo d; summary := doc_summary d;
          education := doc_education d; workExperience := ws;
          projects := doc_projects d; skills := sk;
          certifications := doc_certifications d; template := doc_template d;
          aiEnhancement := doc_aiEnhancement d |}.

(** *** Operations on the heap

    An operation takes the heap and gives the heap back with its
    result, or fails when it reads a location that does not hold what
    it expects. *)

Definition Op (A : Type) : Type := Heap → option (Heap * A).

#[global] Instance op_mret : MRet Op := λ A a σ, Some (σ, a).
#[global] Instance op_mbind : MBind Op :=
  λ A B k m σ, match m σ with
               | Some (σ', a) => k a σ'
               | None => None
               end.

(** A read leaves the heap as it is. *)
Definition reading {A} (read : Heap → option A) : Op A :=
  λ σ, match read σ with
       | Some a => Some (σ, a)
       | None => None
       end.

(** A new object, at the first free location. *)
Definition alloc (c : Cell) : Op loc := λ σ, Some (σ ++ [c], length σ).

(** An assignment to a property of the draft at [l]. *)
Definition modifyDoc (l : loc) (f : Doc → Doc) : Op unit :=
  λ σ, match lookupDoc l σ with
       | Some d => Some (<[l := CDoc (f d)]> σ, tt)
       | None => None
       end.

(** [JSON.parse]: new objects for the draft, its arrays and their
    elements. *)
Fixpoint parseSlots (es : list SkillEntry) : Op (list Slot) :=
  match es with
  | [] => mret []
  | SkillObj o :: r => l ← alloc (CSkill o); ss ← parseSlots r; mret (SlotRef l :: ss)
  | SkillStr x :: r => ss ← parseSlots r; mret (SlotStr x :: ss)
  end.

Fixpoint parseWorks (ws : list WorkExperience) : Op (list loc) :=
  match ws with
  | [] => mret []
  | w :: r => l ← alloc (CWork w); ls ← parseWorks r; mret (l :: ls)
  end.

Definition parseOpt {A B} (parseAll : A → Op B) (wrap : B → Cell) (o : option A)
    : Op (option loc) :=
  match o with
  | None => mret None
  | Some a => b ← parseAll a; l ← alloc (wrap b); mret (Some l)
  end.

Definition parse (d : ResumeData) : Op loc :=
  sk ← parseOpt parseSlots CSkills (skills d);
  ws ← parseOpt parseWorks CWorks (workExperience d);
  alloc (CDoc {| doc_personalInfo := personalInfo d; doc_summary := summary d;
                 doc_education := education d; doc_workExperience := ws;
                 doc_projects := projects d; doc_skills := sk;
                 doc_certifications := certifications d;
                 doc_template := template d;
                 doc_aiEnhancement := aiEnhancement d |}).

Section Enhance.
Context `{CaseMapping}.

(** The key of an array element, read through the heap. *)
Definition slotKey (σ : Heap) (s : Slot) : jsstring :=
  match lookupSkill σ s with
  | Some e => skillKey e
  | None => []
  end.

(** [clone.workExperience.map((w) => ({...w, description: ...}))]:
    a new object for each element. *)
Fixpoint bulletizeAll (refs : list loc) : Op (list loc) :=
  match refs with
  | [] => mret []
  | r :: rest =>
      w ← reading (λ σ, lookupWork σ r);
      l ← alloc (CWork (bulletize w));
      ls ← bulletizeAll rest;
      mret (l :: ls)
  end.

(** [if (Array.isArray(clone.skills)) clone.skills = clone.skills.filter(...)]. *)
Definition dedupeStep (clone : loc) : Op unit :=
  doc ← reading (lookupDoc clone);
  match doc_skills doc with
  | Some a =>
      slots ← reading (lookupSlots a);
      kept ← reading (λ σ, Some (filterUnseen (slotKey σ) ∅ slots));
      a' ← alloc (CSkills kept);
      modifyDoc clone (setSkills (Some a'))
  | None => mret tt
  end.

(** [if (Array.isArray(clone.workExperience)) clone.workExperience = ...map(...)]. *)
Definition bulletizeStep (clone : loc) : Op unit :=
  doc ← reading (lookupDoc clone);
  match doc_workExperience doc with
  | Some b =>
      refs ← reading (lookupRefs b);
      refs' ← bulletizeAll refs;
      b' ← alloc (CWorks refs');
      modifyDoc clone (setWorkExperience (Some b'))
  | None => mret tt
  end.

(** [clone.workExperience?.[0]?.title || "Engineer"]. *)
Definition readRoleGuess (doc : Doc) : Op jsstring :=
  match doc_workExperience doc with
  | Some b =>
      refs ← reading (lookupRefs b);
      match refs with
      | r :: _ =>
          w ← reading (λ σ, lookupWork σ r);
          mret (orLit (work_title w) (lit "Engineer"))
      | [] => mret (lit "Engineer")
      end
  | None => mret (lit "Engineer")
  end.

(** The computation and the assignment of [clone.summary]. *)
Definition summaryStep (clone : loc) : Op unit :=
  doc ← reading (lookupDoc clone);
  sk ← reading (lookupOpt lookupSkills (doc_skills doc));
  roleGuess ← readRoleGuess doc;
  let topSkills := topSkillsOf sk in
  let synthesized := synthesizedOf roleGuess topSkills in
  modifyDoc clone
    (setSummary (Some (tidySummary (orLit (doc_summary doc) synthesized)))).

(** [enhanceResume(data)], where [data] is the location of the draft;
    the result is the location of the clone. *)
Definition enhanceResume (data : loc) : Op loc :=
  d ← reading (snapshot data);
  clone ← parse d;
  _ ← dedupeStep clone;
  _ ← bulletizeStep clone;
  _ ← summaryStep clone;
  mret clone.

End Enhance.

(** *** Vocabulary of the properties *)

(** Every location below [n] holds in [σ'] what it holds in [σ]. *)
Definition agree (n : nat) (σ σ' : Heap) : Prop :=
  ∀ l, (l < n)%nat → σ' !! l = σ !! l.

(** Every object of [σ] other than a draft is in [σ'] as it is in [σ]. *)
Definition keeps (σ σ' : Heap) : Prop :=
  ∀ l c, σ !! l = Some c → (∀ d, c ≠ CDoc d) → σ' !! l = Some c.

Definition slotRefs (slots : list Slot) : list loc :=
  omap (λ s, match s with SlotRef l => Some l | SlotStr _ => None end) slots.

(** The locations of the objects that make up the draft at [l]: the
    draft, its arrays and their elements. *)
Definition reachable (l : loc) (σ : Heap) : list loc :=
  l :: match lookupDoc l σ with
       | Some d =>
           match doc_skills d with
           | Some a => a :: slotRefs (default [] (lookupSlots a σ))
           | None => []
           end
           ++ match doc_workExperience d with
              | Some b => b :: default [] (lookupRefs b σ)
              | None => []
              end
       | None => []
       end.

(** The array at [o] holds the entries [sk], and it and its elements
    lie at or above [n]. *)
Definition skillsAt (n : nat) (σ : Heap) (o : option loc)
    (sk : option (list SkillEntry)) : Prop :=
  match o, sk with
  | Some a, Some es =>
      ∃ slots, σ !! a = Some (CSkills slots)
               ∧ Forall2 (λ s e, lookupSkill σ s = Some e) slots es
               ∧ (n ≤ a)%nat ∧ Forall (le n) (slotRefs slots)
  | None, None => True
  | _, _ => False
  end.

Definition worksAt (n : nat) (σ : Heap) (o : option loc)
    (ws : option (list WorkExperience)) : Prop :=
  match o, ws with
  | Some b, Some l =>
      ∃ refs, σ !! b = Some (CWorks refs)
              ∧ Forall2 (λ r w, lookupWork σ r = Some w) refs l
              ∧ (n ≤ b)%nat ∧ Forall (le n) refs
  | None, None => True
  | _, _ => False
  end.

(** The draft at [c] is the object [doc], whose arrays hold [sk] and
    [ws]; all of it lies at or above [n]. *)
Definition draftAt (n : nat) (c : loc) (σ : Heap) (doc : Doc)
    (sk : option (list SkillEntry)) (ws : option (list WorkExperience)) : Prop :=
  σ !! c = Some (CDoc doc) ∧ (n ≤ c)%nat
  ∧ skillsAt n σ (doc_skills doc) sk
  ∧ worksAt n σ (doc_workExperience doc) ws.

(** The value of a draft object whose arrays hold [sk] and [ws]. *)
Definition valueOf (doc : Doc) (sk : option (list SkillEntry))
    (ws : option (list WorkExperience)) : ResumeData :=
  {| personalInfo := doc_personalInfo doc; summary := doc_summary doc;
     education := doc_education doc; workExperience := ws;
     projects := doc_projects doc; skills := sk;
     certifications := doc_certifications doc; template := doc_template doc;
     aiEnhancement := doc_aiEnhancement doc |}.

End Store.

(** ** Sample data for the examples *)

Definition mkSkill (name : string) : SkillEntry :=
  SkillObj {| skill_id := lit "s"; skill_name := Some (lit name);
              skill_category := technical; skill_proficiency := intermediate |}.

Definition emptyPersonalInfo : PersonalInfo :=
  {| pi_name := []; pi_email := []; pi_phone := []; pi_location := [];
     pi_linkedin := None; pi_github := None; pi_website := None |}.

(** A draft with the given skills, no summary and no work experience. *)
Definition draftWithSkills (sk : list SkillEntry) : ResumeData :=
  {| personalInfo := emptyPersonalInfo; summary := Some [];
     education := []; workExperience := Some []; projects := [];
     skills := Some sk; certifications := []; template := Some [];
     aiEnhancement := true |}.

(** [React ], [react], [REACT] and [Go]. *)
Definition reactVariants : list SkillEntry :=
  [mkSkill "React "; mkSkill "react"; mkSkill "REACT"; mkSkill "Go"].

(** Two skills whose names are white space only, and differ only by
    white space. *)
Definition blankVariants : list SkillEntry := [mkSkill " "; mkSkill "  "].

(** A skill object whose name is the empty string. *)
Definition namelessSkill : SkillEntry := mkSkill "".

(** The bytes of an ASCII text. *)
Definition bytesOf (s : string) : list Byte.byte :=
  List.map byte_of_ascii (list_ascii_of_string s).

(** A world in which no path exists and the network answers every
    request with the given response. *)
Definition answering {D} (res : Response) : World D :=
  {| net := λ _, inr res; existsSync := λ _, false |}.

Definition pdfResponse : Response :=
  {| status := 200; statusText := lit "OK"; body := Some (bytesOf "%PDF") |}.

Definition serverError : Response :=
  {| status := 500; statusText := lit "Internal Server Error";
     body := Some (bytesOf "render failed") |}.

Definition toolCall {D} (tool : string) (a : ToolArgs D) : CallToolRequest D :=
  {| name := lit tool; arguments := Some a |}.

Definition generateArgs (format : option jsstring) : ToolArgs unit :=
  {| file_path := None; arg_template := None; resume_data := Some tt;
     arg_format := format |}.

Definition pathArgs (path : string) : ToolArgs unit :=
  {| file_path := Some (lit path); arg_template := None; resume_data := None;
     arg_format := None |}.

(** A draft with a work entry, and the heap that holds it alone. *)
Definition sampleWork : WorkExperience :=
  {| work_id := lit "w1"; work_title := Some (lit "Developer");
     work_company := lit "Acme"; work_location := []; work_startDate := [];
     work_endDate := []; work_current := true;
     work_description := Some (lit "led the team - built tools");
     work_achievements := None |}.

Definition sampleDraft : ResumeData :=
  {| personalInfo := emptyPersonalInfo; summary := None; education := [];
     workExperience := Some [sampleWork]; projects := [];
     skills := Some (reactVariants ++ [SkillStr (lit "go")]);
     certifications := []; template := None; aiEnhancement := true |}.

Definition sampleHeap : Store.Heap :=
  match Store.parse sampleDraft [] with
  | Some (σ, _) => σ
  | None => []
  end.

(** Where the draft of [sampleHeap] is. *)
Definition sampleLoc : Store.loc := 7%nat.

(** A description of 221 letters [a], without a separator. *)
Definition longLine : jsstring := replicate 221 97.

(** A client configured with an address that ends in a slash. *)
Definition configuredEnv : Env :=
  {| VITE_BACKEND_URL := Some (lit "https://api.example.com/"); DEV := false |}.

(** A response with status 503 and an empty body. *)
Definition unavailable : Response :=
  {| status := 503; statusText := lit "Service Unavailable"; body := Some [] |}.

(** A draft whose summary is three spaces. *)
Definition blankSummaryDraft : ResumeData :=
  {| personalInfo := emptyPersonalInfo; summary := Some (lit "   ");
     education := []; workExperience := None; projects := [];
     skills := Some [mkSkill "Go"]; certifications := []; template := None;
     aiEnhancement := true |}.

(** A response with status 200 and the text [<p>cv</p>]. *)
Definition pageResponse : Response :=
  {| status := 200; statusText := lit "OK"; body := Some (bytesOf "<p>cv</p>") |}.

(** A response with status 503 whose body is the JSON text [[]]. *)
Definition refusal : Response :=
  {| status := 503; statusText := lit "Service Unavailable";
     body := Some (bytesOf "[]") |}.

(** A world in which every path exists and the network answers every
    request with [refusal]. *)
Definition refusing : World unit :=
  {| net := λ _, inr refusal; existsSync := λ _, true |}.

(** ** Vocabulary of the further properties *)

(** White space as [s.replace(/\s+/g, " ")] leaves it: every
    white-space character is a space, and none comes right after
    another; [afterSpace] tells that the character before was one. *)
Fixpoint spacedOnce (afterSpace : bool) (s : jsstring) : bool :=
  match s with
  | [] => true
  | c :: r =>
      if isWhiteSpace c then (c =? 32) && negb afterSpace && spacedOnce true r
      else spacedOnce false r
  end.

(** * Properties *)

From Stdlib Require Import ZifyBool ZifyN.

(** Case analysis on every conditional of the goal, then arithmetic:
    settles the facts about character classes. *)
Ltac char_cases :=
  repeat match goal with
         | |- context [if ?b then _ else _] => destruct b eqn:?
         end;
  try lia.

(** ** A case mapping to run the model

    The mapping that changes ASCII letters only.  It agrees with the
    host on every string of ASCII characters, which is what the examples
    below are made of. *)

Lemma asciiUpper_single c : c < 128 → List.map asciiUpper [c] = [asciiUpper c].
Proof. reflexivity. Qed.

Definition asciiCase : CaseMapping :=
  {| toUpperCase := List.map asciiUpper;
     toLowerCase := List.map asciiLower;
     toUpperCase_ascii := asciiUpper_single;
     toLowerCase_ascii := λ s _, eq_refl |}.

(** A host to run the model: it decodes a body byte by byte, which is
    what UTF-8 decoding does on ASCII, and takes the body itself for
    its JSON value. *)
Definition bytesAsText (bs : list Byte.byte) : jsstring := List.map Byte.to_N bs.

Definition asciiHost : Host (list Byte.byte) :=
  {| utf8Decode := bytesAsText;
     jsonParse := λ bs, inr bs;
     jsonPretty := bytesAsText |}.

(** ** Bullet normalization *)

Section StringFacts.

Lemma dropWhileEnd_app_keep (p : N → bool) (pre rest : jsstring) :
  pre ≠ [] → Forall (λ c, p c = false) pre →
  dropWhileEnd p (pre ++ rest) = pre ++ dropWhileEnd p rest.
Proof.
  induction pre as [|c pre IH]; [done|].
  intros _ Hall. apply Forall_cons in Hall as [Hc Hpre].
  destruct pre as [|c' pre'].
  - simpl. destruct (dropWhileEnd p rest); [by rewrite Hc | done].
  - specialize (IH ltac:(done) Hpre).
    change (dropWhileEnd p ((c :: c' :: pre') ++ rest))
      with (match dropWhileEnd p ((c' :: pre') ++ rest) with
            | [] => if p c then [] else [c]
            | r' => c :: r'
            end).
    rewrite IH. done.
Qed.

Lemma dropWhileEnd_head (p : N → bool) (c : N) (r : jsstring) :
  dropWhileEnd p (c :: r) = [] ∨ ∃ r', dropWhileEnd p (c :: r) = c :: r'.
Proof.
  simpl. destruct (dropWhileEnd p r); [destruct (p c)|]; eauto.
Qed.

Lemma compactFrom_spaces (b : bool) (s : jsstring) :
  Forall (λ c, isWhiteSpace c = true → c = 32) (compactFrom b s).
Proof.
  revert b. induction s as [|c r IH]; intros b; simpl; [constructor|].
  destruct (isWhiteSpace c) eqn:Hc.
  - destruct b; [apply IH|]. constructor; [done | apply IH].
  - constructor; [congruence | apply IH].
Qed.

Lemma compactWhitespace_no_newline (s : jsstring) : 10 ∉ compactWhitespace s.
Proof.
  intros Hin. pose proof (compactFrom_spaces false s) as Hall.
  rewrite Forall_forall in Hall. specialize (Hall 10 Hin). by specialize (Hall eq_refl).
Qed.

Lemma clip_length (t : jsstring) : (length (clip t) ≤ 223)%nat.
Proof.
  unfold clip, slice0. destruct (220 <? length t)%nat eqn:Hlt.
  - rewrite length_app, length_take. change (length truncationMarker) with 3%nat. lia.
  - apply Nat.ltb_ge in Hlt. lia.
Qed.

Lemma clip_cases (t : jsstring) :
  (length t ≤ 220)%nat ∧ clip t = t
  ∨ (220 < length t)%nat ∧ clip t = take 220 t ++ truncationMarker
    ∧ length (clip t) = 223%nat.
Proof.
  unfold clip, slice0. destruct (220 <? length t)%nat eqn:Hlt.
  - apply Nat.ltb_lt in Hlt. right. repeat split; [done|].
    rewrite length_app, length_take. change (length truncationMarker) with 3%nat. lia.
  - apply Nat.ltb_ge in Hlt. by left.
Qed.

Lemma clip_no_newline (t : jsstring) : 10 ∉ t → 10 ∉ clip t.
Proof.
  intros Ht. unfold clip, slice0. destruct (220 <? length t)%nat; [|done].
  rewrite elem_of_app. intros [Hin | Hin].
  - apply Ht. by apply (subseteq_take 220 t).
  - unfold truncationMarker in Hin.
    repeat (apply elem_of_cons in Hin as [Hin | Hin]; [done|]).
    by apply elem_of_nil in Hin.
Qed.

Lemma lineBreaks_app (s t : jsstring) : lineBreaks (s ++ t) = (lineBreaks s + lineBreaks t)%nat.
Proof. unfold lineBreaks. by rewrite List.filter_app, length_app. Qed.

Lemma lineBreaks_none (s : jsstring) : 10 ∉ s → lineBreaks s = 0%nat.
Proof.
  unfold lineBreaks. induction s as [|c r IH]; [done|].
  intros Hnin. apply not_elem_of_cons in Hnin as [Hc Hr].
  change (List.filter (N.eqb 10) (c :: r))
    with (if 10 =? c then c :: List.filter (N.eqb 10) r else List.filter (N.eqb 10) r).
  destruct (10 =? c) eqn:E; [apply N.eqb_eq in E; congruence | by apply IH].
Qed.

Lemma lineBreaks_join (xs : list jsstring) :
  Forall (λ l, 10 ∉ l) xs → lineBreaks (join [10] xs) = pred (length xs).
Proof.
  induction xs as [|x r IH]; [done|].
  intros Hall. apply Forall_cons in Hall as [Hx Hr].
  destruct r as [|y r'].
  - simpl. by apply lineBreaks_none.
  - change (join [10] (x :: y :: r')) with (x ++ [10] ++ join [10] (y :: r')).
    rewrite !lineBreaks_app, (lineBreaks_none x Hx), (IH Hr). done.
Qed.

Lemma Forall_imap_intro {A B} (P : B → Prop) (f : nat → A → B) (l : list A) :
  (∀ i x, P (f i x)) → Forall P (imap f l).
Proof.
  intros Hf. apply Forall_lookup. intros i y Hy.
  rewrite list_lookup_imap in Hy.
  destruct (l !! i); simplify_eq/=. apply Hf.
Qed.

End StringFacts.

(** A verb recognised at the head of a line survives capitalization
    and the removal of trailing punctuation. *)
Section VerbFacts.
Context `{CaseMapping}.

Lemma strongVerbs_letters :
  Forall (λ v, v ≠ [] ∧ Forall (λ c, isAsciiLetter c = true) v) strongVerbs.
Proof. repeat constructor; done. Qed.

Lemma letter_match_ascii (c p : N) :
  isAsciiLetter p = true → (asciiUpper c =? asciiUpper p) = true →
  c < 128 ∧ isTrailingJunk c = false ∧ asciiUpper (asciiUpper c) = asciiUpper c.
Proof.
  unfold isAsciiLetter, asciiUpper, isTrailingJunk, isWhiteSpace.
  char_cases.
Qed.

Lemma matchPrefixCI_split (v t rest : jsstring) :
  Forall (λ c, isAsciiLetter c = true) v →
  matchPrefixCI v t = Some rest →
  ∃ pre, t = pre ++ rest ∧ length pre = length v
         ∧ Forall (λ c, isTrailingJunk c = false) pre
         ∧ ∀ rest', matchPrefixCI v (pre ++ rest') = Some rest'.
Proof.
  revert t. induction v as [|p v IH]; intros t Hv Hm.
  - simpl in Hm. simplify_eq. exists []. repeat split. constructor.
  - apply Forall_cons in Hv as [Hp Hv].
    destruct t as [|c t]; [done|]. simpl in Hm.
    destruct (asciiUpper c =? asciiUpper p) eqn:Hc; [|done].
    destruct (IH t Hv Hm) as (pre & -> & Hlen & Hjunk & Hre).
    destruct (letter_match_ascii c p Hp Hc) as (_ & Hcj & _).
    exists (c :: pre). repeat split.
    + simpl. by rewrite Hlen.
    + by constructor.
    + intros rest'. simpl. rewrite Hc. apply Hre.
Qed.

Lemma matchPrefixCI_capitalize (v x rest : jsstring) :
  v ≠ [] → Forall (λ c, isAsciiLetter c = true) v →
  matchPrefixCI v x = Some rest → matchPrefixCI v (capitalize x) = Some rest.
Proof.
  intros Hne Hv Hm. destruct v as [|p v]; [done|].
  apply Forall_cons in Hv as [Hp _].
  destruct x as [|c x]; [done|]. simpl in Hm.
  destruct (asciiUpper c =? asciiUpper p) eqn:Hc; [|done].
  destruct (letter_match_ascii c p Hp Hc) as (Hlt & _ & Hidem).
  unfold capitalize. simpl. rewrite (toUpperCase_ascii c Hlt). simpl.
  rewrite Hidem, Hc. rewrite drop_0. done.
Qed.

Lemma atWordBoundary_stripTrailing (rest : jsstring) :
  atWordBoundary rest = true → atWordBoundary (dropWhileEnd isTrailingJunk rest) = true.
Proof.
  destruct rest as [|c r]; [done|]. intros Hb.
  destruct (dropWhileEnd_head isTrailingJunk c r) as [-> | [r' ->]]; done.
Qed.

Lemma hasVerb_preserved (x : jsstring) :
  hasVerb x = true → hasVerb (stripTrailing (capitalize x)) = true.
Proof.
  unfold hasVerb. rewrite !existsb_exists.
  intros (v & Hin & Hm). exists v. split; [done|].
  pose proof strongVerbs_letters as Hall. rewrite Forall_forall in Hall.
  destruct (Hall v (proj2 (list_elem_of_In _ _) Hin)) as [Hne Hv].
  destruct (matchPrefixCI v x) as [rest|] eqn:Hx; [|done].
  apply (matchPrefixCI_capitalize v x rest Hne Hv) in Hx.
  destruct (matchPrefixCI_split v _ rest Hv Hx) as (pre & Heq & Hlen & Hjunk & Hre).
  unfold stripTrailing. rewrite Heq.
  rewrite dropWhileEnd_app_keep; [| |done].
  - rewrite Hre. by apply atWordBoundary_stripTrailing.
  - intros ->. destruct v; done.
Qed.

Lemma matchPrefixCI_self (v rest : jsstring) : matchPrefixCI v (v ++ rest) = Some rest.
Proof. induction v as [|c v IH]; [done|]. simpl. by rewrite N.eqb_refl. Qed.

(** A line made of a verb of the list, then nothing or a character
    that is not a word character, is recognised. *)
Lemma hasVerb_intro (v rest : jsstring) :
  v ∈ strongVerbs → atWordBoundary rest = true → hasVerb (v ++ rest) = true.
Proof.
  intros Hv Hb. unfold hasVerb. apply existsb_exists. exists v.
  split; [by apply list_elem_of_In|]. by rewrite matchPrefixCI_self.
Qed.

Lemma bullet_no_newline (i : nat) (x : jsstring) : 10 ∉ bullet i x.
Proof. unfold bullet. apply clip_no_newline, compactWhitespace_no_newline. Qed.

Lemma bullet_length (i : nat) (x : jsstring) : (length (bullet i x) ≤ 223)%nat.
Proof. unfold bullet. apply clip_length. Qed.

Lemma bullet_with_verb (i : nat) (x : jsstring) :
  hasVerb x = true →
  bullet i x = clip (compactWhitespace (stripTrailing (capitalize x))).
Proof. intros Hx. unfold bullet. by rewrite (hasVerb_preserved x Hx). Qed.

End VerbFacts.

Section BulletClaim.
Context `{CaseMapping}.

(** Claim C1, as amended.  For every description [text], with [out] the
    lines that [normalizeBullets] joins by a line break:
    at most 6 lines are emitted (the result holds at most 5 line breaks
    and no emitted line holds one);
    an emitted line has at most 220 characters, or is made of 220
    characters followed by the 3-character truncation marker, 223 in
    all;
    a candidate line on which the verb pattern matches (so every line
    made of a verb of the list followed by nothing or by a character
    that is not a word character) is emitted without a verb put in
    front of it;
    and the empty description gives the empty string. *)
Theorem normalizeBullets_shape (text : jsstring) :
  let out := take 6 (bullets text) in
  normalizeBullets text = join [10] out
  ∧ (length out ≤ 6)%nat
  ∧ (lineBreaks (normalizeBullets text) ≤ 5)%nat
  ∧ Forall (λ l, (10 ∉ l)
                 ∧ ((length l ≤ 220)%nat
                    ∨ ∃ p, length p = 220%nat ∧ l = p ++ truncationMarker)
                 ∧ (length l ≤ 223)%nat) out
  ∧ (∀ i x, candidateLines text !! i = Some x → (i < 6)%nat →
            hasVerb x = true →
            out !! i = Some (clip (compactWhitespace (stripTrailing (capitalize x)))))
  ∧ (∀ v rest, v ∈ strongVerbs → atWordBoundary rest = true →
               hasVerb (v ++ rest) = true)
  ∧ normalizeBullets [] = [].
Proof.
  intros out.
  assert (Hno : Forall (λ l : jsstring, 10 ∉ l) out).
  { apply Forall_take, Forall_imap_intro. intros. apply bullet_no_newline. }
  split; [done|].
  split; [subst out; rewrite length_take; lia|].
  split.
  { unfold normalizeBullets. fold out. rewrite (lineBreaks_join out Hno).
    subst out. rewrite length_take. lia. }
  split.
  { apply Forall_take, Forall_imap_intro. intros i x.
    split; [apply bullet_no_newline|]. split; [|apply bullet_length].
    unfold bullet.
    match goal with |- context [clip ?t] => destruct (clip_cases t) as [[Hle ->] | (Hlt & -> & _)] end.
    - by left.
    - right. eexists. split; [|done]. rewrite length_take. lia. }
  split; [|split; [apply hasVerb_intro | done]].
  intros i x Hx Hi Hverb. subst out.
  rewrite lookup_take_lt by done. unfold bullets.
  rewrite list_lookup_imap, Hx. simpl. by rewrite (bullet_with_verb i x Hverb).
Qed.

End BulletClaim.

(** The description [led the team], whose only line starts with a
    recognised verb, is emitted as [Led the team]. *)
Lemma normalizeBullets_shape_witness :
  take 6 (@bullets asciiCase (lit "led the team")) !! 0%nat
  = Some (lit "Led the team").
Proof.
  destruct (@normalizeBullets_shape asciiCase (lit "led the team"))
    as (_ & _ & _ & _ & Hverb & _ & _).
  apply (Hverb 0%nat (lit "led the team")).
  - reflexivity.
  - repeat constructor.
  - reflexivity.
Defined.

(** Claim C1 as stated fails: a description of 221 letters is one
    line, and the line emitted for it has 223 characters. *)
Lemma normalizeBullets_line_of_223 :
  lineBreaks (@normalizeBullets asciiCase longLine) = 0%nat
  ∧ length (@normalizeBullets asciiCase longLine) = 223%nat
  ∧ ¬ (length (@normalizeBullets asciiCase longLine) ≤ 220)%nat.
Proof. vm_compute. repeat split. lia. Qed.

(** ** Skill dedup *)

Section FilterUnseen.
Context {A : Type} (key : A → jsstring).

Lemma filterUnseen_sublist (seen : gset jsstring) (l : list A) :
  filterUnseen key seen l `sublist_of` l.
Proof.
  revert seen. induction l as [|s r IH]; intros seen; simpl; [done|].
  destruct (_ || _); [apply sublist_cons | apply sublist_skip]; apply IH.
Qed.

Lemma filterUnseen_keys (seen : gset jsstring) (l : list A) :
  Forall (λ a, key a ≠ [] ∧ (key a ∉ seen)) (filterUnseen key seen l)
  ∧ NoDup (key <$> filterUnseen key seen l).
Proof.
  revert seen. induction l as [|s r IH]; intros seen; simpl.
  - split; constructor.
  - destruct (bool_decide (key s = [])) eqn:He; simpl; [apply IH|].
    destruct (bool_decide (key s ∈ seen)) eqn:Hs; simpl; [apply IH|].
    apply bool_decide_eq_false in He, Hs.
    destruct (IH ({[ key s ]} ∪ seen)) as [Hall Hnd].
    split.
    + constructor; [done|].
      eapply Forall_impl; [exact Hall|]. intros a [Ha Hn]. split; [done|].
      intros Hin. apply Hn, elem_of_union. by right.
    + rewrite ?fmap_cons. constructor; [|done].
      rewrite list_elem_of_fmap. intros (a & Heq & Hin).
      rewrite Forall_forall in Hall. destruct (Hall a Hin) as [_ Hn].
      apply Hn, elem_of_union. left. by apply elem_of_singleton.
Qed.

Lemma filterUnseen_fixed (seen : gset jsstring) (l : list A) :
  Forall (λ a, key a ≠ [] ∧ (key a ∉ seen)) l → NoDup (key <$> l) →
  filterUnseen key seen l = l.
Proof.
  revert seen. induction l as [|s r IH]; intros seen Hall Hnd; [done|].
  apply Forall_cons in Hall as [[Hne Hns] Hall].
  rewrite fmap_cons in Hnd. apply NoDup_cons in Hnd as [Hnin Hnd].
  simpl. rewrite (bool_decide_eq_false_2 _ Hne), (bool_decide_eq_false_2 _ Hns).
  simpl. f_equal. apply IH; [|done].
  rewrite Forall_forall in Hall |- *. intros a Ha.
  destruct (Hall a Ha) as [Hane Hans]. split; [done|].
  rewrite elem_of_union, elem_of_singleton. intros [Heq | Hin]; [|done].
  apply Hnin. rewrite <- Heq. apply list_elem_of_fmap. eauto.
Qed.

Lemma filterUnseen_idempotent (seen : gset jsstring) (l : list A) :
  filterUnseen key seen (filterUnseen key seen l) = filterUnseen key seen l.
Proof.
  destruct (filterUnseen_keys seen l). by apply filterUnseen_fixed.
Qed.

Lemma elem_of_seenAfter (seen : gset jsstring) (l : list A) (n : jsstring) :
  n ∈ seenAfter key seen l ↔ n ∈ seen ∨ (n ≠ [] ∧ n ∈ (key <$> l)).
Proof.
  revert seen. induction l as [|s r IH]; intros seen; simpl.
  - rewrite elem_of_nil. tauto.
  - rewrite elem_of_cons.
    destruct (bool_decide (key s = [])) eqn:He; simpl.
    { apply bool_decide_eq_true in He. rewrite IH. split; [tauto|].
      intros [?|[Hn [Heq|?]]]; [tauto| |tauto]. congruence. }
    apply bool_decide_eq_false in He.
    destruct (bool_decide (key s ∈ seen)) eqn:Hs; simpl.
    { apply bool_decide_eq_true in Hs. rewrite IH. split; [tauto|].
      intros [?|[Hn [Heq|?]]]; [tauto| |tauto]. left. by rewrite Heq. }
    rewrite IH, elem_of_union, elem_of_singleton. split.
    + intros [[->|?]|[? ?]]; tauto.
    + intros [?|[Hn [->|?]]]; tauto.
Qed.

Lemma filterUnseen_app (seen : gset jsstring) (l1 l2 : list A) :
  filterUnseen key seen (l1 ++ l2)
  = filterUnseen key seen l1 ++ filterUnseen key (seenAfter key seen l1) l2.
Proof.
  revert seen. induction l1 as [|s r IH]; intros seen; simpl; [done|].
  destruct (_ || _); simpl; by rewrite IH.
Qed.

(** The first entry with a given non-empty key is kept, where it
    stands, and nothing else with that key is. *)
Lemma filterUnseen_first (seen : gset jsstring) (l1 l2 : list A) (a : A) :
  key a ≠ [] → key a ∉ seen → key a ∉ (key <$> l1) →
  ∃ r2, filterUnseen key seen (l1 ++ a :: l2) = filterUnseen key seen l1 ++ a :: r2
        ∧ Forall (λ b, key b ≠ key a) (filterUnseen key seen l1 ++ r2).
Proof.
  intros Hne Hns Hnl.
  assert (Hna : key a ∉ seenAfter key seen l1).
  { rewrite elem_of_seenAfter. tauto. }
  rewrite filterUnseen_app. simpl.
  rewrite (bool_decide_eq_false_2 _ Hne), (bool_decide_eq_false_2 _ Hna). simpl.
  eexists. split; [done|]. apply Forall_app. split.
  - apply Forall_forall. intros b Hb Heq. apply Hnl. rewrite <- Heq.
    apply list_elem_of_fmap. exists b. split; [done|].
    by apply (elem_of_sublist _ _ _ Hb (filterUnseen_sublist seen l1)).
  - destruct (filterUnseen_keys ({[ key a ]} ∪ seenAfter key seen l1) l2) as [Hall _].
    eapply Forall_impl; [exact Hall|]. intros b [_ Hb] Heq.
    apply Hb, elem_of_union. left. by apply elem_of_singleton.
Qed.

(** Every entry kept is the first one with its key. *)
Lemma filterUnseen_kept (seen : gset jsstring) (l : list A) (a : A) :
  a ∈ filterUnseen key seen l →
  ∃ l1 l2, l = l1 ++ a :: l2 ∧ key a ≠ [] ∧ (key a ∉ seen) ∧ (key a ∉ (key <$> l1)).
Proof.
  revert seen. induction l as [|s r IH]; intros seen; simpl.
  - by rewrite elem_of_nil.
  - destruct (bool_decide (key s = [])) eqn:He; simpl.
    { intros Hin. destruct (IH _ Hin) as (l1 & l2 & -> & Hne & Hns & Hnl).
      exists (s :: l1), l2. repeat split; try done.
      rewrite fmap_cons, elem_of_cons. intros [Heq|?]; [|done].
      apply bool_decide_eq_true in He. congruence. }
    destruct (bool_decide (key s ∈ seen)) eqn:Hs; simpl.
    { intros Hin. destruct (IH _ Hin) as (l1 & l2 & -> & Hne & Hns & Hnl).
      exists (s :: l1), l2. repeat split; try done.
      rewrite fmap_cons, elem_of_cons. intros [Heq|?]; [|done].
      apply bool_decide_eq_true in Hs. congruence. }
    apply bool_decide_eq_false in He, Hs.
    rewrite elem_of_cons. intros [-> | Hin].
    + exists [], r. repeat split; try done. rewrite fmap_nil. apply not_elem_of_nil.
    + destruct (IH _ Hin) as (l1 & l2 & -> & Hne & Hns & Hnl).
      exists (s :: l1), l2. repeat split; try done.
      * intros Hin'. apply Hns, elem_of_union. by right.
      * rewrite fmap_cons, elem_of_cons. intros [Heq|?]; [|done].
        apply Hns, elem_of_union. left. by apply elem_of_singleton.
Qed.

End FilterUnseen.

Section KeyFacts.
Context `{CaseMapping}.


Lemma skillKey_named (s : SkillEntry) : named s = true → skillKey s = specKey s.
Proof.
  unfold skillKey, specKey. destruct s as [o|x]; [|done]. simpl.
  by destruct (skill_name o) as [[|c r]|].
Qed.

(** An object without a usable name goes by the string form of the
    object itself. *)
Lemma skillKey_nameless (o : Skill) :
  truthyStr (skill_name o) = false → skillKey (SkillObj o) = lit "[object object]".
Proof.
  intros Hn. unfold skillKey.
  assert (nameOrSelf (SkillObj o) = AsObject o) as ->.
  { simpl. by destruct (skill_name o) as [[|c r]|]. }
  change (trim (toString (AsObject o))) with (lit "[object Object]").
  rewrite toLowerCase_ascii; [done|].
  repeat (constructor; [reflexivity|]). constructor.
Qed.


Lemma filterUnseen_ext {A} (k1 k2 : A → jsstring) (seen : gset jsstring) (l : list A) :
  Forall (λ a, k1 a = k2 a) l → filterUnseen k1 seen l = filterUnseen k2 seen l.
Proof.
  revert seen. induction l as [|s r IH]; intros seen Hall; [done|].
  apply Forall_cons in Hall as [Hs Hr]. simpl. rewrite Hs.
  destruct (_ || _); [|f_equal]; by apply IH.
Qed.

Lemma dedupeSkills_named (l : list SkillEntry) :
  Forall (λ s, named s = true) l → dedupeSkills l = filterUnseen specKey ∅ l.
Proof.
  intros Hall. apply filterUnseen_ext.
  eapply Forall_impl; [exact Hall|]. apply skillKey_named.
Qed.


(** Claim C3, as amended.  For every skills list, the dedup filter is
    idempotent and keeps a subsequence of the list (the relative order
    of what it keeps is that of the list).  When every entry has a
    name (an object with a non-empty [name], or a bare string), then
    with key = trim + lowercase of the name: no two kept entries have
    the same key; the first entry with a given non-empty key is kept,
    at its place, and no other kept entry has that key; and every kept
    entry is the first one with its key, which is not empty. *)
Theorem dedupeSkills_laws (l : list SkillEntry) :
  dedupeSkills (dedupeSkills l) = dedupeSkills l
  ∧ dedupeSkills l `sublist_of` l
  ∧ (Forall (λ s, named s = true) l →
     NoDup (specKey <$> dedupeSkills l)
     ∧ (∀ l1 a l2, l = l1 ++ a :: l2 → specKey a ≠ [] →
          specKey a ∉ (specKey <$> l1) →
          ∃ r2, dedupeSkills l = dedupeSkills l1 ++ a :: r2
                ∧ Forall (λ b, specKey b ≠ specKey a) (dedupeSkills l1 ++ r2))
     ∧ (∀ a, a ∈ dedupeSkills l →
          ∃ l1 l2, l = l1 ++ a :: l2 ∧ specKey a ≠ []
                   ∧ (specKey a ∉ (specKey <$> l1)))).
Proof.
  split; [apply filterUnseen_idempotent|].
  split; [apply filterUnseen_sublist|].
  intros Hnamed. rewrite (dedupeSkills_named l Hnamed).
  split; [apply filterUnseen_keys|]. split.
  - intros l1 a l2 -> Hne Hfirst.
    assert (Hl1 : Forall (λ s, named s = true) l1).
    { apply Forall_app in Hnamed. tauto. }
    rewrite (dedupeSkills_named l1 Hl1).
    apply filterUnseen_first; [done | apply not_elem_of_empty | done].
  - intros a Ha.
    destruct (filterUnseen_kept specKey ∅ l a Ha) as (l1 & l2 & ? & ? & _ & ?).
    by exists l1, l2.
Qed.

End KeyFacts.

(** On [React ], [react], [REACT], [Go], every entry has a name, and
    [Go] is the first entry with its key. *)
Lemma dedupeSkills_laws_witness :
  NoDup (@specKey asciiCase <$> @dedupeSkills asciiCase reactVariants)
  ∧ ∃ r2, @dedupeSkills asciiCase reactVariants
          = @dedupeSkills asciiCase (take 3 reactVariants) ++ mkSkill "Go" :: r2
          ∧ Forall (λ b, @specKey asciiCase b ≠ @specKey asciiCase (mkSkill "Go"))
              (@dedupeSkills asciiCase (take 3 reactVariants) ++ r2).
Proof.
  destruct (@dedupeSkills_laws asciiCase reactVariants) as (_ & _ & Hlaws).
  destruct Hlaws as (Hnd & Hfirst & _).
  { repeat constructor. }
  split; [exact Hnd|].
  apply (Hfirst (take 3 reactVariants) (mkSkill "Go") []).
  - reflexivity.
  - by vm_compute.
  - apply (bool_decide_unpack _). by vm_compute.
Defined.

(** The variants of one name collapse: of [React ], [react], [REACT]
    and [Go], the first and the last remain. *)
Example dedupeSkills_react :
  @dedupeSkills asciiCase reactVariants = [mkSkill "React "; mkSkill "Go"].
Proof. by vm_compute. Qed.

(** Claim C3 as stated fails: two entries whose names differ by
    surrounding white space only have the same key, and neither is
    kept, so they are not collapsed into the first of them. *)
Lemma dedupeSkills_blank_variants :
  @specKey asciiCase (mkSkill " ") = @specKey asciiCase (mkSkill "  ")
  ∧ @dedupeSkills asciiCase blankVariants = []
  ∧ ¬ (mkSkill " " ∈ @dedupeSkills asciiCase blankVariants).
Proof.
  split; [by vm_compute|]. split; [by vm_compute|].
  change (@dedupeSkills asciiCase blankVariants) with (@nil SkillEntry).
  apply not_elem_of_nil.
Qed.

(** Claim C10 at a skill object whose name is the empty string: it
    has no name, its key is [[object object]], and the filter keeps
    it. *)
Lemma dedupeSkills_keeps_nameless :
  entryName namelessSkill = []
  ∧ @skillKey asciiCase namelessSkill = lit "[object object]"
  ∧ @dedupeSkills asciiCase [namelessSkill] = [namelessSkill]
  ∧ skills (@enhanceResume asciiCase (draftWithSkills [namelessSkill]))
    = Some [namelessSkill].
Proof. repeat split; by vm_compute. Qed.

(** ** Summary synthesis *)

Section SummaryFacts.
Context `{CaseMapping}.


Lemma filter_all {A} (p : A → bool) (l : list A) :
  Forall (λ a, p a = true) l → List.filter p l = l.
Proof.
  induction 1 as [|a l Ha _ IH]; [done|]. simpl. by rewrite Ha, IH.
Qed.




Lemma tidySummary_length (x : jsstring) : (length (tidySummary x) ≤ 350)%nat.
Proof. unfold tidySummary, slice0. rewrite length_take. lia. Qed.



End SummaryFacts.



(** A draft without a summary whose only skill is an object with an
    empty name: the sentence names it [[object Object]]. *)
Example enhanceResume_summary_nameless :
  summary (@enhanceResume asciiCase (draftWithSkills [namelessSkill]))
  = Some (lit "Results-driven Engineer with strengths in [object Object]. Proven ability to automate workflows.").
Proof. by vm_compute. Qed.

(** ** Base64 round trip *)

(** Division and remainder by a constant, for [lia]. *)
Ltac Zify.zify_post_hook ::= Z.div_mod_to_equations.

Section Base64Facts.
Import Base64.

Lemma value_alphabet (v : N) : v < 64 → value (alphabet v) = Some v.
Proof.
  intros Hv. unfold alphabet.
  destruct (v <? 26) eqn:?; [|destruct (v <? 52) eqn:?; [|destruct (v <? 62) eqn:?;
    [|destruct (v =? 62) eqn:?]]];
  unfold value;
  repeat match goal with
         | |- context [if ?b then _ else _] => destruct b eqn:?
         end; try (f_equal; lia); lia.
Qed.

Lemma alphabet_not_pad (v : N) : (alphabet v =? pad) = false.
Proof.
  unfold alphabet, pad.
  destruct (v <? 26) eqn:?; [|destruct (v <? 52) eqn:?; [|destruct (v <? 62) eqn:?;
    [|destruct (v =? 62) eqn:?]]]; lia.
Qed.

Lemma of_N_to_N (x : Byte.byte) (n : N) : n = Byte.to_N x → Byte.of_N n = Some x.
Proof. intros ->. apply Byte.of_to_N. Qed.

Lemma to_N_lt (x : Byte.byte) : Byte.to_N x < 256.
Proof. pose proof (Byte.to_N_bounded x). lia. Qed.

(** Induction on a list of bytes three at a time. *)
Lemma list_ind3 {A} (P : list A → Prop) :
  P [] → (∀ a, P [a]) → (∀ a b, P [a; b]) →
  (∀ a b c r, P r → P (a :: b :: c :: r)) → ∀ l, P l.
Proof.
  intros H0 H1 H2 H3 l.
  assert (Hall : P l ∧ (∀ a, P (a :: l)) ∧ (∀ a b, P (a :: b :: l))).
  { induction l as [|x l (IH0 & IH1 & IH2)]; [by auto|].
    split; [apply IH1|]. split; [intros a; apply IH2|]. intros a b. by apply H3. }
  apply Hall.
Qed.

Lemma sextet_div (x y k : N) : y < k → (x * k + y) / k = x.
Proof. intros Hy. symmetry. apply (N.div_unique _ k x y); lia. Qed.

Lemma sextet_mod (x y k : N) : y < k → (x * k + y) mod k = y.
Proof. intros Hy. symmetry. apply (N.mod_unique _ k x y); lia. Qed.

Lemma sextet_div0 (x k : N) : 0 < k → (x * k) / k = x.
Proof. intros Hk. apply N.div_mul. lia. Qed.

Lemma of_N_join (x : Byte.byte) (k : N) :
  Byte.of_N (Byte.to_N x / k * k + Byte.to_N x mod k) = Some x.
Proof.
  apply of_N_to_N. rewrite (N.mul_comm _ k). symmetry. apply N.div_mod'.
Qed.

(** Rewriting steps of the round trip: the values of the characters
    come back, the halves of a 6-bit value are told apart, and the
    halves of each byte are joined. *)
Ltac b64_values :=
  repeat ((rewrite value_alphabet by lia); cbn [mbind option_bind]);
  (rewrite ?sextet_div, ?sextet_mod, ?sextet_div0 by lia);
  rewrite ?of_N_join; cbn [mbind option_bind].

Lemma decode_encode (bs : list Byte.byte) : decode (encode bs) = Some bs.
Proof.
  induction bs as [|a|a b|a b c r IH] using list_ind3.
  - done.
  - pose proof (to_N_lt a). cbn [encode decode]. rewrite !N.eqb_refl. cbn [andb isNil].
    b64_values. done.
  - pose proof (to_N_lt a). pose proof (to_N_lt b).
    cbn [encode decode]. rewrite alphabet_not_pad, !N.eqb_refl. cbn [andb isNil].
    b64_values. done.
  - pose proof (to_N_lt a). pose proof (to_N_lt b). pose proof (to_N_lt c).
    cbn [encode decode]. rewrite !alphabet_not_pad. cbn [andb].
    b64_values. rewrite IH. done.
Qed.

End Base64Facts.

Ltac Zify.zify_post_hook ::= idtac.

(** ** Generation and upload orchestration *)

(** Unfolds a call down to the world and the log. *)
Ltac io_unfold :=
  unfold mbind, io_mbind, io_bind, mret, io_mret, io_ret, throw, tryCatch,
    fetch, fileExists, resJson, resText, resBytes in *.

Lemma resolveTemplate_firstNonEmpty (a b : option jsstring) (ts : list jsstring) :
  resolveTemplate a b ts = default (lit "modern.tex") (firstNonEmpty [a; b; head ts])
  ∧ resolveTemplate a b ts ≠ [].
Proof.
  unfold resolveTemplate, orElse. simpl.
  destruct a as [[|c r]|], b as [[|c' r']|], (head ts) as [[|c'' r'']|]; by simpl.
Qed.

Section OrchestratorFacts.
Context {J : Type} `{Host J} `{CaseMapping}.

Lemma generateResume_log {D} (base : jsstring) (data : GenerateResumeRequest D)
    (w : World D) (log : list (HttpRequest D)) :
  (generateResume base data w log).2
  = log ++ [{| req_url := endpoint base "/generate_resume"; req_method := POST;
               req_body := GenerateBody (gen_template data) (gen_data data)
                             (formatName (gen_format data)) |}].
Proof.
  unfold generateResume. io_unfold.
  destruct (net w _) as [e|res]; [done|].
  destruct (ok res), (gen_format data), (body res); reflexivity.
Qed.

Lemma generateResume_not_ok {D} (base : jsstring) (data : GenerateResumeRequest D)
    (w : World D) (log : list (HttpRequest D)) (res : Response) :
  net w {| req_url := endpoint base "/generate_resume"; req_method := POST;
           req_body := GenerateBody (gen_template data) (gen_data data)
                         (formatName (gen_format data)) |} = inr res →
  ok res = false →
  generateResume base data w log
  = (inl (lit "Generation failed (" ++ decimal (status res) ++ lit "): "
          ++ failureText res),
     log ++ [{| req_url := endpoint base "/generate_resume"; req_method := POST;
                req_body := GenerateBody (gen_template data) (gen_data data)
                              (formatName (gen_format data)) |}]).
Proof.
  intros Hnet Hok. unfold generateResume, failureText. io_unfold.
  rewrite Hnet, Hok. destruct (body res) as [bs|]; [|reflexivity].
  simpl. destruct (utf8Decode bs); reflexivity.
Qed.

(** A response that is not a success ends [handleGenerate] in the
    failure toast, with the status and the text of the response, after
    the one request. *)
Lemma handleGenerate_not_ok (base : jsstring) (resumeData : ResumeData)
    (lastUsedTemplate : option jsstring) (templates : list jsstring)
    (format : Format) (w : World ResumeData) (log : list (HttpRequest ResumeData))
    (res : Response) :
  let payload := payloadOf resumeData lastUsedTemplate templates format in
  let request :=
    {| req_url := endpoint base "/generate_resume"; req_method := POST;
       req_body := GenerateBody (gen_template payload) (gen_data payload)
                     (formatName format) |} in
  net w request = inr res → ok res = false →
  handleGenerate base resumeData lastUsedTemplate templates format w log
  = (inr (GenerationFailed
            (lit "Generation failed (" ++ decimal (status res) ++ lit "): "
             ++ failureText res)),
     log ++ [request]).
Proof.
  intros payload request Hnet Hok.
  pose proof (generateResume_not_ok base payload w log res Hnet Hok) as Hgen.
  unfold handleGenerate. fold payload. io_unfold. by rewrite Hgen.
Qed.

(** Claim C4.  For every generation call, the template of the payload
    is the first non-empty string among the template of the draft, the
    last-used template and the first entry of the catalog, in this
    order, and [modern.tex] when there is none; it is never empty; and
    the one request that [handleGenerate] sends carries it. *)
Theorem handleGenerate_template (base : jsstring) (resumeData : ResumeData)
    (lastUsedTemplate : option jsstring) (templates : list jsstring)
    (format : Format) (w : World ResumeData) (log : list (HttpRequest ResumeData)) :
  let payload := payloadOf resumeData lastUsedTemplate templates format in
  gen_template payload
  = default (lit "modern.tex")
      (firstNonEmpty [template resumeData; lastUsedTemplate; head templates])
  ∧ gen_template payload ≠ []
  ∧ (handleGenerate base resumeData lastUsedTemplate templates format w log).2
    = log ++ [{| req_url := endpoint base "/generate_resume"; req_method := POST;
                 req_body := GenerateBody (gen_template payload) (gen_data payload)
                               (formatName format) |}].
Proof.
  intros payload.
  destruct (resolveTemplate_firstNonEmpty (template resumeData) lastUsedTemplate templates)
    as [Heq Hne].
  split; [exact Heq|]. split; [exact Hne|].
  pose proof (generateResume_log base payload w log) as Hlog.
  unfold handleGenerate. fold payload. io_unfold.
  destruct (generateResume base payload w log) as [[e|[bs|t]] l]; exact Hlog.
Qed.

End OrchestratorFacts.

(** The four levels of the precedence, one at a time. *)
Example resolveTemplate_levels :
  resolveTemplate (Some (lit "a.tex")) (Some (lit "b.tex")) [lit "c.tex"] = lit "a.tex"
  ∧ resolveTemplate (Some []) (Some (lit "b.tex")) [lit "c.tex"] = lit "b.tex"
  ∧ resolveTemplate (Some []) None [lit "c.tex"] = lit "c.tex"
  ∧ resolveTemplate (Some []) None [] = lit "modern.tex".
Proof. repeat split. Qed.

Section MergeFacts.
Context {V : Type}.

(** Claim C8.  For every draft and every extraction result, the merge
    is shallow: a property present in [parsed] has, in the merged
    draft, the value it has in [parsed], whatever that value holds; a
    property absent from [parsed] is in the merged draft as it is in
    the draft.  [handleFileChange] stores this merge when a file was
    chosen and the upload returned a [parsed] object, and leaves the
    draft as it is otherwise. *)
Theorem mergeDraft_shallow (resumeData parsed : gmap string V) :
  (∀ k, mergeDraft resumeData parsed !! k
        = match parsed !! k with
          | Some v => Some v
          | None => resumeData !! k
          end)
  ∧ handleFileChange resumeData true (UploadReturned (Some parsed))
    = mergeDraft resumeData parsed
  ∧ handleFileChange resumeData true (UploadReturned None) = resumeData
  ∧ (∀ message, handleFileChange resumeData true (UploadThrew message) = resumeData)
  ∧ (∀ outcome, handleFileChange resumeData false outcome = resumeData).
Proof.
  split; [|done].
  intros k. unfold mergeDraft. rewrite lookup_union.
  by destruct (parsed !! k), (resumeData !! k).
Qed.

End MergeFacts.

(** The draft [{summary: old, personalInfo: me}] merged with
    [{summary: new, skills: go}]. *)
Example mergeDraft_example :
  mergeDraft (V := jsstring)
    {[ "summary"%string := lit "old"; "personalInfo"%string := lit "me" ]}
    {[ "summary"%string := lit "new"; "skills"%string := lit "go" ]}
  = {[ "summary"%string := lit "new"; "skills"%string := lit "go";
       "personalInfo"%string := lit "me" ]}.
Proof. by vm_compute. Qed.

(** ** The protocol adapter *)

Section AdapterFacts.
Context {D J : Type} `{Host J} `{CaseMapping}.

Lemma toLowerCase_html : toLowerCase (lit "html") = lit "html".
Proof.
  rewrite toLowerCase_ascii; [done|]. repeat (constructor; [reflexivity|]). constructor.
Qed.

(** The handler always ends with a result: the [catch] turns every
    error thrown inside the [switch] into one. *)
Lemma callTool_catches (base : jsstring) (request : CallToolRequest D)
    (w : World D) (log : list (HttpRequest D)) :
  match toolSwitch base request w log with
  | (inr r, log') => callTool base request w log = (inr r, log')
  | (inl e, log') =>
      callTool base request w log
      = (inr {| text := lit "Error: " ++ e; isError := true |}, log')
  end.
Proof.
  unfold callTool, tryCatch.
  by destruct (toolSwitch base request w log) as [[e|r] log'].
Qed.

(** Case analysis on the tool name and on every test of the [switch]. *)
Ltac switch_cases :=
  unfold toolSwitch, argsOf, post in *; io_unfold;
  repeat first [ case_bool_decide | case_match ]; simplify_eq/=.

(** A result that the [switch] returns is not tagged as an error. *)
Lemma toolSwitch_returns (base : jsstring) (request : CallToolRequest D)
    (w : World D) (log log' : list (HttpRequest D)) (r : ToolResult) :
  toolSwitch base request w log = (inr r, log') → isError r = false.
Proof. intros Hr. switch_cases; done. Qed.

Lemma toolSwitch_unknown (base : jsstring) (request : CallToolRequest D)
    (w : World D) (log : list (HttpRequest D)) :
  name request ∉ [lit "list_templates"; lit "extract_resume_data";
                  lit "generate_resume_html"; lit "generate_resume"] →
  toolSwitch base request w log = (inl (lit "Unknown tool: " ++ name request), log).
Proof.
  intros Hn. rewrite !not_elem_of_cons in Hn. destruct Hn as (? & ? & ? & ? & _).
  unfold toolSwitch. by rewrite !bool_decide_eq_false_2 by done.
Qed.

Lemma toolSwitch_missing_path (base : jsstring) (request : CallToolRequest D)
    (w : World D) (log : list (HttpRequest D)) (a : ToolArgs D) :
  name request = lit "extract_resume_data" → arguments request = Some a →
  truthyStr (file_path a) = false →
  toolSwitch base request w log = (inl (lit "file_path is required"), log).
Proof.
  intros Hn Ha Hp. unfold toolSwitch, argsOf. rewrite Hn, Ha. io_unfold. simpl.
  by destruct (file_path a) as [[|c r]|].
Qed.

Lemma toolSwitch_no_such_file (base : jsstring) (request : CallToolRequest D)
    (w : World D) (log : list (HttpRequest D)) (a : ToolArgs D) (path : jsstring) :
  name request = lit "extract_resume_data" → arguments request = Some a →
  file_path a = Some path → path ≠ [] → existsSync w path = false →
  toolSwitch base request w log = (inl (lit "file not found: " ++ path), log).
Proof.
  intros Hn Ha Hp Hne Hex. unfold toolSwitch, argsOf. rewrite Hn, Ha. io_unfold. simpl.
  rewrite Hp. destruct path as [|c r]; [done|]. by rewrite Hex.
Qed.

Lemma toolSwitch_missing_data (base : jsstring) (request : CallToolRequest D)
    (w : World D) (log : list (HttpRequest D)) (a : ToolArgs D) :
  name request = lit "generate_resume_html" ∨ name request = lit "generate_resume" →
  arguments request = Some a → resume_data a = None →
  toolSwitch base request w log = (inl (lit "resume_data is required"), log).
Proof.
  intros [Hn|Hn] Ha Hd; unfold toolSwitch, argsOf; rewrite Hn, Ha; io_unfold; simpl;
    by rewrite Hd.
Qed.

Lemma toolSwitch_missing_arguments (base : jsstring) (request : CallToolRequest D)
    (w : World D) (log : list (HttpRequest D)) :
  name request ∈ [lit "extract_resume_data"; lit "generate_resume_html";
                  lit "generate_resume"] →
  arguments request = None →
  ∃ e, toolSwitch base request w log = (inl e, log).
Proof.
  intros Hn Ha. rewrite !elem_of_cons, elem_of_nil in Hn.
  destruct Hn as [Hn|[Hn|[Hn|[]]]]; unfold toolSwitch, argsOf; rewrite Hn, Ha;
    io_unfold; simpl; eauto.
Qed.

(** When the collaborator cannot be reached, whatever the request, no
    tool call returns a result of its own. *)
Lemma toolSwitch_unreachable (base : jsstring) (request : CallToolRequest D)
    (w : World D) (log : list (HttpRequest D)) :
  (∀ q, ∃ e, net w q = inl e) →
  ∃ e log', toolSwitch base request w log = (inl e, log').
Proof.
  intros Hnet.
  destruct (toolSwitch base request w log) as [[e|r] log'] eqn:Hr; [eauto|].
  exfalso. switch_cases;
    match goal with
    | Hq : net w ?q = inr _ |- _ => destruct (Hnet q) as [e' He']; congruence
    end.
Qed.

(** X21.  What becomes of an error thrown inside the [switch].  For every
    tool call, world and log, the handler returns a result and never an
    error; the result is tagged as an error exactly when something was
    thrown inside the [switch], and then holds the message of what was
    thrown.  This covers: an unknown tool name, a missing [file_path],
    a path that does not exist (no request is then sent), a missing
    [resume_data], missing arguments, and a collaborator that cannot be
    reached.  A response with a status outside 200..299 is not a thrown
    error, and is not covered here. *)
Theorem callTool_never_throws (base : jsstring) (request : CallToolRequest D)
    (w : World D) (log : list (HttpRequest D)) :
  (∃ r log', callTool base request w log = (inr r, log')
     ∧ (isError r = true ↔ ∃ e, toolSwitch base request w log = (inl e, log'))
     ∧ (∀ e, toolSwitch base request w log = (inl e, log') →
             text r = lit "Error: " ++ e))
  ∧ (name request ∉ [lit "list_templates"; lit "extract_resume_data";
                     lit "generate_resume_html"; lit "generate_resume"] →
     callTool base request w log
     = (inr {| text := lit "Error: Unknown tool: " ++ name request; isError := true |},
        log))
  ∧ (∀ a path,
       name request = lit "extract_resume_data" → arguments request = Some a →
       file_path a = Some path → path ≠ [] → existsSync w path = false →
       callTool base request w log
       = (inr {| text := lit "Error: file not found: " ++ path; isError := true |},
          log))
  ∧ (∀ a,
       name request = lit "extract_resume_data" → arguments request = Some a →
       truthyStr (file_path a) = false →
       callTool base request w log
       = (inr {| text := lit "Error: file_path is required"; isError := true |}, log))
  ∧ (∀ a,
       name request = lit "generate_resume_html" ∨ name request = lit "generate_resume" →
       arguments request = Some a → resume_data a = None →
       callTool base request w log
       = (inr {| text := lit "Error: resume_data is required"; isError := true |}, log))
  ∧ (name request ∈ [lit "extract_resume_data"; lit "generate_resume_html";
                     lit "generate_resume"] →
     arguments request = None →
     ∃ r, callTool base request w log = (inr r, log) ∧ isError r = true)
  ∧ ((∀ q, ∃ e, net w q = inl e) →
     ∃ r log', callTool base request w log = (inr r, log') ∧ isError r = true).
Proof.
  pose proof (callTool_catches base request w log) as Hcatch.
  split.
  { destruct (toolSwitch base request w log) as [[e|r] log'] eqn:Hr.
    - eexists _, log'. split; [exact Hcatch|]. split.
      + split; [eauto | done].
      + by intros e' [= <-].
    - exists r, log'. split; [exact Hcatch|].
      rewrite (toolSwitch_returns base request w log log' r Hr). split; [|done].
      split; [done | by intros [e' ?]]. }
  split.
  { intros Hn. by rewrite (toolSwitch_unknown base request w log Hn) in Hcatch. }
  split.
  { intros a path Hn Ha Hp Hne Hex.
    by rewrite (toolSwitch_no_such_file base request w log a path Hn Ha Hp Hne Hex)
      in Hcatch. }
  split.
  { intros a Hn Ha Hp.
    by rewrite (toolSwitch_missing_path base request w log a Hn Ha Hp) in Hcatch. }
  split.
  { intros a Hn Ha Hd.
    by rewrite (toolSwitch_missing_data base request w log a Hn Ha Hd) in Hcatch. }
  split.
  { intros Hn Ha.
    destruct (toolSwitch_missing_arguments base request w log Hn Ha) as [e He].
    rewrite He in Hcatch. eauto. }
  intros Hnet.
  destruct (toolSwitch_unreachable base request w log Hnet) as (e & log' & He).
  rewrite He in Hcatch. eauto.
Qed.

End AdapterFacts.

(** A call of [extract_resume_data] with the path [/no/such.pdf], in
    a world where no path exists: the result is an error and no
    request was sent. *)
Lemma callTool_never_throws_witness :
  @callTool unit _ asciiHost asciiCase (lit "http://localhost:8000")
    (toolCall "extract_resume_data" (pathArgs "/no/such.pdf"))
    (answering pdfResponse) []
  = (inr {| text := lit "Error: file not found: /no/such.pdf"; isError := true |}, []).
Proof.
  destruct (@callTool_never_throws unit _ asciiHost asciiCase
              (lit "http://localhost:8000")
              (toolCall "extract_resume_data" (pathArgs "/no/such.pdf"))
              (answering pdfResponse) [])
    as (_ & _ & Hfile & _).
  apply (Hfile (pathArgs "/no/such.pdf") (lit "/no/such.pdf")).
  - reflexivity.
  - reflexivity.
  - reflexivity.
  - discriminate.
  - reflexivity.
Defined.

Section PdfFacts.
Context {D J : Type} `{Host J} `{CaseMapping}.

(** Claim C5.  For every call of [generate_resume] that carries resume
    data and whose format, [html] when absent, is [pdf] once in lower
    case, and for every byte sequence [bs] that the Rendering Service
    answers with: the result is not an error, its text is the marker
    [PDF_BASE64:] followed by the Base64 encoding of [bs], and decoding
    what follows the marker gives [bs] back. *)
Theorem generate_resume_pdf (base : jsstring) (request : CallToolRequest D)
    (a : ToolArgs D) (d : D) (w : World D) (log : list (HttpRequest D))
    (res : Response) (bs : list Byte.byte) :
  name request = lit "generate_resume" →
  arguments request = Some a →
  resume_data a = Some d →
  toLowerCase (orLit (arg_format a) (lit "html")) = lit "pdf" →
  net w (post base "/generate_resume"
           (GenerateBody (orLit (arg_template a) (lit "billryan_basic.tex")) d (lit "pdf")))
  = inr res →
  body res = Some bs →
  ∃ r log',
    callTool base request w log = (inr r, log')
    ∧ isError r = false
    ∧ text r = lit "PDF_BASE64:" ++ Base64.encode bs
    ∧ take 11 (text r) = lit "PDF_BASE64:"
    ∧ Base64.decode (drop 11 (text r)) = Some bs.
Proof.
  intros Hn Ha Hd Hf Hnet Hb.
  eexists _, _. split.
  { unfold callTool, toolSwitch, argsOf. rewrite Hn, Ha. io_unfold. simpl.
    rewrite Hd, Hf, Hnet. simpl. rewrite Hb. reflexivity. }
  simpl. split; [done|]. split; [done|]. split; [done|].
  apply decode_encode.
Qed.

(** Without a format the request asks for [html], and the text of the
    answer is returned. *)
Lemma generate_resume_default_html (base : jsstring) (request : CallToolRequest D)
    (a : ToolArgs D) (d : D) (w : World D) (log : list (HttpRequest D))
    (res : Response) (bs : list Byte.byte) :
  name request = lit "generate_resume" →
  arguments request = Some a →
  resume_data a = Some d →
  truthyStr (arg_format a) = false →
  net w (post base "/generate_resume"
           (GenerateBody (orLit (arg_template a) (lit "billryan_basic.tex")) d (lit "html")))
  = inr res →
  body res = Some bs →
  callTool base request w log
  = (inr (textResult (utf8Decode bs)),
     log ++ [post base "/generate_resume"
               (GenerateBody (orLit (arg_template a) (lit "billryan_basic.tex")) d
                  (lit "html"))]).
Proof.
  intros Hn Ha Hd Hf Hnet Hb.
  assert (orLit (arg_format a) (lit "html") = lit "html") as Hfmt.
  { by destruct (arg_format a) as [[|c r]|]. }
  unfold callTool, toolSwitch, argsOf. rewrite Hn, Ha. io_unfold. simpl.
  rewrite Hd, Hfmt, toLowerCase_html, Hnet. simpl. rewrite Hb. reflexivity.
Qed.

End PdfFacts.

(** The format [PDF] and a Rendering Service that answers with the
    four bytes of [%PDF]. *)
Lemma generate_resume_pdf_witness :
  ∃ r log',
    @callTool unit _ asciiHost asciiCase (lit "http://localhost:8000")
      (toolCall "generate_resume" (generateArgs (Some (lit "PDF"))))
      (answering pdfResponse) [] = (inr r, log')
    ∧ isError r = false
    ∧ text r = lit "PDF_BASE64:" ++ Base64.encode (bytesOf "%PDF")
    ∧ take 11 (text r) = lit "PDF_BASE64:"
    ∧ Base64.decode (drop 11 (text r)) = Some (bytesOf "%PDF").
Proof.
  apply (@generate_resume_pdf unit _ asciiHost asciiCase (lit "http://localhost:8000")
           (toolCall "generate_resume" (generateArgs (Some (lit "PDF"))))
           (generateArgs (Some (lit "PDF"))) tt (answering pdfResponse) []
           pdfResponse (bytesOf "%PDF")); reflexivity.
Defined.

Example generate_resume_pdf_text :
  (@callTool unit _ asciiHost asciiCase (lit "http://localhost:8000")
     (toolCall "generate_resume" (generateArgs (Some (lit "PDF"))))
     (answering pdfResponse) []).1
  = inr (textResult (lit "PDF_BASE64:JVBERg==")).
Proof. by vm_compute. Qed.

(** Claim C6 at a Rendering Service that answers with status 500 and
    the body [render failed].  [generateResume] of [lib/api.ts] throws
    the generation error with the status and the body, after one
    request.  The [generate_resume] and [generate_resume_html] tools of
    the adapter return the body as an ordinary result, not tagged as an
    error; with the format [pdf], the body comes back encoded behind
    the PDF marker. *)
Lemma generate_resume_ignores_status :
  @generateResume unit _ asciiHost (lit "http://localhost:8000")
    {| gen_template := lit "modern.tex"; gen_data := tt; gen_format := html |}
    (answering serverError) []
  = (inl (lit "Generation failed (500): render failed"),
     [{| req_url := lit "http://localhost:8000/generate_resume"; req_method := POST;
         req_body := GenerateBody (lit "modern.tex") tt (lit "html") |}])
  ∧ (@callTool unit _ asciiHost asciiCase (lit "http://localhost:8000")
       (toolCall "generate_resume" (generateArgs None)) (answering serverError) []).1
    = inr {| text := lit "render failed"; isError := false |}
  ∧ (@callTool unit _ asciiHost asciiCase (lit "http://localhost:8000")
       (toolCall "generate_resume_html" (generateArgs None)) (answering serverError) []).1
    = inr {| text := lit "render failed"; isError := false |}
  ∧ (@callTool unit _ asciiHost asciiCase (lit "http://localhost:8000")
       (toolCall "generate_resume" (generateArgs (Some (lit "pdf"))))
       (answering serverError) []).1
    = inr {| text := lit "PDF_BASE64:" ++ Base64.encode (bytesOf "render failed");
             isError := false |}.
Proof. repeat split; by vm_compute. Qed.

(** Claim C7 at a collaborator that answers every request with status
    503 and the body [[]], with a file at the path [/cv.pdf].  A
    failure that is thrown is tagged: the path [/no/such.pdf] in a
    world where no path exists gives an error result.  A failure that
    the collaborator reports by its status is not: each of the four
    tools returns the body of the 503 response as an ordinary result,
    with [isError] absent, after one request. *)
Lemma callTool_untagged_status :
  ok refusal = false
  ∧ @callTool unit _ asciiHost asciiCase (lit "http://localhost:8000")
      (toolCall "extract_resume_data" (pathArgs "/no/such.pdf"))
      (answering refusal) []
    = (inr {| text := lit "Error: file not found: /no/such.pdf"; isError := true |}, [])
  ∧ @callTool unit _ asciiHost asciiCase (lit "http://localhost:8000")
      {| name := lit "list_templates"; arguments := None |} refusing []
    = (inr {| text := lit "[]"; isError := false |},
       [{| req_url := lit "http://localhost:8000/templates"; req_method := GET;
           req_body := NoBody |}])
  ∧ @callTool unit _ asciiHost asciiCase (lit "http://localhost:8000")
      (toolCall "extract_resume_data" (pathArgs "/cv.pdf")) refusing []
    = (inr {| text := lit "[]"; isError := false |},
       [{| req_url := lit "http://localhost:8000/upload_resume"; req_method := POST;
           req_body := FileBody (lit "/cv.pdf") |}])
  ∧ @callTool unit _ asciiHost asciiCase (lit "http://localhost:8000")
      (toolCall "generate_resume_html" (generateArgs None)) refusing []
    = (inr {| text := lit "[]"; isError := false |},
       [{| req_url := lit "http://localhost:8000/generate_resume"; req_method := POST;
           req_body := GenerateBody (lit "billryan_basic.tex") tt (lit "html") |}])
  ∧ @callTool unit _ asciiHost asciiCase (lit "http://localhost:8000")
      (toolCall "generate_resume" (generateArgs None)) refusing []
    = (inr {| text := lit "[]"; isError := false |},
       [{| req_url := lit "http://localhost:8000/generate_resume"; req_method := POST;
           req_body := GenerateBody (lit "billryan_basic.tex") tt (lit "html") |}]).
Proof. repeat split; by vm_compute. Qed.

(** ** [enhanceResume] on the heap *)

Section HeapFacts.
Import Store.

Lemma lookupDoc_Some (l : loc) (σ : Heap) (d : Doc) :
  lookupDoc l σ = Some d ↔ σ !! l = Some (CDoc d).
Proof. unfold lookupDoc. destruct (σ !! l) as [[]|]; split; intros ?; by simplify_eq. Qed.

Lemma lookupSlots_Some (l : loc) (σ : Heap) (slots : list Slot) :
  lookupSlots l σ = Some slots ↔ σ !! l = Some (CSkills slots).
Proof. unfold lookupSlots. destruct (σ !! l) as [[]|]; split; intros ?; by simplify_eq. Qed.

Lemma lookupRefs_Some (l : loc) (σ : Heap) (refs : list loc) :
  lookupRefs l σ = Some refs ↔ σ !! l = Some (CWorks refs).
Proof. unfold lookupRefs. destruct (σ !! l) as [[]|]; split; intros ?; by simplify_eq. Qed.

Lemma lookupWork_Some (l : loc) (σ : Heap) (w : WorkExperience) :
  lookupWork σ l = Some w ↔ σ !! l = Some (CWork w).
Proof. unfold lookupWork. destruct (σ !! l) as [[]|]; split; intros ?; by simplify_eq. Qed.

Lemma lookupSkill_ref (l : loc) (σ : Heap) (e : SkillEntry) :
  lookupSkill σ (SlotRef l) = Some e ↔ ∃ o, e = SkillObj o ∧ σ !! l = Some (CSkill o).
Proof.
  simpl. destruct (σ !! l) as [[]|]; split;
    first [ intros (? & ? & ?); by simplify_eq | intros ?; simplify_eq; eauto ].
Qed.

(** *** What is kept when the heap grows or a draft is assigned to *)

Lemma keeps_refl (σ : Heap) : keeps σ σ.
Proof. by intros l c Hl _. Qed.

Lemma keeps_trans (σ1 σ2 σ3 : Heap) : keeps σ1 σ2 → keeps σ2 σ3 → keeps σ1 σ3.
Proof. intros H12 H23 l c Hl Hc. apply H23; [|done]. by apply H12. Qed.

Lemma keeps_app (σ ext : Heap) : keeps σ (σ ++ ext).
Proof. intros l c Hl _. by apply lookup_app_l_Some. Qed.

Lemma keeps_insert (σ : Heap) (l : loc) (d d' : Doc) :
  σ !! l = Some (CDoc d) → keeps σ (<[l := CDoc d']> σ).
Proof.
  intros Hl l' c Hl' Hc. destruct (decide (l = l')) as [->|Hne].
  - rewrite Hl in Hl'. simplify_eq. by destruct (Hc d).
  - by rewrite list_lookup_insert_ne.
Qed.

Lemma agree_refl (n : nat) (σ : Heap) : agree n σ σ.
Proof. by intros l _. Qed.

Lemma agree_trans (n : nat) (σ1 σ2 σ3 : Heap) :
  agree n σ1 σ2 → agree n σ2 σ3 → agree n σ1 σ3.
Proof. intros H12 H23 l Hl. by rewrite H23, H12. Qed.

Lemma agree_app (n : nat) (σ ext : Heap) : (n ≤ length σ)%nat → agree n σ (σ ++ ext).
Proof. intros Hn l Hl. apply lookup_app_l. lia. Qed.

Lemma agree_insert (n : nat) (σ : Heap) (l : loc) (c : Cell) :
  (n ≤ l)%nat → agree n σ (<[l := c]> σ).
Proof. intros Hn l' Hl'. apply list_lookup_insert_ne. lia. Qed.

Lemma keeps_lookupSkill (σ σ' : Heap) (s : Slot) (e : SkillEntry) :
  keeps σ σ' → lookupSkill σ s = Some e → lookupSkill σ' s = Some e.
Proof.
  intros Hk. destruct s as [l|x]; [|done].
  rewrite !lookupSkill_ref. intros (o & -> & Hl). exists o. split; [done|].
  by apply Hk.
Qed.

Lemma keeps_lookupWork (σ σ' : Heap) (l : loc) (w : WorkExperience) :
  keeps σ σ' → lookupWork σ l = Some w → lookupWork σ' l = Some w.
Proof. intros Hk. rewrite !lookupWork_Some. intros Hl. by apply Hk. Qed.

Lemma keeps_lookupSkills (σ σ' : Heap) (l : loc) (es : list SkillEntry) :
  keeps σ σ' → lookupSkills l σ = Some es → lookupSkills l σ' = Some es.
Proof.
  intros Hk. unfold lookupSkills.
  destruct (lookupSlots l σ) as [slots|] eqn:Hs; [|done]. simpl.
  apply lookupSlots_Some in Hs. pose proof (Hk _ _ Hs ltac:(done)) as Hs'.
  apply lookupSlots_Some in Hs'. rewrite Hs'. simpl.
  rewrite !mapM_Some. intros Hall. eapply Forall2_impl; [exact Hall|].
  intros s e. by apply keeps_lookupSkill.
Qed.

Lemma keeps_lookupWorks (σ σ' : Heap) (l : loc) (ws : list WorkExperience) :
  keeps σ σ' → lookupWorks l σ = Some ws → lookupWorks l σ' = Some ws.
Proof.
  intros Hk. unfold lookupWorks.
  destruct (lookupRefs l σ) as [refs|] eqn:Hr; [|done]. simpl.
  apply lookupRefs_Some in Hr. pose proof (Hk _ _ Hr ltac:(done)) as Hr'.
  apply lookupRefs_Some in Hr'. rewrite Hr'. simpl.
  rewrite !mapM_Some. intros Hall. eapply Forall2_impl; [exact Hall|].
  intros r w. by apply keeps_lookupWork.
Qed.

Lemma keeps_lookupOpt {A} (read : loc → Heap → option A) (σ σ' : Heap)
    (o : option loc) (v : option A) :
  (∀ l a, read l σ = Some a → read l σ' = Some a) →
  lookupOpt read o σ = Some v → lookupOpt read o σ' = Some v.
Proof.
  intros Hread. destruct o as [l|]; [|done]. simpl.
  destruct (read l σ) as [a|] eqn:Ha; [|done]. by rewrite (Hread l a Ha).
Qed.

Lemma keeps_skillsAt (n : nat) (σ σ' : Heap) (o : option loc)
    (sk : option (list SkillEntry)) :
  keeps σ σ' → skillsAt n σ o sk → skillsAt n σ' o sk.
Proof.
  intros Hk. destruct o as [a|], sk as [es|]; try done.
  intros (slots & Ha & Hall & Hn & Hfresh). exists slots.
  split; [by apply Hk|]. split; [|done].
  eapply Forall2_impl; [exact Hall|]. intros s e. by apply keeps_lookupSkill.
Qed.

Lemma keeps_worksAt (n : nat) (σ σ' : Heap) (o : option loc)
    (ws : option (list WorkExperience)) :
  keeps σ σ' → worksAt n σ o ws → worksAt n σ' o ws.
Proof.
  intros Hk. destruct o as [b|], ws as [l|]; try done.
  intros (refs & Hb & Hall & Hn & Hfresh). exists refs.
  split; [by apply Hk|]. split; [|done].
  eapply Forall2_impl; [exact Hall|]. intros r w. by apply keeps_lookupWork.
Qed.

Lemma skillsAt_lookup (n : nat) (σ : Heap) (o : option loc)
    (sk : option (list SkillEntry)) :
  skillsAt n σ o sk → lookupOpt lookupSkills o σ = Some sk.
Proof.
  destruct o as [a|], sk as [es|]; try done.
  intros (slots & Ha & Hall & _). simpl. unfold lookupSkills.
  apply lookupSlots_Some in Ha. rewrite Ha. simpl.
  apply mapM_Some in Hall. by rewrite Hall.
Qed.

Lemma worksAt_lookup (n : nat) (σ : Heap) (o : option loc)
    (ws : option (list WorkExperience)) :
  worksAt n σ o ws → lookupOpt lookupWorks o σ = Some ws.
Proof.
  destruct o as [b|], ws as [l|]; try done.
  intros (refs & Hb & Hall & _). simpl. unfold lookupWorks.
  apply lookupRefs_Some in Hb. rewrite Hb. simpl.
  apply mapM_Some in Hall. by rewrite Hall.
Qed.

(** A draft laid out as [draftAt] says has the value [valueOf], and
    all that makes it up lies at or above [n]. *)
Lemma draftAt_snapshot (n : nat) (c : loc) (σ : Heap) (doc : Doc)
    (sk : option (list SkillEntry)) (ws : option (list WorkExperience)) :
  draftAt n c σ doc sk ws →
  snapshot c σ = Some (valueOf doc sk ws) ∧ Forall (le n) (reachable c σ).
Proof.
  intros (Hc & Hn & Hsk & Hws). split.
  - unfold snapshot. apply lookupDoc_Some in Hc. rewrite Hc. simpl.
    rewrite (skillsAt_lookup n σ _ sk Hsk). simpl.
    rewrite (worksAt_lookup n σ _ ws Hws). done.
  - unfold reachable. apply lookupDoc_Some in Hc. rewrite Hc.
    constructor; [done|]. apply Forall_app. split.
    + destruct (doc_skills doc) as [a|], sk as [es|]; try done.
      destruct Hsk as (slots & Ha & _ & Hna & Hfresh).
      apply lookupSlots_Some in Ha. rewrite Ha. by constructor.
    + destruct (doc_workExperience doc) as [b|], ws as [l|]; try done.
      destruct Hws as (refs & Hb & _ & Hnb & Hfresh).
      apply lookupRefs_Some in Hb. rewrite Hb. by constructor.
Qed.

End HeapFacts.

Section StepFacts.
Import Store.
Context `{CaseMapping}.

(** Unfolds an operation down to the heap. *)
Ltac op_unfold :=
  unfold mbind, op_mbind, mret, op_mret, reading, alloc, modifyDoc in *.

(** *** [JSON.parse] *)

Lemma parseSlots_spec (es : list SkillEntry) (σ : Heap) :
  ∃ ext slots,
    parseSlots es σ = Some (σ ++ ext, slots)
    ∧ Forall2 (λ s e, lookupSkill (σ ++ ext) s = Some e) slots es
    ∧ Forall (le (length σ)) (slotRefs slots).
Proof.
  revert σ. induction es as [|[o|x] r IH]; intros σ.
  - exists [], []. rewrite app_nil_r. repeat split; constructor.
  - destruct (IH (σ ++ [CSkill o])) as (ext & slots & Hp & Hall & Hfresh).
    exists (CSkill o :: ext), (SlotRef (length σ) :: slots).
    rewrite <- app_assoc in Hp, Hall. simpl in Hp, Hall.
    split; [|split].
    + cbn [parseSlots]. op_unfold. by rewrite Hp.
    + constructor; [|done]. apply lookupSkill_ref. exists o. split; [done|].
      apply list_lookup_middle. done.
    + simpl. constructor; [done|]. eapply Forall_impl; [exact Hfresh|].
      intros l. rewrite length_app. simpl. lia.
  - destruct (IH σ) as (ext & slots & Hp & Hall & Hfresh).
    exists ext, (SlotStr x :: slots). split; [|split].
    + cbn [parseSlots]. op_unfold. by rewrite Hp.
    + by constructor.
    + done.
Qed.

Lemma parseWorks_spec (ws : list WorkExperience) (σ : Heap) :
  ∃ ext refs,
    parseWorks ws σ = Some (σ ++ ext, refs)
    ∧ Forall2 (λ r w, lookupWork (σ ++ ext) r = Some w) refs ws
    ∧ Forall (le (length σ)) refs.
Proof.
  revert σ. induction ws as [|w r IH]; intros σ.
  - exists [], []. rewrite app_nil_r. repeat split; constructor.
  - destruct (IH (σ ++ [CWork w])) as (ext & refs & Hp & Hall & Hfresh).
    exists (CWork w :: ext), (length σ :: refs).
    rewrite <- app_assoc in Hp, Hall. simpl in Hp, Hall.
    split; [|split].
    + cbn [parseWorks]. op_unfold. by rewrite Hp.
    + constructor; [|done]. apply lookupWork_Some. by apply list_lookup_middle.
    + constructor; [done|]. eapply Forall_impl; [exact Hfresh|].
      intros l. rewrite length_app. simpl. lia.
Qed.

Lemma parseOpt_skills_spec (sk : option (list SkillEntry)) (σ : Heap) :
  ∃ ext o,
    parseOpt parseSlots CSkills sk σ = Some (σ ++ ext, o)
    ∧ skillsAt (length σ) (σ ++ ext) o sk.
Proof.
  destruct sk as [es|].
  - destruct (parseSlots_spec es σ) as (ext & slots & Hp & Hall & Hfresh).
    exists (ext ++ [CSkills slots]), (Some (length (σ ++ ext))). split.
    + simpl. op_unfold. rewrite Hp. by rewrite <- app_assoc.
    + exists slots. rewrite app_assoc. split; [by apply list_lookup_middle|].
      split; [|split; [rewrite length_app; lia | done]].
      eapply Forall2_impl; [exact Hall|]. intros s e.
      apply keeps_lookupSkill, keeps_app.
  - exists [], None. by rewrite app_nil_r.
Qed.

Lemma parseOpt_works_spec (ws : option (list WorkExperience)) (σ : Heap) :
  ∃ ext o,
    parseOpt parseWorks CWorks ws σ = Some (σ ++ ext, o)
    ∧ worksAt (length σ) (σ ++ ext) o ws.
Proof.
  destruct ws as [l|].
  - destruct (parseWorks_spec l σ) as (ext & refs & Hp & Hall & Hfresh).
    exists (ext ++ [CWorks refs]), (Some (length (σ ++ ext))). split.
    + simpl. op_unfold. rewrite Hp. by rewrite <- app_assoc.
    + exists refs. rewrite app_assoc. split; [by apply list_lookup_middle|].
      split; [|split; [rewrite length_app; lia | done]].
      eapply Forall2_impl; [exact Hall|]. intros r w.
      apply keeps_lookupWork, keeps_app.
  - exists [], None. by rewrite app_nil_r.
Qed.

Lemma skillsAt_weaken (n m : nat) (σ : Heap) (o : option loc)
    (sk : option (list SkillEntry)) :
  (n ≤ m)%nat → skillsAt m σ o sk → skillsAt n σ o sk.
Proof.
  intros Hnm. destruct o as [a|], sk as [es|]; try done.
  intros (slots & Ha & Hall & Hm & Hfresh). exists slots.
  repeat split; [done | done | lia |].
  eapply Forall_impl; [exact Hfresh|]. intros l. simpl. lia.
Qed.

Lemma worksAt_weaken (n m : nat) (σ : Heap) (o : option loc)
    (ws : option (list WorkExperience)) :
  (n ≤ m)%nat → worksAt m σ o ws → worksAt n σ o ws.
Proof.
  intros Hnm. destruct o as [b|], ws as [l|]; try done.
  intros (refs & Hb & Hall & Hm & Hfresh). exists refs.
  repeat split; [done | done | lia |].
  eapply Forall_impl; [exact Hfresh|]. intros r. simpl. lia.
Qed.

(** The clone is a new draft of the same value; the heap that was
    there is a prefix of the new heap. *)
Lemma parse_spec (d : ResumeData) (σ : Heap) :
  ∃ ext clone doc,
    parse d σ = Some (σ ++ ext, clone)
    ∧ draftAt (length σ) clone (σ ++ ext) doc (skills d) (workExperience d)
    ∧ valueOf doc (skills d) (workExperience d) = d.
Proof.
  destruct (parseOpt_skills_spec (skills d) σ) as (ext1 & o1 & Hp1 & Hsk).
  destruct (parseOpt_works_spec (workExperience d) (σ ++ ext1)) as (ext2 & o2 & Hp2 & Hws).
  eexists (ext1 ++ ext2 ++ [_]), (length ((σ ++ ext1) ++ ext2)), _.
  split; [|split].
  - unfold parse. op_unfold. rewrite Hp1, Hp2. by rewrite <- !app_assoc.
  - rewrite !app_assoc. split; [by apply list_lookup_middle|].
    split; [rewrite !length_app; lia|]. simpl. split.
    + apply (keeps_skillsAt _ (σ ++ ext1)); [|done].
      eapply keeps_trans; apply keeps_app.
    + apply (keeps_worksAt _ ((σ ++ ext1) ++ ext2)); [apply keeps_app|].
      eapply worksAt_weaken; [|exact Hws]. rewrite length_app. lia.
  - by destruct d.
Qed.

(** *** The three assignments to the clone *)

Lemma filterUnseen_Forall2 {A B} (kA : A → jsstring) (kB : B → jsstring)
    (R : A → B → Prop) (seen : gset jsstring) (l1 : list A) (l2 : list B) :
  (∀ a b, R a b → kA a = kB b) → Forall2 R l1 l2 →
  Forall2 R (filterUnseen kA seen l1) (filterUnseen kB seen l2).
Proof.
  intros Hk Hall. revert seen.
  induction Hall as [|a b l1 l2 Hab _ IH]; intros seen; [constructor|].
  simpl. rewrite (Hk a b Hab). destruct (_ || _); [apply IH|].
  constructor; [done | apply IH].
Qed.

Lemma filterUnseen_slotRefs (P : loc → Prop) (key : Slot → jsstring)
    (seen : gset jsstring) (slots : list Slot) :
  Forall P (slotRefs slots) → Forall P (slotRefs (filterUnseen key seen slots)).
Proof.
  revert seen. induction slots as [|s r IH]; intros seen Hall; [done|].
  assert (Hr : Forall P (slotRefs r)).
  { destruct s; [by apply Forall_cons in Hall as [_ ?] | done]. }
  simpl. destruct (_ || _); [by apply IH|].
  destruct s as [l|x]; simpl; [|by apply IH].
  apply Forall_cons in Hall as [Hl _]. constructor; [done | by apply IH].
Qed.

Lemma draftAt_lt (n : nat) (c : loc) (σ : Heap) (doc : Doc)
    (sk : option (list SkillEntry)) (ws : option (list WorkExperience)) :
  draftAt n c σ doc sk ws → (n ≤ c)%nat ∧ (c < length σ)%nat.
Proof. intros (Hc & Hn & _). split; [done|]. by eapply lookup_lt_Some. Qed.

(** Assigning a property of the draft at [c], after the heap grew by
    [ext]. *)
Lemma assign_spec (n : nat) (c : loc) (σ ext : Heap) (doc : Doc) (f : Doc → Doc) :
  σ !! c = Some (CDoc doc) → (n ≤ c)%nat →
  let σ' := <[c := CDoc (f doc)]> (σ ++ ext) in
  modifyDoc c f (σ ++ ext) = Some (σ', tt)
  ∧ σ' !! c = Some (CDoc (f doc))
  ∧ keeps σ σ' ∧ keeps (σ ++ ext) σ' ∧ agree n σ σ'.
Proof.
  intros Hc Hn σ'.
  assert (Hc' : (σ ++ ext) !! c = Some (CDoc doc)) by by apply lookup_app_l_Some.
  assert (Hlt : (c < length σ)%nat) by by eapply lookup_lt_Some.
  assert (Hk : keeps (σ ++ ext) σ') by by eapply keeps_insert.
  split; [|split; [|split; [|split]]].
  - unfold modifyDoc. apply lookupDoc_Some in Hc'. by rewrite Hc'.
  - apply list_lookup_insert_eq. rewrite length_app. lia.
  - eapply keeps_trans; [apply keeps_app | exact Hk].
  - exact Hk.
  - eapply agree_trans; [apply agree_app; lia | by apply agree_insert].
Qed.

Lemma dedupeStep_spec (n : nat) (c : loc) (σ : Heap) (doc : Doc)
    (sk : option (list SkillEntry)) (ws : option (list WorkExperience)) :
  draftAt n c σ doc sk ws →
  ∃ σ' a',
    dedupeStep c σ = Some (σ', tt)
    ∧ draftAt n c σ' (setSkills a' doc) (dedupeSkills <$> sk) ws
    ∧ agree n σ σ'.
Proof.
  intros Hdraft. destruct (draftAt_lt _ _ _ _ _ _ Hdraft) as [Hnc Hlt].
  destruct Hdraft as (Hc & _ & Hsk & Hws).
  pose proof Hc as Hdoc. apply lookupDoc_Some in Hdoc.
  destruct (doc_skills doc) as [a|] eqn:Hskills, sk as [es|]; try done.
  - destruct Hsk as (slots & Ha & Hall & Hna & Hfresh).
    pose proof Ha as Hslots. apply lookupSlots_Some in Hslots.
    set (kept := filterUnseen (slotKey σ) ∅ slots).
    destruct (assign_spec n c σ [CSkills kept] doc (setSkills (Some (length σ))) Hc Hnc)
      as (Hmod & Hc' & Hk & _ & Hag).
    eexists _, (Some (length σ)). split; [|split; [|exact Hag]].
    + unfold dedupeStep. op_unfold. rewrite Hdoc, Hskills, Hslots. exact Hmod.
    + split; [exact Hc'|]. split; [done|]. split; [|by eapply keeps_worksAt].
      exists kept. split; [|split; [|split]].
      * rewrite list_lookup_insert_ne by lia. by apply list_lookup_middle.
      * eapply Forall2_impl.
        { apply (filterUnseen_Forall2 _ skillKey _ ∅ slots es); [|exact Hall].
          intros s e Hse. unfold slotKey. by rewrite Hse. }
        intros s e. by apply keeps_lookupSkill.
      * lia.
      * by apply filterUnseen_slotRefs.
  - exists σ, None. split; [|split; [|apply agree_refl]].
    + unfold dedupeStep. op_unfold. by rewrite Hdoc, Hskills.
    + assert (setSkills None doc = doc) as ->.
      { destruct doc. simpl in *. by subst. }
      repeat split; try done. by rewrite Hskills.
Qed.

Lemma bulletizeAll_spec (refs : list loc) (ws : list WorkExperience) (σ : Heap) :
  Forall2 (λ r w, lookupWork σ r = Some w) refs ws →
  ∃ ext refs',
    bulletizeAll refs σ = Some (σ ++ ext, refs')
    ∧ Forall2 (λ r w, lookupWork (σ ++ ext) r = Some w) refs' (List.map bulletize ws)
    ∧ Forall (le (length σ)) refs'.
Proof.
  revert ws σ. induction refs as [|r refs IH]; intros ws σ Hall.
  - apply Forall2_nil_inv_l in Hall as ->. exists [], [].
    rewrite app_nil_r. repeat split; constructor.
  - apply Forall2_cons_inv_l in Hall as (w & ws' & Hw & Hall & ->).
    destruct (IH ws' (σ ++ [CWork (bulletize w)])) as (ext & refs' & Hp & Hall' & Hfresh).
    { eapply Forall2_impl; [exact Hall|]. intros r' w'.
      apply keeps_lookupWork, keeps_app. }
    exists (CWork (bulletize w) :: ext), (length σ :: refs').
    rewrite <- app_assoc in Hp, Hall'. simpl in Hp, Hall'.
    split; [|split].
    + cbn [bulletizeAll]. op_unfold. by rewrite Hw, Hp.
    + simpl. constructor; [|done]. apply lookupWork_Some. by apply list_lookup_middle.
    + constructor; [done|]. eapply Forall_impl; [exact Hfresh|].
      intros l. rewrite length_app. simpl. lia.
Qed.

Lemma bulletizeStep_spec (n : nat) (c : loc) (σ : Heap) (doc : Doc)
    (sk : option (list SkillEntry)) (ws : option (list WorkExperience)) :
  draftAt n c σ doc sk ws →
  ∃ σ' b',
    bulletizeStep c σ = Some (σ', tt)
    ∧ draftAt n c σ' (setWorkExperience b' doc) sk (List.map bulletize <$> ws)
    ∧ agree n σ σ'.
Proof.
  intros Hdraft. destruct (draftAt_lt _ _ _ _ _ _ Hdraft) as [Hnc Hlt].
  destruct Hdraft as (Hc & _ & Hsk & Hws).
  pose proof Hc as Hdoc. apply lookupDoc_Some in Hdoc.
  destruct (doc_workExperience doc) as [b|] eqn:Hwork, ws as [l|]; try done.
  - destruct Hws as (refs & Hb & Hall & Hnb & Hfresh).
    pose proof Hb as Hrefs. apply lookupRefs_Some in Hrefs.
    destruct (bulletizeAll_spec refs l σ Hall) as (ext & refs' & Hp & Hall' & Hfresh').
    destruct (assign_spec n c σ (ext ++ [CWorks refs']) doc
                (setWorkExperience (Some (length (σ ++ ext)))) Hc Hnc)
      as (Hmod & Hc' & Hk & Hk' & Hag).
    eexists _, (Some (length (σ ++ ext))). split; [|split; [|exact Hag]].
    + unfold bulletizeStep. op_unfold. rewrite Hdoc, Hwork, Hrefs, Hp.
      rewrite <- app_assoc. exact Hmod.
    + split; [exact Hc'|]. split; [done|].
      split; [apply (keeps_skillsAt n σ); [exact Hk | exact Hsk]|].
      exists refs'. split; [|split; [|split]].
      * rewrite list_lookup_insert_ne by (rewrite length_app; lia).
        rewrite app_assoc. by apply list_lookup_middle.
      * eapply Forall2_impl; [exact Hall'|]. intros r w Hr.
        apply (keeps_lookupWork (σ ++ ext ++ [CWorks refs'])); [exact Hk'|].
        rewrite app_assoc. by apply (keeps_lookupWork (σ ++ ext)); [apply keeps_app|].
      * rewrite length_app. lia.
      * eapply Forall_impl; [exact Hfresh'|]. intros r. simpl. lia.
  - exists σ, None. split; [|split; [|apply agree_refl]].
    + unfold bulletizeStep. op_unfold. by rewrite Hdoc, Hwork.
    + assert (setWorkExperience None doc = doc) as ->.
      { destruct doc. simpl in *. by subst. }
      repeat split; try done. by rewrite Hwork.
Qed.

Lemma readRoleGuess_spec (n : nat) (σ : Heap) (doc : Doc)
    (ws : option (list WorkExperience)) :
  worksAt n σ (doc_workExperience doc) ws →
  readRoleGuess doc σ = Some (σ, roleGuessOf ws).
Proof.
  unfold readRoleGuess.
  destruct (doc_workExperience doc) as [b|], ws as [l|]; try done.
  intros (refs & Hb & Hall & _). apply lookupRefs_Some in Hb.
  op_unfold. rewrite Hb.
  destruct Hall as [|r w refs' l' Hw _]; [done|]. by rewrite Hw.
Qed.

Lemma summaryStep_spec (n : nat) (c : loc) (σ : Heap) (doc : Doc)
    (sk : option (list SkillEntry)) (ws : option (list WorkExperience)) :
  draftAt n c σ doc sk ws →
  ∃ σ',
    summaryStep c σ = Some (σ', tt)
    ∧ draftAt n c σ'
        (setSummary
           (Some (tidySummary
                    (orLit (doc_summary doc)
                       (synthesizedOf (roleGuessOf ws) (topSkillsOf sk)))))
           doc) sk ws
    ∧ agree n σ σ'.
Proof.
  intros Hdraft. destruct (draftAt_lt _ _ _ _ _ _ Hdraft) as [Hnc Hlt].
  destruct Hdraft as (Hc & _ & Hsk & Hws).
  pose proof Hc as Hdoc. apply lookupDoc_Some in Hdoc.
  set (f := setSummary
              (Some (tidySummary
                       (orLit (doc_summary doc)
                          (synthesizedOf (roleGuessOf ws) (topSkillsOf sk)))))).
  destruct (assign_spec n c σ [] doc f Hc Hnc) as (Hmod & Hc' & Hk & _ & Hag).
  rewrite app_nil_r in Hmod, Hc', Hk, Hag.
  eexists. split; [|split; [|exact Hag]].
  - unfold summaryStep.
    unfold mbind at 1 2 3, op_mbind, reading.
    rewrite Hdoc, (skillsAt_lookup n σ _ sk Hsk), (readRoleGuess_spec n σ doc ws Hws).
    exact Hmod.
  - split; [exact Hc'|]. split; [done|].
    split; [by eapply keeps_skillsAt | by eapply keeps_worksAt].
Qed.

End StepFacts.

Section StoreClaim.
Context `{CaseMapping}.

Lemma agree_lookup (σ σ' : Store.Heap) (l : Store.loc) (cell : Store.Cell) :
  Store.agree (length σ) σ σ' → σ !! l = Some cell → σ' !! l = Some cell.
Proof. intros Hag Hl. rewrite Hag; [done|]. by eapply lookup_lt_Some. Qed.

Lemma agree_snapshot (σ σ' : Store.Heap) (l : Store.loc) (d : ResumeData) :
  Store.agree (length σ) σ σ' → Store.snapshot l σ = Some d → Store.snapshot l σ' = Some d.
Proof.
  intros Hag. assert (Hk : Store.keeps σ σ').
  { intros l' c Hl' _. by apply (agree_lookup σ). }
  unfold Store.snapshot.
  destruct (Store.lookupDoc l σ) as [doc|] eqn:Hdoc; [|done].
  apply lookupDoc_Some in Hdoc. apply (agree_lookup σ σ' _ _ Hag) in Hdoc.
  apply lookupDoc_Some in Hdoc. rewrite Hdoc. simpl.
  destruct (Store.lookupOpt Store.lookupSkills _ σ) as [sk|] eqn:Hsk; [|done].
  rewrite (keeps_lookupOpt Store.lookupSkills σ σ' _ sk); [|by intros; eapply keeps_lookupSkills|done].
  simpl.
  destruct (Store.lookupOpt Store.lookupWorks _ σ) as [ws|] eqn:Hws; [|done].
  by rewrite (keeps_lookupOpt Store.lookupWorks σ σ' _ ws);
    [|by intros; eapply keeps_lookupWorks|done].
Qed.

(** Claim C9.  For every heap and every draft on it, of value [d]:
    [enhanceResume] ends; every object that was on the heap is on the
    heap afterwards, as it was, so the draft handed in still has the
    value [d]; the draft returned, its arrays and their elements are
    all new objects; and the value of the draft returned is a function
    of [d] alone. *)
Theorem enhanceResume_leaves_input (data : Store.loc) (σ : Store.Heap) (d : ResumeData) :
  Store.snapshot data σ = Some d →
  ∃ σ' clone,
    Store.enhanceResume data σ = Some (σ', clone)
    ∧ (∀ l cell, σ !! l = Some cell → σ' !! l = Some cell)
    ∧ Store.snapshot data σ' = Some d
    ∧ Forall (le (length σ)) (Store.reachable clone σ')
    ∧ Store.snapshot clone σ' = Some (enhanceResume d).
Proof.
  intros Hd.
  destruct (parse_spec d σ) as (ext & clone & doc0 & Hparse & H0 & Hval).
  assert (Hag0 : Store.agree (length σ) σ (σ ++ ext)) by by apply agree_app.
  destruct (dedupeStep_spec _ _ _ _ _ _ H0) as (σ1 & a' & Hstep1 & H1 & Hag1).
  destruct (bulletizeStep_spec _ _ _ _ _ _ H1) as (σ2 & b' & Hstep2 & H2 & Hag2).
  destruct (summaryStep_spec _ _ _ _ _ _ H2) as (σ3 & Hstep3 & H3 & Hag3).
  assert (Hag : Store.agree (length σ) σ σ3).
  { apply (agree_trans _ _ σ2); [|exact Hag3].
    apply (agree_trans _ _ σ1); [|exact Hag2].
    by apply (agree_trans _ _ (σ ++ ext)). }
  destruct (draftAt_snapshot _ _ _ _ _ _ H3) as [Hsnap Hfresh].
  exists σ3, clone. split; [|split; [|split; [|split]]].
  - unfold Store.enhanceResume.
    unfold mbind, Store.op_mbind, Store.reading. rewrite Hd, Hparse, Hstep1, Hstep2, Hstep3.
    done.
  - intros l cell. by apply agree_lookup.
  - by apply (agree_snapshot σ).
  - exact Hfresh.
  - rewrite Hsnap. f_equal. clear -Hval.
    destruct d, doc0. unfold Store.valueOf in *. simpl in *.
    inversion Hval; subst. reflexivity.
Qed.

End StoreClaim.

(** The heap that holds [sampleDraft] alone. *)
Lemma enhanceResume_leaves_input_witness :
  ∃ σ' clone,
    @Store.enhanceResume asciiCase sampleLoc sampleHeap = Some (σ', clone)
    ∧ (∀ l cell, sampleHeap !! l = Some cell → σ' !! l = Some cell)
    ∧ Store.snapshot sampleLoc σ' = Some sampleDraft
    ∧ Forall (le (length sampleHeap)) (Store.reachable clone σ')
    ∧ Store.snapshot clone σ' = Some (@enhanceResume asciiCase sampleDraft).
Proof.
  apply (@enhanceResume_leaves_input asciiCase sampleLoc sampleHeap sampleDraft).
  reflexivity.
Defined.

(** On that heap the clone is the object at location 15, beyond the 8
    objects that were there. *)
Example enhanceResume_sample_clone :
  snd <$> @Store.enhanceResume asciiCase sampleLoc sampleHeap = Some 15%nat
  ∧ length sampleHeap = 8%nat.
Proof. by vm_compute. Qed.

(** ** The backend address and the catalog calls *)

Lemma dropFinalSlash_snoc (u : jsstring) (c : N) :
  dropFinalSlash (u ++ [c]) = if c =? 47 then u else u ++ [c].
Proof.
  induction u as [|a u IH]; [done|].
  change ((a :: u) ++ [c]) with (a :: (u ++ [c])).
  cbn [dropFinalSlash]. rewrite IH.
  destruct (u ++ [c]) as [|b r] eqn:Hu; [by destruct u|].
  by destruct (c =? 47).
Qed.

Lemma dropFinalSlash_cases (s : jsstring) :
  (last s ≠ Some 47 ∧ dropFinalSlash s = s)
  ∨ (s = dropFinalSlash s ++ [47]).
Proof.
  destruct s as [|a r] using rev_ind; [by left|].
  rewrite dropFinalSlash_snoc, last_snoc.
  destruct (a =? 47) eqn:Ha; [right | left].
  - apply N.eqb_eq in Ha. by subst.
  - apply N.eqb_neq in Ha. split; [|done]. by intros [= ->].
Qed.

Lemma getBackendUrl_nonempty (env : Env) : getBackendUrl env ≠ [].
Proof.
  unfold getBackendUrl.
  destruct (VITE_BACKEND_URL env) as [[|c r]|], (DEV env); done.
Qed.

Lemma getBackendUrl_default (env : Env) :
  truthyStr (VITE_BACKEND_URL env) = false →
  getBackendUrl env = if DEV env then developmentUrl else productionUrl.
Proof.
  unfold getBackendUrl. by destruct (VITE_BACKEND_URL env) as [[|c r]|].
Qed.

(** X1.  The base address of the backend is the configured address
    ([VITE_BACKEND_URL] when it is a non-empty string, otherwise the
    development or the production address) with one final slash
    removed, and only one: an address [u/] gives [u], an address that
    does not end in a slash is kept.  The default addresses are kept as
    they are.  The base is empty exactly when the configured address is
    the single slash, and the address requested for a path is always
    the base followed by the path. *)
Theorem getBackendBaseUrl_slash (env : Env) :
  getBackendUrl env ≠ []
  ∧ (∀ u, getBackendUrl env = u ++ lit "/" → getBackendBaseUrl env = u)
  ∧ (last (getBackendUrl env) ≠ Some 47 → getBackendBaseUrl env = getBackendUrl env)
  ∧ (truthyStr (VITE_BACKEND_URL env) = false →
     getBackendBaseUrl env = if DEV env then developmentUrl else productionUrl)
  ∧ (getBackendBaseUrl env = [] ↔ VITE_BACKEND_URL env = Some (lit "/"))
  ∧ (∀ path, endpoint (getBackendBaseUrl env) path = getBackendBaseUrl env ++ lit path).
Proof.
  unfold getBackendBaseUrl.
  split; [apply getBackendUrl_nonempty|].
  split.
  { intros u ->. change (lit "/") with [47]. by rewrite dropFinalSlash_snoc. }
  split.
  { intros Hl. destruct (dropFinalSlash_cases (getBackendUrl env)) as [[_ ?]|Heq]; [done|].
    rewrite Heq, last_snoc in Hl. done. }
  split.
  { intros Hv. rewrite (getBackendUrl_default env Hv). by destruct (DEV env). }
  split.
  { split.
    - intros Hb.
      destruct (dropFinalSlash_cases (getBackendUrl env)) as [[_ Heq]|Heq].
      + rewrite Heq in Hb. by destruct (getBackendUrl_nonempty env).
      + rewrite Hb in Heq. simpl in Heq. unfold getBackendUrl in Heq.
        destruct (VITE_BACKEND_URL env) as [[|c r]|]; [| by rewrite Heq | ];
          by destruct (DEV env).
    - unfold getBackendUrl. by intros ->. }
  intros path. unfold endpoint. by destruct (dropFinalSlash _).
Qed.

(** The configured address [https://api.example.com/]. *)
Lemma getBackendBaseUrl_slash_witness :
  getBackendBaseUrl configuredEnv = lit "https://api.example.com".
Proof.
  destruct (getBackendBaseUrl_slash configuredEnv) as (_ & Hstrip & _).
  apply Hstrip. reflexivity.
Defined.

Section CatalogFacts.
Context {D J : Type} `{Host J}.

(** X2.  [listTemplates] sends one request, [GET] of the base followed
    by [/templates], whatever comes of it.  A rejected request ends in
    the error of the rejection; a response whose status is outside
    200..299 ends in the error [Templates fetch failed (status): ]
    followed by the body of the response, or by its status text when
    the body is empty or cannot be read; a response within 200..299
    gives what the parser makes of the body, value or error. *)
Theorem listTemplates_outcome (base : jsstring) (w : World D)
    (log : list (HttpRequest D)) :
  let request :=
    {| req_url := base ++ lit "/templates"; req_method := GET; req_body := NoBody |} in
  (listTemplates (J := J) base w log).2 = log ++ [request]
  ∧ (∀ e, net w request = inl e → (listTemplates (J := J) base w log).1 = inl e)
  ∧ (∀ res, net w request = inr res → (status res < 200 ∨ 299 < status res) →
       (listTemplates (J := J) base w log).1
       = inl (lit "Templates fetch failed (" ++ decimal (status res) ++ lit "): "
              ++ failureText res))
  ∧ (∀ res, net w request = inr res → 200 ≤ status res ≤ 299 →
       (listTemplates base w log).1
       = match body res with
         | Some bs => jsonParse bs
         | None => inl bodyUnreadable
         end).
Proof.
  intros request.
  assert (endpoint base "/templates" = base ++ lit "/templates") as Hurl.
  { unfold endpoint. by destruct base. }
  unfold listTemplates, failureText. rewrite Hurl. fold request. io_unfold.
  split.
  { destruct (net w request) as [e|res]; [done|].
    destruct (ok res), (body res) as [bs|]; simpl; try done.
    by destruct (jsonParse bs). }
  split.
  { by intros e ->. }
  split.
  { intros res -> Hst. assert (ok res = false) as -> by (unfold ok; lia).
    simpl. destruct (body res) as [bs|]; [|done]. by destruct (utf8Decode bs). }
  intros res -> Hst. assert (ok res = true) as -> by (unfold ok; lia).
  simpl. destruct (body res) as [bs|]; [|done]. by destruct (jsonParse bs).
Qed.

(** X3.  [exportPdf] sends one request, [GET] of the base followed by
    [/export-pdf].  A response within 200..299 gives the bytes of its
    body, unchanged; a response outside 200..299 ends in the error
    [Export failed (status): ] followed by the body, or by the status
    text when the body is empty or cannot be read; a rejected request
    ends in the error of the rejection. *)
Theorem exportPdf_outcome (base : jsstring) (w : World D)
    (log : list (HttpRequest D)) :
  let request :=
    {| req_url := base ++ lit "/export-pdf"; req_method := GET; req_body := NoBody |} in
  (exportPdf (J := J) base w log).2 = log ++ [request]
  ∧ (∀ e, net w request = inl e → (exportPdf (J := J) base w log).1 = inl e)
  ∧ (∀ res, net w request = inr res → (status res < 200 ∨ 299 < status res) →
       (exportPdf (J := J) base w log).1
       = inl (lit "Export failed (" ++ decimal (status res) ++ lit "): "
              ++ failureText res))
  ∧ (∀ res bs, net w request = inr res → 200 ≤ status res ≤ 299 →
       body res = Some bs → (exportPdf (J := J) base w log).1 = inr bs)
  ∧ (∀ res, net w request = inr res → 200 ≤ status res ≤ 299 →
       body res = None → (exportPdf (J := J) base w log).1 = inl bodyUnreadable).
Proof.
  intros request.
  assert (endpoint base "/export-pdf" = base ++ lit "/export-pdf") as Hurl.
  { unfold endpoint. by destruct base. }
  unfold exportPdf, failureText. rewrite Hurl. fold request. io_unfold.
  split.
  { destruct (net w request) as [e|res]; [done|].
    by destruct (ok res), (body res) as [bs|]. }
  split.
  { by intros e ->. }
  split.
  { intros res -> Hst. assert (ok res = false) as -> by (unfold ok; lia).
    simpl. destruct (body res) as [bs|]; [|done]. by destruct (utf8Decode bs). }
  split.
  - intros res bs -> Hst Hb. assert (ok res = true) as -> by (unfold ok; lia).
    simpl. by rewrite Hb.
  - intros res -> Hst Hb. assert (ok res = true) as -> by (unfold ok; lia).
    simpl. by rewrite Hb.
Qed.

End CatalogFacts.

(** A backend that answers [/templates] with status 503 and an empty
    body: the error carries the status and the status text. *)
Lemma listTemplates_outcome_witness :
  (@listTemplates unit _ asciiHost (lit "http://localhost:8000")
     (answering unavailable) []).1
  = inl (lit "Templates fetch failed (503): Service Unavailable").
Proof.
  destruct (@listTemplates_outcome unit _ asciiHost (lit "http://localhost:8000")
              (answering unavailable) []) as (_ & _ & Hfail & _).
  apply (Hfail unavailable); [reflexivity | right; reflexivity].
Defined.

(** A backend that answers [/export-pdf] with the four bytes [%PDF]. *)
Lemma exportPdf_outcome_witness :
  (@exportPdf unit _ asciiHost (lit "http://localhost:8000")
     (answering pdfResponse) []).1
  = inr (bytesOf "%PDF").
Proof.
  destruct (@exportPdf_outcome unit _ asciiHost (lit "http://localhost:8000")
              (answering pdfResponse) []) as (_ & _ & _ & Hok & _).
  apply (Hok pdfResponse (bytesOf "%PDF")); [reflexivity | | reflexivity].
  split; intros Hc; discriminate Hc.
Defined.

(** ** The text that the enhancement engine writes *)

Section SpacingFacts.

Lemma spacedOnce_fixed (b : bool) (s : jsstring) :
  spacedOnce b s = true → compactFrom b s = s.
Proof.
  revert b. induction s as [|c r IH]; intros b Hs; [done|].
  simpl in *. destruct (isWhiteSpace c).
  - apply andb_true_iff in Hs as [Hs Hr]. apply andb_true_iff in Hs as [Hc Hb].
    apply N.eqb_eq in Hc as ->. destruct b; [done|]. by rewrite (IH true).
  - by rewrite (IH false).
Qed.

Lemma compactFrom_spacedOnce (b : bool) (s : jsstring) :
  spacedOnce b (compactFrom b s) = true.
Proof.
  revert b. induction s as [|c r IH]; intros b; [done|].
  simpl. destruct (isWhiteSpace c) eqn:Hc.
  - destruct b; [apply IH|]. simpl. apply IH.
  - simpl. rewrite Hc. apply IH.
Qed.

Lemma spacedOnce_weaken (b : bool) (s : jsstring) :
  spacedOnce b s = true → spacedOnce false s = true.
Proof.
  destruct s as [|c r]; [done|]. simpl. destruct (isWhiteSpace c); [|done].
  intros Hs. apply andb_true_iff in Hs as [Hs Hr]. apply andb_true_iff in Hs as [Hc _].
  by rewrite Hc, Hr.
Qed.

Lemma spacedOnce_take (b : bool) (n : nat) (s : jsstring) :
  spacedOnce b s = true → spacedOnce b (take n s) = true.
Proof.
  revert b n. induction s as [|c r IH]; intros b [|n] Hs; try done.
  simpl in *. destruct (isWhiteSpace c).
  - apply andb_true_iff in Hs as [Hs Hr]. rewrite Hs. by apply IH.
  - by apply IH.
Qed.

Lemma spacedOnce_plain (b : bool) (m : jsstring) :
  Forall (λ c, isWhiteSpace c = false) m → spacedOnce b m = true.
Proof.
  intros Hm. revert b. induction Hm as [|c r Hc _ IH]; intros b; [done|].
  simpl. rewrite Hc. apply IH.
Qed.

Lemma spacedOnce_app_plain (b : bool) (s m : jsstring) :
  spacedOnce b s = true → Forall (λ c, isWhiteSpace c = false) m →
  spacedOnce b (s ++ m) = true.
Proof.
  intros Hs Hm. revert b Hs. induction s as [|c r IH]; intros b Hs.
  - by apply spacedOnce_plain.
  - simpl in *. destruct (isWhiteSpace c).
    + apply andb_true_iff in Hs as [Hs Hr]. rewrite Hs. by apply IH.
    + by apply IH.
Qed.

Lemma spacedOnce_dropWhile (b : bool) (s : jsstring) :
  spacedOnce b s = true → spacedOnce false (dropWhile isWhiteSpace s) = true.
Proof.
  revert b. induction s as [|c r IH]; intros b Hs; [done|].
  simpl in *. destruct (isWhiteSpace c) eqn:Hc.
  - apply andb_true_iff in Hs as [_ Hr]. by apply (IH true).
  - simpl. by rewrite Hc.
Qed.

Lemma spacedOnce_dropWhileEnd (b : bool) (s : jsstring) :
  spacedOnce b s = true → spacedOnce b (dropWhileEnd isWhiteSpace s) = true.
Proof.
  revert b. induction s as [|c r IH]; intros b Hs; [done|].
  cbn [dropWhileEnd]. cbn [spacedOnce] in Hs.
  destruct (dropWhileEnd isWhiteSpace r) as [|d r'] eqn:Hd.
  - destruct (isWhiteSpace c) eqn:Hc; [done|]. simpl. by rewrite Hc.
  - change (spacedOnce b (c :: d :: r'))
      with (if isWhiteSpace c
            then (c =? 32) && negb b && spacedOnce true (d :: r')
            else spacedOnce false (d :: r')).
    destruct (isWhiteSpace c).
    + apply andb_true_iff in Hs as [Hs Hr]. rewrite Hs. by apply IH.
    + by apply IH.
Qed.

Lemma spacedOnce_adjacent (b : bool) (s : jsstring) (i : nat) :
  spacedOnce b s = true → s !! i = Some 32 → s !! S i ≠ Some 32.
Proof.
  revert b i. induction s as [|c r IH]; intros b i Hs Hi; [done|].
  cbn [spacedOnce] in Hs. destruct i as [|i].
  - injection Hi as ->. change (isWhiteSpace 32) with true in Hs. cbn iota in Hs.
    apply andb_true_iff in Hs as [_ Hr].
    destruct r as [|d r]; [done|]. simpl. intros [= ->]. done.
  - apply (IH (if isWhiteSpace c then true else false)); [|done].
    destruct (isWhiteSpace c); [|done]. by apply andb_true_iff in Hs as [_ ?].
Qed.

Lemma clip_spacedOnce (t : jsstring) :
  spacedOnce false t = true → spacedOnce false (clip t) = true.
Proof.
  intros Ht. unfold clip, slice0. destruct (220 <? length t)%nat; [|done].
  apply spacedOnce_app_plain; [by apply spacedOnce_take|].
  repeat (constructor; [reflexivity|]). constructor.
Qed.

Lemma dropWhile_head (s : jsstring) (c : N) (r : jsstring) :
  dropWhile isWhiteSpace s = c :: r → isWhiteSpace c = false.
Proof.
  induction s as [|a s IH]; [done|]. simpl.
  destruct (isWhiteSpace a) eqn:Ha; [done|]. by intros [= <- _].
Qed.

Lemma trim_head (s : jsstring) (c : N) (r : jsstring) :
  trim s = c :: r → isWhiteSpace c = false.
Proof.
  unfold trim. destruct (dropWhile isWhiteSpace s) as [|a s'] eqn:Hs; [done|].
  destruct (dropWhileEnd_head isWhiteSpace a s') as [->|[r' ->]]; [done|].
  intros [= <- _]. by apply (dropWhile_head s a s').
Qed.

Lemma dropWhile_all (s : jsstring) :
  Forall (λ c, isWhiteSpace c = true) s → dropWhile isWhiteSpace s = [].
Proof. induction 1 as [|c r Hc _ IH]; [done|]. simpl. by rewrite Hc. Qed.

Lemma compactFrom_all (s : jsstring) :
  Forall (λ c, isWhiteSpace c = true) s → compactFrom true s = [].
Proof. induction 1 as [|c r Hc _ IH]; [done|]. simpl. by rewrite Hc. Qed.

Lemma tidySummary_blank (s : jsstring) :
  Forall (λ c, isWhiteSpace c = true) s → tidySummary s = [].
Proof.
  intros Hs. unfold tidySummary, compactWhitespace, trim, slice0.
  destruct Hs as [|c r Hc Hr]; [done|].
  simpl. rewrite Hc, (compactFrom_all r Hr). reflexivity.
Qed.

Lemma tidySummary_shape (x : jsstring) :
  (length (tidySummary x) ≤ 350)%nat
  ∧ compactWhitespace (tidySummary x) = tidySummary x
  ∧ (∀ c r, tidySummary x = c :: r → isWhiteSpace c = false).
Proof.
  split; [apply tidySummary_length|]. split.
  - apply spacedOnce_fixed. unfold tidySummary, slice0, trim.
    apply spacedOnce_take, spacedOnce_dropWhileEnd.
    apply (spacedOnce_dropWhile false), compactFrom_spacedOnce.
  - unfold tidySummary, slice0. intros c r Hx.
    destruct (trim (compactWhitespace x)) as [|a t] eqn:Ht; [by rewrite take_nil in Hx|].
    simpl in Hx. injection Hx as <- _. by apply (trim_head (compactWhitespace x) a t).
Qed.

End SpacingFacts.

Section BulletFacts.
Context `{CaseMapping}.

Lemma strongVerbs_short : Forall (λ v, (0 < length v < 220)%nat) strongVerbs.
Proof. repeat (constructor; [simpl; lia|]). constructor. Qed.

Lemma hasVerb_split (t : jsstring) :
  hasVerb t = true ↔
  ∃ v pre rest, v ∈ strongVerbs ∧ t = pre ++ rest ∧ length pre = length v
    ∧ Forall (λ c, isTrailingJunk c = false) pre
    ∧ (∀ rest', matchPrefixCI v (pre ++ rest') = Some rest')
    ∧ atWordBoundary rest = true.
Proof.
  unfold hasVerb. rewrite existsb_exists. split.
  - intros (v & Hv & Hm). apply list_elem_of_In in Hv.
    destruct (matchPrefixCI v t) as [rest|] eqn:Hmatch; [|done].
    pose proof strongVerbs_letters as Hall. rewrite Forall_forall in Hall.
    destruct (Hall v Hv) as [_ Hlet].
    destruct (matchPrefixCI_split v t rest Hlet Hmatch) as (pre & -> & Hlen & Hpre & Hre).
    by exists v, pre, rest.
  - intros (v & pre & rest & Hv & -> & _ & _ & Hre & Hb).
    exists v. split; [by apply list_elem_of_In|]. by rewrite Hre.
Qed.

Lemma junk_whitespace (c : N) : isTrailingJunk c = false → isWhiteSpace c = false.
Proof. unfold isTrailingJunk. intros Hc. by apply orb_false_iff in Hc as [_ ?]. Qed.

Lemma compactFrom_plain_app (b : bool) (pre rest : jsstring) :
  pre ≠ [] → Forall (λ c, isWhiteSpace c = false) pre →
  compactFrom b (pre ++ rest) = pre ++ compactFrom false rest.
Proof.
  intros Hne Hpre. revert b. induction Hpre as [|c r Hc Hr IH]; intros b; [done|].
  simpl. rewrite Hc. f_equal. destruct r as [|d r']; [done|]. by apply IH.
Qed.

Lemma atWordBoundary_compact (rest : jsstring) :
  atWordBoundary rest = true → atWordBoundary (compactFrom false rest) = true.
Proof.
  destruct rest as [|c r]; [done|]. simpl. by destruct (isWhiteSpace c).
Qed.

Lemma hasVerb_compact (t : jsstring) :
  hasVerb t = true → hasVerb (compactWhitespace t) = true.
Proof.
  rewrite !hasVerb_split.
  intros (v & pre & rest & Hv & -> & Hlen & Hpre & Hre & Hb).
  exists v, pre, (compactFrom false rest).
  pose proof strongVerbs_short as Hs. rewrite Forall_forall in Hs.
  specialize (Hs v Hv).
  split; [done|]. split.
  - unfold compactWhitespace. apply compactFrom_plain_app.
    + intros ->. simpl in Hlen. lia.
    + eapply Forall_impl; [exact Hpre|]. apply junk_whitespace.
  - repeat split; try done. by apply atWordBoundary_compact.
Qed.

Lemma hasVerb_clip (t : jsstring) : hasVerb t = true → hasVerb (clip t) = true.
Proof.
  intros Ht. unfold clip, slice0. destruct (220 <? length t)%nat eqn:Hlong; [|done].
  apply Nat.ltb_lt in Hlong. revert Ht. rewrite !hasVerb_split.
  intros (v & pre & rest & Hv & -> & Hlen & Hpre & Hre & Hb).
  pose proof strongVerbs_short as Hs. rewrite Forall_forall in Hs.
  specialize (Hs v Hv).
  exists v, pre, (take (220 - length pre) rest ++ truncationMarker).
  split; [done|]. split.
  { rewrite take_app_ge by lia. by rewrite <- app_assoc. }
  repeat split; try done.
  destruct rest as [|c r]; [by rewrite take_nil|].
  destruct (220 - length pre)%nat as [|k] eqn:Hk; [lia|]. done.
Qed.

Lemma strongVerbs_pick (i : nat) :
  at_index strongVerbs (i mod length strongVerbs)%nat ∈ strongVerbs.
Proof.
  unfold at_index.
  destruct (strongVerbs !! (i mod length strongVerbs)%nat) as [v|] eqn:Hv.
  - simpl. by eapply list_elem_of_lookup_2.
  - apply lookup_ge_None in Hv.
    pose proof (Nat.mod_upper_bound i (length strongVerbs)) as Hlt.
    change (length strongVerbs) with 15%nat in *. lia.
Qed.

(** Every line that [bullet] makes starts with a verb of the list. *)
Lemma bullet_hasVerb (i : nat) (x : jsstring) : hasVerb (bullet i x) = true.
Proof.
  unfold bullet. apply hasVerb_clip, hasVerb_compact.
  destruct (hasVerb (stripTrailing (capitalize x))) eqn:Hx; [done|].
  apply hasVerb_intro; [apply strongVerbs_pick | done].
Qed.

Lemma hasVerb_head (t : jsstring) :
  hasVerb t = true → ∃ c r, t = c :: r ∧ isAsciiLetter (asciiLower c) = true
                            ∧ isWhiteSpace c = false.
Proof.
  rewrite hasVerb_split.
  intros (v & pre & rest & Hv & -> & Hlen & Hpre & Hre & Hb).
  pose proof strongVerbs_letters as Hall. rewrite Forall_forall in Hall.
  destruct (Hall v Hv) as [Hne Hlet].
  destruct v as [|p v]; [done|]. destruct pre as [|c pre]; [done|].
  exists c, (pre ++ rest). split; [done|].
  specialize (Hre []). simpl in Hre.
  destruct (asciiUpper c =? asciiUpper p) eqn:Hcp; [|done].
  apply Forall_cons in Hlet as [Hp _]. apply Forall_cons in Hpre as [Hc _].
  split; [|by apply junk_whitespace].
  clear -Hp Hcp. unfold isAsciiLetter, asciiLower, asciiUpper in *.
  revert Hp Hcp. char_cases.
Qed.

Lemma bullet_spacedOnce (i : nat) (x : jsstring) :
  compactWhitespace (bullet i x) = bullet i x.
Proof.
  apply spacedOnce_fixed. unfold bullet.
  apply clip_spacedOnce, compactFrom_spacedOnce.
Qed.

(** X4.  Every line that [normalizeBullets] emits starts with one of
    the fifteen verbs of the list, in any letter case, followed by the
    end of the line or by a character that is not a word character: a
    line that has none is given the verb at its index, modulo fifteen.
    So no emitted line is empty, and each starts with a letter. *)
Theorem normalizeBullets_verbs (text : jsstring) :
  normalizeBullets text = join [10] (take 6 (bullets text))
  ∧ Forall (λ l, hasVerb l = true
                 ∧ ∃ c r, l = c :: r ∧ isAsciiLetter (asciiLower c) = true)
      (take 6 (bullets text)).
Proof.
  split; [done|]. apply Forall_take. unfold bullets.
  apply Forall_imap_intro. intros i x. split; [apply bullet_hasVerb|].
  destruct (hasVerb_head _ (bullet_hasVerb i x)) as (c & r & Hl & Hc & _). eauto.
Qed.

(** X5.  In every line that [normalizeBullets] emits, white space is
    single spaces: the line has no tab, no line break and no other
    white-space character than the space, no space follows another
    (replacing the runs of white space again changes nothing), and the
    line does not start with a space. *)
Theorem normalizeBullets_spacing (text : jsstring) :
  normalizeBullets text = join [10] (take 6 (bullets text))
  ∧ Forall (λ l, compactWhitespace l = l
                 ∧ Forall (λ c, isWhiteSpace c = true → c = 32) l
                 ∧ (∀ i, l !! i = Some 32 → l !! S i ≠ Some 32)
                 ∧ head l ≠ Some 32)
      (take 6 (bullets text)).
Proof.
  split; [done|]. apply Forall_take. unfold bullets.
  apply Forall_imap_intro. intros i x.
  pose proof (bullet_spacedOnce i x) as Hfix.
  split; [exact Hfix|]. split.
  { rewrite <- Hfix. apply compactFrom_spaces. }
  split.
  { intros j. apply (spacedOnce_adjacent false). unfold bullet.
    apply clip_spacedOnce, compactFrom_spacedOnce. }
  destruct (hasVerb_head _ (bullet_hasVerb i x)) as (c & r & -> & _ & Hc).
  simpl. by intros [= ->].
Qed.

End BulletFacts.

Section SummaryMore.
Context `{CaseMapping}.

Lemma dropWhileEnd_nil_inv (p : N → bool) (s : jsstring) :
  dropWhileEnd p s = [] → Forall (λ c, p c = true) s.
Proof.
  induction s as [|c r IH]; [done|]. simpl.
  destruct (dropWhileEnd p r) as [|d r']; [|done].
  destruct (p c) eqn:Hc; [|done]. intros _. constructor; [done | by apply IH].
Qed.

Lemma dropWhile_nil_inv (p : N → bool) (s : jsstring) :
  dropWhile p s = [] → Forall (λ c, p c = true) s.
Proof.
  induction s as [|c r IH]; [done|]. simpl.
  destruct (p c) eqn:Hc; [|done]. intros Hr. constructor; [done | by apply IH].
Qed.

Lemma trim_nil_inv (s : jsstring) : trim s = [] → Forall (λ c, isWhiteSpace c = true) s.
Proof.
  unfold trim. intros Hs. apply dropWhile_nil_inv.
  destruct (dropWhile isWhiteSpace s) as [|c r] eqn:Hd; [done|].
  apply dropWhileEnd_nil_inv in Hs. apply Forall_cons in Hs as [Hc _].
  by rewrite (dropWhile_head s c r Hd) in Hc.
Qed.

Lemma compactFrom_blank_inv (b : bool) (s : jsstring) :
  Forall (λ c, isWhiteSpace c = true) (compactFrom b s) →
  Forall (λ c, isWhiteSpace c = true) s.
Proof.
  revert b. induction s as [|c r IH]; intros b Hs; [done|].
  simpl in Hs. destruct (isWhiteSpace c) eqn:Hc.
  - constructor; [done|]. destruct b; [by apply (IH true)|].
    apply Forall_cons in Hs as [_ Hs]. by apply (IH true).
  - apply Forall_cons in Hs as [Hs _]. by rewrite Hc in Hs.
Qed.

Lemma tidySummary_nil_inv (s : jsstring) :
  tidySummary s = [] → Forall (λ c, isWhiteSpace c = true) s.
Proof.
  unfold tidySummary, slice0, compactWhitespace. intros Hs.
  apply (compactFrom_blank_inv false), trim_nil_inv.
  by destruct (trim (compactFrom false s)).
Qed.

Lemma synthesizedOf_not_blank (roleGuess : jsstring) (topSkills : list NameOrSelf) :
  tidySummary (synthesizedOf roleGuess topSkills) ≠ [].
Proof.
  intros Hs. apply tidySummary_nil_inv in Hs. unfold synthesizedOf in Hs.
  change (lit "Results-driven ") with (82 :: lit "esults-driven ") in Hs.
  apply Forall_cons in Hs as [Hs _]. done.
Qed.

(** X6.  Whatever the draft, the enhanced draft has a summary of at
    most 350 characters in which white space is single spaces (no tab,
    no line break, no space after a space) and which does not start
    with a space. *)
Theorem enhanceResume_summary_tidy (data : ResumeData) :
  ∃ s, summary (enhanceResume data) = Some s
       ∧ (length s ≤ 350)%nat
       ∧ compactWhitespace s = s
       ∧ Forall (λ c, isWhiteSpace c = true → c = 32) s
       ∧ (∀ i, s !! i = Some 32 → s !! S i ≠ Some 32)
       ∧ head s ≠ Some 32.
Proof.
  eexists. split; [reflexivity|].
  set (x := orLit (summary data) _).
  destruct (tidySummary_shape x) as (Hlen & Hfix & Hhead).
  split; [exact Hlen|]. split; [exact Hfix|]. split.
  { rewrite <- Hfix. apply compactFrom_spaces. }
  split.
  { intros i. apply (spacedOnce_adjacent false).
    unfold tidySummary, slice0, trim.
    apply spacedOnce_take, spacedOnce_dropWhileEnd.
    apply (spacedOnce_dropWhile false), compactFrom_spacedOnce. }
  destruct (tidySummary x) as [|c r] eqn:Hx; [done|].
  simpl. intros [= ->]. by specialize (Hhead 32 r eq_refl).
Qed.

(** X7.  A summary that is not the empty string is never replaced by
    the synthesized sentence: the enhanced summary is that summary with
    its runs of white space replaced by one space, trimmed and cut to
    350 characters.  The enhanced summary is the empty string exactly
    when the summary of the draft is a non-empty string of white space
    only. *)
Theorem enhanceResume_keeps_summary (data : ResumeData) :
  (∀ s, summary data = Some s → s ≠ [] →
        summary (enhanceResume data) = Some (tidySummary s))
  ∧ (summary (enhanceResume data) = Some []
     ↔ ∃ s, summary data = Some s ∧ s ≠ []
            ∧ Forall (λ c, isWhiteSpace c = true) s).
Proof.
  assert (Hkeep : ∀ s, summary data = Some s → s ≠ [] →
                       summary (enhanceResume data) = Some (tidySummary s)).
  { intros s Hs Hne. unfold enhanceResume. simpl. rewrite Hs.
    by destruct s. }
  split; [exact Hkeep|]. split.
  - intros He. destruct (summary data) as [[|c r]|] eqn:Hs.
    + unfold enhanceResume in He. simpl in He. rewrite Hs in He. simpl in He.
      injection He as He. by apply synthesizedOf_not_blank in He.
    + exists (c :: r). split; [done|]. split; [done|].
      rewrite (Hkeep (c :: r) eq_refl) in He by done.
      injection He as He. by apply tidySummary_nil_inv.
    + unfold enhanceResume in He. simpl in He. rewrite Hs in He. simpl in He.
      injection He as He. by apply synthesizedOf_not_blank in He.
  - intros (s & Hs & Hne & Hall). rewrite (Hkeep s Hs Hne).
    by rewrite (tidySummary_blank s Hall).
Qed.

End SummaryMore.

(** A draft whose summary is three spaces: the enhanced summary is the
    empty string, not the synthesized sentence. *)
Lemma enhanceResume_keeps_summary_witness :
  summary (@enhanceResume asciiCase blankSummaryDraft) = Some [].
Proof.
  destruct (@enhanceResume_keeps_summary asciiCase blankSummaryDraft) as [_ Hblank].
  apply Hblank. exists (lit "   "). split; [reflexivity|]. split; [discriminate|].
  repeat (constructor; [reflexivity|]). constructor.
Defined.

(** ** The skills field *)

Section TrimFacts.

Lemma dropWhileEnd_idempotent (p : N → bool) (s : jsstring) :
  dropWhileEnd p (dropWhileEnd p s) = dropWhileEnd p s.
Proof.
  induction s as [|c r IH]; [done|]. cbn [dropWhileEnd].
  destruct (dropWhileEnd p r) as [|d r'] eqn:Hr.
  - destruct (p c) eqn:Hc; [done|]. simpl. by rewrite Hc.
  - change (dropWhileEnd p (c :: d :: r'))
      with (match dropWhileEnd p (d :: r') with
            | [] => if p c then [] else [c]
            | x => c :: x
            end).
    by rewrite IH.
Qed.

Lemma dropWhile_plain (p : N → bool) (c : N) (r : jsstring) :
  p c = false → dropWhile p (c :: r) = c :: r.
Proof. intros Hc. simpl. by rewrite Hc. Qed.

Lemma trim_idempotent (s : jsstring) : trim (trim s) = trim s.
Proof.
  destruct (trim s) as [|c r] eqn:Hs; [done|].
  pose proof (trim_head s c r Hs) as Hc.
  unfold trim at 1. rewrite (dropWhile_plain _ c r Hc).
  rewrite <- Hs. unfold trim. apply dropWhileEnd_idempotent.
Qed.

Lemma dropWhile_sublist (p : N → bool) (s : jsstring) : dropWhile p s `sublist_of` s.
Proof.
  induction s as [|c r IH]; [done|]. simpl. destruct (p c); [|done].
  by apply sublist_cons.
Qed.

Lemma dropWhileEnd_sublist (p : N → bool) (s : jsstring) :
  dropWhileEnd p s `sublist_of` s.
Proof.
  induction s as [|c r IH]; [done|]. cbn [dropWhileEnd].
  destruct (dropWhileEnd p r) as [|d r'] eqn:Hr.
  - destruct (p c); [apply sublist_nil_l|]. apply sublist_skip, sublist_nil_l.
  - by apply sublist_skip.
Qed.

Lemma trim_sublist (s : jsstring) : trim s `sublist_of` s.
Proof.
  unfold trim. etrans; [apply dropWhileEnd_sublist | apply dropWhile_sublist].
Qed.

Lemma elem_of_rev_iff {A} (x : A) (l : list A) : x ∈ rev l ↔ x ∈ l.
Proof. rewrite !list_elem_of_In. symmetry. apply List.in_rev. Qed.

Lemma dropWhileEnd_snoc (p : N → bool) (s : jsstring) (c : N) :
  p c = true → dropWhileEnd p (s ++ [c]) = dropWhileEnd p s.
Proof.
  intros Hc. induction s as [|a r IH]; [simpl; by rewrite Hc|].
  change ((a :: r) ++ [c]) with (a :: (r ++ [c])). cbn [dropWhileEnd]. by rewrite IH.
Qed.

Lemma dropWhile_snoc (p : N → bool) (s : jsstring) (c : N) :
  p c = true →
  dropWhile p (s ++ [c]) = match dropWhile p s with [] => [] | t => t ++ [c] end.
Proof.
  intros Hc. induction s as [|a r IH]; [simpl; by rewrite Hc|].
  simpl. destruct (p a); [exact IH | done].
Qed.

Lemma trim_snoc (s : jsstring) (c : N) :
  isWhiteSpace c = true → trim (s ++ [c]) = trim s.
Proof.
  intros Hc. unfold trim. rewrite (dropWhile_snoc _ s c Hc).
  destruct (dropWhile isWhiteSpace s) as [|a t]; [done|].
  by apply dropWhileEnd_snoc.
Qed.

Lemma trim_space (s : jsstring) : trim (32 :: s) = trim s.
Proof. reflexivity. Qed.

End TrimFacts.

Section SplitFacts.

Lemma splitOnFrom_plain (sep : N) (cur x : jsstring) :
  sep ∉ x → splitOnFrom sep cur x = [rev cur ++ x].
Proof.
  revert cur. induction x as [|c r IH]; intros cur Hx.
  - simpl. by rewrite app_nil_r.
  - apply not_elem_of_cons in Hx as [Hc Hr]. simpl.
    destruct (c =? sep) eqn:Heq; [apply N.eqb_eq in Heq; by subst|].
    rewrite IH by done. simpl. by rewrite <- app_assoc.
Qed.

Lemma splitOnFrom_app (sep : N) (cur x y : jsstring) :
  sep ∉ x →
  splitOnFrom sep cur (x ++ sep :: y) = (rev cur ++ x) :: splitOnFrom sep [] y.
Proof.
  revert cur. induction x as [|c r IH]; intros cur Hx.
  - simpl. by rewrite N.eqb_refl, app_nil_r.
  - apply not_elem_of_cons in Hx as [Hc Hr]. simpl.
    destruct (c =? sep) eqn:Heq; [apply N.eqb_eq in Heq; by subst|].
    rewrite IH by done. simpl. by rewrite <- app_assoc.
Qed.

Lemma splitOnFrom_pieces (sep : N) (cur s : jsstring) :
  sep ∉ cur → Forall (λ p, sep ∉ p) (splitOnFrom sep cur s).
Proof.
  revert cur. induction s as [|c r IH]; intros cur Hcur.
  - simpl. constructor; [|done]. by rewrite elem_of_rev_iff.
  - simpl. destruct (c =? sep) eqn:Heq.
    + constructor; [by rewrite elem_of_rev_iff|]. apply IH. apply not_elem_of_nil.
    + apply IH. apply not_elem_of_cons. split; [|done].
      apply N.eqb_neq in Heq. congruence.
Qed.

Lemma splitOnFrom_snoc_sep (sep : N) (cur s : jsstring) :
  splitOnFrom sep cur (s ++ [sep]) = splitOnFrom sep cur s ++ [[]].
Proof.
  revert cur. induction s as [|c r IH]; intros cur.
  - simpl. by rewrite N.eqb_refl.
  - simpl. destruct (c =? sep); [by rewrite IH | apply IH].
Qed.

Lemma splitOnFrom_snoc (sep : N) (cur s : jsstring) (c : N) :
  c ≠ sep →
  ∃ ps p, splitOnFrom sep cur s = ps ++ [p]
          ∧ splitOnFrom sep cur (s ++ [c]) = ps ++ [p ++ [c]].
Proof.
  intros Hc. revert cur. induction s as [|a r IH]; intros cur.
  - exists [], (rev cur). simpl.
    destruct (c =? sep) eqn:Heq; [apply N.eqb_eq in Heq; done|]. done.
  - simpl. destruct (a =? sep).
    + destruct (IH []) as (ps & p & -> & ->). by exists (rev cur :: ps), p.
    + apply IH.
Qed.

End SplitFacts.

Lemma filter_isNonEmpty_all (names : list jsstring) :
  Forall (λ n, n ≠ []) names → List.filter isNonEmpty names = names.
Proof.
  intros Hall. apply filter_all. eapply Forall_impl; [exact Hall|].
  by intros [|c r].
Qed.

Lemma splitOn_join (pfx : jsstring) (n : jsstring) (names : list jsstring) :
  44 ∉ pfx → Forall (λ n, 44 ∉ n) (n :: names) →
  splitOn 44 (pfx ++ join (lit ", ") (n :: names))
  = (pfx ++ n) :: List.map (cons 32) names.
Proof.
  revert pfx n. induction names as [|m rest IH]; intros pfx n Hpfx Hall.
  - apply Forall_cons in Hall as [Hn _]. unfold splitOn. simpl.
    rewrite splitOnFrom_plain; [done|]. rewrite elem_of_app. tauto.
  - apply Forall_cons in Hall as [Hn Hall].
    change (join (lit ", ") (n :: m :: rest))
      with (n ++ 44 :: ([32] ++ join (lit ", ") (m :: rest))).
    unfold splitOn. rewrite app_assoc, splitOnFrom_app.
    + simpl. f_equal. apply (IH [32] m); [|done].
      by apply not_elem_of_cons; split; [|apply not_elem_of_nil].
    + rewrite elem_of_app. tauto.
Qed.

Lemma skillNames_join (names : list jsstring) :
  Forall (λ n, n ≠ [] ∧ trim n = n ∧ 44 ∉ n) names →
  skillNames (join (lit ", ") names) = names.
Proof.
  intros Hall. destruct names as [|n names]; [done|].
  unfold skillNames.
  assert (splitOn 44 (join (lit ", ") (n :: names)) = n :: List.map (cons 32) names)
    as ->.
  { apply (splitOn_join [] n names); [apply not_elem_of_nil|].
    eapply Forall_impl; [exact Hall|]. by intros ? (_ & _ & ?). }
  apply Forall_cons in Hall as [(Hn & Htn & _) Hall].
  cbn [List.map]. rewrite List.map_map.
  assert (List.map (λ x, trim (32 :: x)) names = names) as ->.
  { clear -Hall. induction Hall as [|m rest (_ & Hm & _) _ IH]; [done|].
    simpl. rewrite IH. f_equal. by rewrite trim_space. }
  rewrite Htn. apply (filter_isNonEmpty_all (n :: names)).
  constructor; [done|]. eapply Forall_impl; [exact Hall|]. by intros ? (? & _).
Qed.

Lemma skillNames_clean_all (value : jsstring) :
  Forall (λ n, n ≠ [] ∧ trim n = n ∧ 44 ∉ n) (skillNames value).
Proof.
  unfold skillNames. apply Forall_forall. intros n Hn.
  apply list_elem_of_In, List.filter_In in Hn as [Hn Hne].
  apply List.in_map_iff in Hn as (p & <- & Hp). apply list_elem_of_In in Hp.
  split; [by destruct (trim p)|]. split; [apply trim_idempotent|].
  pose proof (splitOnFrom_pieces 44 [] value (not_elem_of_nil _)) as Hall.
  rewrite Forall_forall in Hall. intros Hin. apply (Hall p Hp).
  by apply (sublist_subseteq _ _ (trim_sublist p)).
Qed.

Lemma shownName_typedSkills (id : jsstring) (names : list jsstring) :
  List.map shownName (typedSkills id names) = names.
Proof. unfold typedSkills. rewrite List.map_map. simpl. apply List.map_id. Qed.

Lemma skillsValue_typeSkills (id : jsstring) (data : ResumeData) (value : jsstring) :
  skillsValue (typeSkills id data value) = join (lit ", ") (skillNames value).
Proof. unfold skillsValue. simpl. by rewrite shownName_typedSkills. Qed.

(** X8.  Whatever is typed in the skills field, the names kept are
    clean: none is empty, none starts or ends with white space, and
    none holds a comma. *)
Theorem skillNames_clean (value : jsstring) :
  Forall (λ n, n ≠ [] ∧ trim n = n ∧ (44 ∉ n)
               ∧ (∀ c, head n = Some c → isWhiteSpace c = false)
               ∧ (∀ c, last n = Some c → isWhiteSpace c = false))
    (skillNames value).
Proof.
  eapply Forall_impl; [apply skillNames_clean_all|].
  intros n (Hne & Htrim & Hcomma). repeat split; try done.
  - intros c Hc. destruct n as [|a r]; [done|]. injection Hc as ->.
    by apply (trim_head (c :: r) c r).
  - intros c Hc. destruct (isWhiteSpace c) eqn:Hws; [|done].
    destruct n as [|c' n' _] using rev_ind; [done|].
    rewrite last_snoc in Hc. injection Hc as ->.
    rewrite trim_snoc in Htrim by done.
    assert (length (trim n') ≤ length n')%nat as Hlen.
    { apply sublist_length, trim_sublist. }
    rewrite Htrim, length_app in Hlen. simpl in Hlen. lia.
Qed.

(** X9.  The skills field shows the names joined by a comma and a
    space, and reads them back: a list of clean names (not empty, no
    white space at either end, no comma) that is shown and read again
    is the same list.  So the names read from what the field shows
    after an edit are the names that the edit gave. *)
Theorem skillNames_round_trip (id : jsstring) (data : ResumeData) :
  (∀ names, Forall (λ n, n ≠ [] ∧ trim n = n ∧ (44 ∉ n)) names →
            skillNames (join (lit ", ") names) = names)
  ∧ (∀ value, skillNames (skillsValue (typeSkills id data value)) = skillNames value)
  ∧ (∀ value, typeSkills id (typeSkills id data value)
                (skillsValue (typeSkills id data value))
              = typeSkills id data value).
Proof.
  split; [apply skillNames_join|].
  assert (Hread : ∀ value,
            skillNames (skillsValue (typeSkills id data value)) = skillNames value).
  { intros value. rewrite skillsValue_typeSkills.
    apply skillNames_join, skillNames_clean_all. }
  split; [exact Hread|].
  intros value. unfold typeSkills at 1 2. simpl. by rewrite Hread.
Qed.

(** The names [React] and [Type Script]. *)
Lemma skillNames_round_trip_witness :
  skillNames (lit "React, Type Script") = [lit "React"; lit "Type Script"].
Proof.
  destruct (skillNames_round_trip [] (draftWithSkills [])) as [Hjoin _].
  apply (Hjoin [lit "React"; lit "Type Script"]).
  repeat constructor; try discriminate; vm_compute; intros Hin;
    repeat (apply elem_of_cons in Hin as [Hin|Hin]; [discriminate Hin|]);
    by apply elem_of_nil in Hin.
Defined.

(** X10.  A comma or a white-space character typed at the end of the
    skills field changes nothing: the names read are the same, so the
    field, which shows the names of the draft, shows what it showed
    before. *)
Theorem skillNames_trailing (id : jsstring) (data : ResumeData) (value : jsstring) :
  skillNames (value ++ lit ",") = skillNames value
  ∧ (∀ c, isWhiteSpace c = true → skillNames (value ++ [c]) = skillNames value)
  ∧ skillsValue (typeSkills id data (value ++ lit ","))
    = skillsValue (typeSkills id data value)
  ∧ skillsValue (typeSkills id data (value ++ lit " "))
    = skillsValue (typeSkills id data value).
Proof.
  assert (Hcomma : skillNames (value ++ lit ",") = skillNames value).
  { unfold skillNames, splitOn. change (lit ",") with [44].
    rewrite splitOnFrom_snoc_sep, List.map_app, List.filter_app. simpl.
    by rewrite app_nil_r. }
  assert (Hspace : ∀ c, isWhiteSpace c = true →
                        skillNames (value ++ [c]) = skillNames value).
  { intros c Hc. unfold skillNames, splitOn.
    destruct (splitOnFrom_snoc 44 [] value c) as (ps & p & -> & ->).
    { intros ->. done. }
    rewrite !List.map_app, !List.filter_app. simpl. by rewrite trim_snoc. }
  split; [exact Hcomma|]. split; [exact Hspace|].
  rewrite !skillsValue_typeSkills, Hcomma. split; [done|].
  change (lit " ") with [32]. by rewrite Hspace.
Qed.

Section TypedSkills.
Context `{CaseMapping}.

(** X11.  The skills that the skills field puts in the draft all have a
    name, and the key under which the enhancement engine compares them
    is that name in lower case: the key that an object without a name
    goes by never arises from the field.  The dedup of such a list
    keeps the first entry of every lower-cased name. *)
Theorem typedSkills_keys (id : jsstring) (value : jsstring) :
  let l := typedSkills id (skillNames value) in
  Forall (λ s, named s = true
               ∧ nameOrSelf s = AsString (entryName s)
               ∧ skillKey s = toLowerCase (entryName s)) l
  ∧ entryName <$> l = skillNames value
  ∧ dedupeSkills l = filterUnseen (λ s, toLowerCase (entryName s)) ∅ l.
Proof.
  intros l.
  assert (Hall : Forall (λ s, named s = true
                              ∧ nameOrSelf s = AsString (entryName s)
                              ∧ skillKey s = toLowerCase (entryName s)) l).
  { unfold l, typedSkills. apply Forall_forall. intros s Hs.
    apply list_elem_of_In, List.in_map_iff in Hs as (n & <- & Hn).
    apply list_elem_of_In in Hn.
    pose proof (skillNames_clean_all value) as Hclean.
    rewrite Forall_forall in Hclean. destruct (Hclean n Hn) as (Hne & Htrim & _).
    destruct n as [|c r]; [done|]. repeat split.
    unfold skillKey. simpl. by rewrite Htrim. }
  split; [exact Hall|]. split.
  - unfold l, typedSkills. rewrite <- list_fmap_compose. apply list_fmap_id.
  - unfold dedupeSkills. apply filterUnseen_ext.
    eapply Forall_impl; [exact Hall|]. by intros s (_ & _ & ?).
Qed.

End TypedSkills.

(** ** The template of the draft, generation and printing *)

Lemma truthyStr_orLit (a : option jsstring) (b : jsstring) :
  truthyStr a = true → orLit a b = default [] a.
Proof. by destruct a as [[|c r]|]. Qed.

(** X12.  The effect that restores the last-used template never
    changes the template that a generation uses, and changes nothing
    else in the draft; when there is a last-used template, the draft
    has a template afterwards; running the effect again changes
    nothing.  After the selector is set to a template [val] that is
    not the empty string, the generation uses [val], whatever the
    catalog holds. *)
Theorem restoreTemplate_keeps_choice (resumeData : ResumeData)
    (lastUsedTemplate : option jsstring) (templates : list jsstring) :
  let restored := restoreTemplate resumeData lastUsedTemplate in
  resolveTemplate (template restored) lastUsedTemplate templates
  = resolveTemplate (template resumeData) lastUsedTemplate templates
  ∧ restored = withTemplate resumeData (template restored)
  ∧ (truthyStr (template resumeData) = true → restored = resumeData)
  ∧ (truthyStr lastUsedTemplate = true → truthyStr (template restored) = true)
  ∧ restoreTemplate restored lastUsedTemplate = restored
  ∧ (∀ val, val ≠ [] →
       resolveTemplate (template (selectTemplate resumeData val).1)
         (selectTemplate resumeData val).2 templates = val).
Proof.
  intros restored. unfold restored, restoreTemplate.
  destruct resumeData as [pi su ed we pr sk ce te ai]. simpl.
  repeat split.
  - destruct lastUsedTemplate as [[|c r]|], te as [[|c' r']|]; reflexivity.
  - destruct lastUsedTemplate as [[|c r]|], te as [[|c' r']|]; reflexivity.
  - intros Ht. destruct lastUsedTemplate as [[|c r]|], te as [[|c' r']|]; done.
  - intros Hl. destruct lastUsedTemplate as [[|c r]|], te as [[|c' r']|]; done.
  - destruct lastUsedTemplate as [[|c r]|], te as [[|c' r']|]; reflexivity.
  - intros [|c r] Hval; done.
Qed.

(** A draft without a template, with the last-used template
    [modern_executive.tex]. *)
Lemma restoreTemplate_keeps_choice_witness :
  template (restoreTemplate (draftWithSkills []) (Some (lit "modern_executive.tex")))
  = Some (lit "modern_executive.tex").
Proof.
  destruct (restoreTemplate_keeps_choice (draftWithSkills [])
              (Some (lit "modern_executive.tex")) []) as (_ & _ & _ & Hlast & _).
  specialize (Hlast eq_refl).
  destruct (template (restoreTemplate (draftWithSkills [])
                        (Some (lit "modern_executive.tex")))) as [t|] eqn:Ht;
    [|discriminate Hlast].
  vm_compute in Ht. injection Ht as <-. reflexivity.
Defined.

Section PageFacts.
Context {J : Type} `{Host J} `{CaseMapping}.

Lemma generateResume_ok {D} (base : jsstring) (data : GenerateResumeRequest D)
    (w : World D) (log : list (HttpRequest D)) (res : Response) :
  net w {| req_url := endpoint base "/generate_resume"; req_method := POST;
           req_body := GenerateBody (gen_template data) (gen_data data)
                         (formatName (gen_format data)) |} = inr res →
  ok res = true →
  (generateResume base data w log).1
  = match body res with
    | None => inl bodyUnreadable
    | Some bs =>
        match gen_format data with
        | pdf => inr (GeneratedBlob bs)
        | html => inr (GeneratedText (utf8Decode bs))
        end
    end.
Proof.
  intros Hnet Hok. unfold generateResume. io_unfold.
  rewrite Hnet, Hok. simpl. by destruct (gen_format data), (body res).
Qed.

Lemma generateResume_rejected {D} (base : jsstring) (data : GenerateResumeRequest D)
    (w : World D) (log : list (HttpRequest D)) (e : jsstring) :
  net w {| req_url := endpoint base "/generate_resume"; req_method := POST;
           req_body := GenerateBody (gen_template data) (gen_data data)
                         (formatName (gen_format data)) |} = inl e →
  (generateResume base data w log).1 = inl e.
Proof. intros Hnet. unfold generateResume. io_unfold. by rewrite Hnet. Qed.

(** X13.  [handleGenerate] never throws and sends one request.  It
    ends with the downloaded PDF (the bytes of the response, unchanged)
    or the preview (the text of the response) when the status is within
    200..299 and the body can be read, and with the [Generation failed]
    toast otherwise, whose description is the error of the rejection,
    the text [Generation failed (status): ] followed by the body or the
    status text, or the error of reading the body. *)
Theorem handleGenerate_outcome (base : jsstring) (resumeData : ResumeData)
    (lastUsedTemplate : option jsstring) (templates : list jsstring)
    (format : Format) (w : World ResumeData) (log : list (HttpRequest ResumeData)) :
  let payload := payloadOf resumeData lastUsedTemplate templates format in
  let request :=
    {| req_url := endpoint base "/generate_resume"; req_method := POST;
       req_body := GenerateBody (gen_template payload) (gen_data payload)
                     (formatName format) |} in
  let run := handleGenerate base resumeData lastUsedTemplate templates format w log in
  (∃ shown, run = (inr shown, log ++ [request]))
  ∧ (∀ e, net w request = inl e → run.1 = inr (GenerationFailed e))
  ∧ (∀ res, net w request = inr res → (status res < 200 ∨ 299 < status res) →
       run.1 = inr (GenerationFailed
                      (lit "Generation failed (" ++ decimal (status res) ++ lit "): "
                       ++ failureText res)))
  ∧ (∀ res bs, net w request = inr res → 200 ≤ status res ≤ 299 →
       body res = Some bs →
       run.1 = inr (match format with
                    | pdf => PdfDownloaded bs
                    | html => PreviewReady (utf8Decode bs)
                    end))
  ∧ (∀ res, net w request = inr res → 200 ≤ status res ≤ 299 →
       body res = None → run.1 = inr (GenerationFailed bodyUnreadable)).
Proof.
  intros payload request run.
  pose proof (generateResume_log base payload w log) as Hlog.
  assert (Hrun : run = match generateResume base payload w log with
                       | (inr (GeneratedBlob bs), l) => (inr (PdfDownloaded bs), l)
                       | (inr (GeneratedText t), l) => (inr (PreviewReady t), l)
                       | (inl e, l) => (inr (GenerationFailed e), l)
                       end).
  { unfold run, handleGenerate. fold payload. io_unfold.
    by destruct (generateResume base payload w log) as [[e|[bs|t]] l]. }
  split.
  { rewrite Hrun. fold request in Hlog.
    destruct (generateResume base payload w log) as [[e|[bs|t]] l];
      simpl in Hlog; subst l; eauto. }
  split.
  { intros e Hnet. pose proof (generateResume_rejected base payload w log e Hnet) as Hg.
    rewrite Hrun. by destruct (generateResume base payload w log) as [[e'|[bs|t]] l];
      simpl in Hg; simplify_eq. }
  split.
  { intros res Hnet Hst. assert (ok res = false) as Hok by (unfold ok; lia).
    rewrite Hrun, (generateResume_not_ok base payload w log res Hnet Hok). done. }
  split.
  - intros res bs Hnet Hst Hb. assert (ok res = true) as Hok by (unfold ok; lia).
    pose proof (generateResume_ok base payload w log res Hnet Hok) as Hg.
    rewrite Hb in Hg. rewrite Hrun.
    change (gen_format payload) with format in Hg.
    by destruct (generateResume base payload w log) as [[e'|[bs'|t]] l], format;
      simpl in Hg; simplify_eq.
  - intros res Hnet Hst Hb. assert (ok res = true) as Hok by (unfold ok; lia).
    pose proof (generateResume_ok base payload w log res Hnet Hok) as Hg.
    rewrite Hb in Hg. rewrite Hrun.
    by destruct (generateResume base payload w log) as [[e'|[bs'|t]] l];
      simpl in Hg; simplify_eq.
Qed.

(** X14.  [handlePrintHtml] never throws.  With a preview at hand it
    sends no request and prints the preview.  Without one it sends one
    request, for the format [html], with the template that a generation
    would use and with the draft as it is, and keeps the text of the
    answer as the preview; a failure ends in the [Print failed] toast
    and leaves the preview empty.  When no window opens, nothing is
    printed and the preview is kept. *)
Theorem handlePrintHtml_outcome (base : jsstring) (resumeData : ResumeData)
    (lastUsedTemplate : option jsstring) (templates : list jsstring)
    (htmlPreview : jsstring) (windowOpens : bool)
    (w : World ResumeData) (log : list (HttpRequest ResumeData)) :
  let request :=
    {| req_url := endpoint base "/generate_resume"; req_method := POST;
       req_body :=
         GenerateBody (resolveTemplate (template resumeData) lastUsedTemplate templates)
           resumeData (lit "html") |} in
  let run := handlePrintHtml base resumeData lastUsedTemplate templates htmlPreview
               windowOpens w log in
  let printed content := if windowOpens then PrintPageWritten content else NoWindow in
  (∃ p, run.1 = inr p)
  ∧ (htmlPreview ≠ [] → run = (inr (printed htmlPreview, htmlPreview), log))
  ∧ (htmlPreview = [] → run.2 = log ++ [request])
  ∧ (htmlPreview = [] → ∀ res bs, net w request = inr res → 200 ≤ status res ≤ 299 →
       body res = Some bs → run.1 = inr (printed (utf8Decode bs), utf8Decode bs))
  ∧ (htmlPreview = [] → ∀ res, net w request = inr res →
       (status res < 200 ∨ 299 < status res) →
       run.1 = inr (PrintFailed
                      (lit "Generation failed (" ++ decimal (status res) ++ lit "): "
                       ++ failureText res), []))
  ∧ (htmlPreview = [] → ∀ e, net w request = inl e → run.1 = inr (PrintFailed e, [])).
Proof.
  intros request run printed.
  set (payload := {| gen_template :=
                       resolveTemplate (template resumeData) lastUsedTemplate templates;
                     gen_data := resumeData; gen_format := html |}).
  assert (Hcached : htmlPreview ≠ [] →
                    run = (inr (printed htmlPreview, htmlPreview), log)).
  { intros Hne. unfold run, handlePrintHtml. io_unfold.
    destruct htmlPreview as [|c r]; [done|]. by destruct windowOpens. }
  assert (Hfresh : htmlPreview = [] →
            run = match generateResume base payload w log with
                  | (inr res, l) =>
                      (inr (printed (stringOfGenerated res), stringOfGenerated res), l)
                  | (inl e, l) => (inr (PrintFailed e, []), l)
                  end).
  { intros ->. unfold run, handlePrintHtml. fold payload. io_unfold.
    destruct (generateResume base payload w log) as [[e|res] l]; [done|].
    by destruct windowOpens. }
  split.
  { destruct htmlPreview as [|c r].
    - rewrite Hfresh by done.
      destruct (generateResume base payload w log) as [[e|res] l]; simpl; eauto.
    - rewrite Hcached by done. simpl. eauto. }
  split; [exact Hcached|].
  split.
  { intros He. rewrite (Hfresh He).
    pose proof (generateResume_log base payload w log) as Hlog.
    by destruct (generateResume base payload w log) as [[e|res] l]. }
  split.
  { intros He res bs Hnet Hst Hb. assert (ok res = true) as Hok by (unfold ok; lia).
    pose proof (generateResume_ok base payload w log res Hnet Hok) as Hg.
    rewrite Hb in Hg. rewrite (Hfresh He).
    by destruct (generateResume base payload w log) as [[e'|res'] l];
      simpl in Hg; simplify_eq. }
  split.
  { intros He res Hnet Hst. assert (ok res = false) as Hok by (unfold ok; lia).
    by rewrite (Hfresh He), (generateResume_not_ok base payload w log res Hnet Hok). }
  intros He e Hnet.
  pose proof (generateResume_rejected base payload w log e Hnet) as Hg.
  rewrite (Hfresh He).
  by destruct (generateResume base payload w log) as [[e'|res'] l];
    simpl in Hg; simplify_eq.
Qed.

(** X15.  Printing without a preview at hand and previewing ask for the
    same template and the same format, but not for the same data: the
    preview sends the enhanced draft when AI enhancement is on, the
    print always sends the draft as it is.  The two requests are the
    same exactly when AI enhancement is off or the enhancement leaves
    the draft as it is. *)
Theorem print_skips_enhancement (base : jsstring) (resumeData : ResumeData)
    (lastUsedTemplate : option jsstring) (templates : list jsstring)
    (windowOpens : bool) (w : World ResumeData) (log : list (HttpRequest ResumeData)) :
  let requestOf data :=
    {| req_url := endpoint base "/generate_resume"; req_method := POST;
       req_body :=
         GenerateBody (resolveTemplate (template resumeData) lastUsedTemplate templates)
           data (lit "html") |} in
  let printing := handlePrintHtml base resumeData lastUsedTemplate templates []
                    windowOpens w log in
  let previewing := handleGenerate base resumeData lastUsedTemplate templates html
                      w log in
  printing.2 = log ++ [requestOf resumeData]
  ∧ previewing.2
    = log ++ [requestOf (if aiEnhancement resumeData then enhanceResume resumeData
                         else resumeData)]
  ∧ (printing.2 = previewing.2
     ↔ aiEnhancement resumeData = false ∨ enhanceResume resumeData = resumeData).
Proof.
  intros requestOf printing previewing.
  assert (Hprint : printing.2 = log ++ [requestOf resumeData]).
  { unfold printing, handlePrintHtml. io_unfold.
    set (payload := {| gen_template := _; gen_data := resumeData; gen_format := html |}).
    pose proof (generateResume_log base payload w log) as Hlog.
    destruct (generateResume base payload w log) as [[e|res] l]; [done|].
    by destruct windowOpens. }
  assert (Hpreview : previewing.2
            = log ++ [requestOf (if aiEnhancement resumeData
                                 then enhanceResume resumeData else resumeData)]).
  { unfold previewing, handleGenerate. io_unfold.
    pose proof (generateResume_log base
                  (payloadOf resumeData lastUsedTemplate templates html) w log) as Hlog.
    by destruct (generateResume base _ w log) as [[e|[bs|t]] l]. }
  split; [exact Hprint|]. split; [exact Hpreview|].
  rewrite Hprint, Hpreview. split.
  - intros Heq. apply app_inv_head in Heq. injection Heq as Heq.
    destruct (aiEnhancement resumeData); [by right | by left].
  - intros [-> | Hfix]; [done|]. destruct (aiEnhancement resumeData); [|done].
    by rewrite Hfix.
Qed.

End PageFacts.

(** The preview of a draft, from a backend that answers with the text
    [<p>cv</p>]. *)
Lemma handleGenerate_outcome_witness :
  (@handleGenerate _ asciiHost asciiCase (lit "http://localhost:8000")
     (draftWithSkills []) None [] html (answering pageResponse) []).1
  = inr (PreviewReady (lit "<p>cv</p>")).
Proof.
  destruct (@handleGenerate_outcome _ asciiHost asciiCase (lit "http://localhost:8000")
              (draftWithSkills []) None [] html (answering pageResponse) [])
    as (_ & _ & _ & Hok & _).
  apply (Hok pageResponse (bytesOf "<p>cv</p>")); [reflexivity | | reflexivity].
  split; intros Hc; discriminate Hc.
Defined.

(** Printing with the preview [<p>cv</p>] at hand, in a world whose
    backend fails: no request is sent, and the preview is printed. *)
Lemma handlePrintHtml_outcome_witness :
  @handlePrintHtml _ asciiHost (lit "http://localhost:8000")
    (draftWithSkills []) None [] (lit "<p>cv</p>") true (answering serverError) []
  = (inr (PrintPageWritten (lit "<p>cv</p>"), lit "<p>cv</p>"), []).
Proof.
  destruct (@handlePrintHtml_outcome _ asciiHost (lit "http://localhost:8000")
              (draftWithSkills []) None [] (lit "<p>cv</p>") true
              (answering serverError) []) as (_ & Hcached & _).
  apply Hcached. discriminate.
Defined.

(** ** The advertised tools and the handler *)

(** Case analysis on every test of the [switch]. *)
Ltac tool_cases :=
  unfold toolSwitch, argsOf, post in *; io_unfold;
  repeat first [ case_bool_decide | case_match ]; simplify_eq/=.

Section ToolFacts.
Context {D J : Type} `{Host J} `{CaseMapping}.





(** X19.  The tool [generate_resume_html] is the tool [generate_resume]
    with the format [html]: when the format of the call, [html] if it
    is absent, is [html] once in lower case, the two tools send the
    same request and return the same result. *)
Theorem generate_resume_html_same (base : jsstring) (args : option (ToolArgs D))
    (w : World D) (log : list (HttpRequest D)) :
  (∀ a, args = Some a → toLowerCase (orLit (arg_format a) (lit "html")) = lit "html") →
  callTool base {| name := lit "generate_resume_html"; arguments := args |} w log
  = callTool base {| name := lit "generate_resume"; arguments := args |} w log.
Proof.
  intros Hf. unfold callTool. f_equal.
  assert (toolSwitch base {| name := lit "generate_resume_html"; arguments := args |}
          = (a ← argsOf args "template";
             match resume_data a with
             | None => throw (lit "resume_data is required")
             | Some resumeData =>
                 res ← fetch (post base "/generate_resume"
                                (GenerateBody
                                   (orLit (arg_template a) (lit "billryan_basic.tex"))
                                   resumeData (lit "html")));
                 html ← resText res;
                 io_ret (textResult html)
             end)) as -> by reflexivity.
  assert (toolSwitch base {| name := lit "generate_resume"; arguments := args |}
          = (a ← argsOf args "template";
             let format := toLowerCase (orLit (arg_format a) (lit "html")) in
             match resume_data a with
             | None => throw (lit "resume_data is required")
             | Some resumeData =>
                 res ← fetch (post base "/generate_resume"
                                (GenerateBody
                                   (orLit (arg_template a) (lit "billryan_basic.tex"))
                                   resumeData format));
                 if bool_decide (format = lit "pdf") then
                   buf ← resBytes res;
                   io_ret (textResult (pdfMarker ++ Base64.encode buf))
                 else
                   html ← resText res;
                   io_ret (textResult html)
             end)) as -> by reflexivity.
  destruct args as [a|]; [|done]. unfold argsOf.
  change (io_ret a ≫= ?k) with (k a). cbv beta. rewrite (Hf a eq_refl). reflexivity.
Qed.

(** X20.  A tool call sends at most one request, and only to one of
    the three addresses of the collaborator: the base followed by
    [/templates], [/upload_resume] or [/generate_resume].  A call that
    sends none is answered with an error. *)
Theorem callTool_requests (base : jsstring) (request : CallToolRequest D)
    (w : World D) (log : list (HttpRequest D)) :
  ∃ sent r,
    callTool base request w log = (inr r, log ++ sent)
    ∧ (length sent ≤ 1)%nat
    ∧ Forall (λ q, req_url q ∈ [base ++ lit "/templates"; base ++ lit "/upload_resume";
                               base ++ lit "/generate_resume"]) sent
    ∧ (sent = [] → isError r = true).
Proof.
  assert (Hsent : ∃ sent,
            (toolSwitch base request w log).2 = log ++ sent
            ∧ (length sent ≤ 1)%nat
            ∧ Forall (λ q, req_url q ∈ [base ++ lit "/templates";
                                        base ++ lit "/upload_resume";
                                        base ++ lit "/generate_resume"]) sent
            ∧ (sent = [] → ∃ e, (toolSwitch base request w log).1 = inl e)).
  { unfold toolSwitch, argsOf, post. io_unfold. io_unfold.
    repeat first [ case_bool_decide | case_match ]; simplify_eq; cbn [fst snd];
      first
        [ by (exists []; rewrite app_nil_r; repeat split; eauto)
        | eexists [_]; split; [reflexivity|];
          split; [done|]; split; [|done];
          constructor; [|done]; cbn [req_url]; rewrite !elem_of_cons; tauto ]. }
  pose proof (callTool_catches base request w log) as Hcatch.
  destruct Hsent as (sent & Hlog & Hlen & Hall & Hnone).
  destruct (toolSwitch base request w log) as [[e|r] log'] eqn:Hr; simpl in *; subst log'.
  - eexists sent, _. split; [exact Hcatch|]. done.
  - exists sent, r. split; [exact Hcatch|]. repeat split; try done.
    intros Hs. by destruct (Hnone Hs).
Qed.

End ToolFacts.




(** The format [HTML]. *)
Lemma generate_resume_html_same_witness :
  @callTool unit _ asciiHost asciiCase (lit "http://localhost:8000")
    {| name := lit "generate_resume_html";
       arguments := Some (generateArgs (Some (lit "HTML"))) |}
    (answering pageResponse) []
  = @callTool unit _ asciiHost asciiCase (lit "http://localhost:8000")
      {| name := lit "generate_resume";
         arguments := Some (generateArgs (Some (lit "HTML"))) |}
      (answering pageResponse) [].
Proof.
  apply (@generate_resume_html_same unit _ asciiHost asciiCase).
  intros a [= <-]. reflexivity.
Defined.
